(** * The node-based rules engine: a shallow embedding

    This development embeds the rule engine of the repository
    (evaluate_rules/main.py, class NodeBasedRulesEngine, and the condition
    evaluator of its tree-shaped sibling in evaluate_rules/main copy.py)
    and states the properties of the specification over that embedding.

    Modelling decisions, all of them visible in the definitions below:
    - Python values are the inductive [value]: None, booleans, integers,
      text, lists and dictionaries (a bool counts as the integer 0 or 1,
      as in Python). Readings, operands and action data that are floats
      are outside the model; the one float here is the total_seconds()
      that get_rules compares with the interval.
    - An exception is a value of [exn]; code inside try/except runs in the
      error monad [res].
    - Dictionaries keyed by node id are [gmap string _]; documents read
      from the store are records whose optional keys are [option] fields.
    - [datetime.now()] reads a clock [nat -> Z] (microseconds) at the
      current tick and advances the tick. A stored last_run is a naive or
      an aware datetime; a timedelta is its exact count of microseconds,
      and its total_seconds() the double nearest to that count divided by
      10^6, as a mantissa and an exponent.
    - The while loop of execute_rule takes fuel; [None] means the fuel ran
      out, never that the run ended.
    - The telemetry store, the rules collection and the dispatcher are the
      fields of [World] and [state]. [World] is how they answer during one
      request: a read of a collection does not fail, the newest value of a
      topic and the dispatcher's verdict on a request are the same
      throughout, and a write of last_run is taken or refused as [stores]
      says.
    - Text is a Rocq string; where single characters matter (iteration,
      repr, int(), lower()) it is read as ASCII. *)

From stdpp Require Import base gmap list strings pretty.
From Stdlib Require Import ZArith Ascii Lia.

Set Warnings "-register-all".

(** ** Python values, exceptions and operators *)

Module Py.

Inductive value : Type :=
| VNone
| VBool (b : bool)
| VInt (n : Z)
| VStr (s : string)
| VList (l : list value)
| VDict (d : list (string * value)).

Inductive exn : Type :=
| KeyError (key : string)
| TypeError (what : string)
| ValueError (what : string)
| TransportError.

Inductive res (A : Type) : Type :=
| Ok (a : A)
| Raise (e : exn).

Arguments Ok {A} a.
Arguments Raise {A} e.

#[global] Instance res_ret : MRet res := fun A a => Ok a.

#[global] Instance res_bind : MBind res := fun A B f c =>
  match c with
  | Ok a => f a
  | Raise e => Raise e
  end.

(** bool(v): the truth value Python's [if], [not], [all] and [any] use. *)
Definition truthy (v : value) : bool :=
  match v with
  | VNone => false
  | VBool b => b
  | VInt n => negb (Z.eqb n 0)
  | VStr s => negb (String.eqb s "")
  | VList l => match l with [] => false | _ :: _ => true end
  | VDict d => match d with [] => false | _ :: _ => true end
  end.

(** A bool or an int read as a number. *)
Definition as_num (v : value) : option Z :=
  match v with
  | VBool b => Some (Z.b2z b)
  | VInt n => Some n
  | _ => None
  end.

(** hash(v) raises TypeError on lists and dicts. *)
Definition hashable (v : value) : bool :=
  match v with
  | VList _ | VDict _ => false
  | _ => true
  end.

Fixpoint assoc {A : Type} (k : string) (d : list (string * A)) : option A :=
  match d with
  | [] => None
  | (k', v) :: d' => if String.eqb k k' then Some v else assoc k d'
  end.

(** x == y. It never raises on the values of the model. *)
Fixpoint py_eq (x y : value) : bool :=
  match x with
  | VNone => match y with VNone => true | _ => false end
  | VBool a =>
      match y with
      | VBool b => Bool.eqb a b
      | VInt n => Z.eqb (Z.b2z a) n
      | _ => false
      end
  | VInt m =>
      match y with
      | VBool b => Z.eqb m (Z.b2z b)
      | VInt n => Z.eqb m n
      | _ => false
      end
  | VStr s => match y with VStr t => String.eqb s t | _ => false end
  | VList a =>
      match y with
      | VList b =>
          (fix go (a b : list value) : bool :=
             match a, b with
             | [], [] => true
             | u :: a', v :: b' => py_eq u v && go a' b'
             | _, _ => false
             end) a b
      | _ => false
      end
  | VDict a =>
      match y with
      | VDict b =>
          Nat.eqb (length a) (length b) &&
          (fix go (a : list (string * value)) : bool :=
             match a with
             | [] => true
             | (k, u) :: a' =>
                 match assoc k b with
                 | Some v => py_eq u v && go a'
                 | None => false
                 end
             end) a
      | _ => false
      end
  end.

(** The three-way order behind <, <=, > and >=: numbers by value, text by
    code point, lists by their first unequal elements and then by length.
    Every other pairing raises TypeError. *)
Fixpoint py_cmp (x y : value) : res comparison :=
  match x with
  | VStr s =>
      match y with
      | VStr t => Ok (String.compare s t)
      | _ => Raise (TypeError "unorderable")
      end
  | VList a =>
      match y with
      | VList b =>
          (fix go (a b : list value) : res comparison :=
             match a, b with
             | [], [] => Ok Eq
             | [], _ :: _ => Ok Lt
             | _ :: _, [] => Ok Gt
             | u :: a', v :: b' => if py_eq u v then go a' b' else py_cmp u v
             end) a b
      | _ => Raise (TypeError "unorderable")
      end
  | _ =>
      match as_num x, as_num y with
      | Some m, Some n => Ok (Z.compare m n)
      | _, _ => Raise (TypeError "unorderable")
      end
  end.

Definition is_lt (c : comparison) : bool := match c with Lt => true | _ => false end.
Definition is_gt (c : comparison) : bool := match c with Gt => true | _ => false end.

Definition py_gt (x y : value) : res value := c ← py_cmp x y; Ok (VBool (is_gt c)).
Definition py_ge (x y : value) : res value := c ← py_cmp x y; Ok (VBool (negb (is_lt c))).
Definition py_lt (x y : value) : res value := c ← py_cmp x y; Ok (VBool (is_lt c)).
Definition py_le (x y : value) : res value := c ← py_cmp x y; Ok (VBool (negb (is_gt c))).

Fixpoint is_substring (t s : string) : bool :=
  String.prefix t s ||
  match s with
  | EmptyString => false
  | String _ s' => is_substring t s'
  end.

(** y in x *)
Definition py_in (y x : value) : res bool :=
  match x with
  | VStr s =>
      match y with
      | VStr t => Ok (is_substring t s)
      | _ => Raise (TypeError "in <string> requires string as left operand")
      end
  | VList l => Ok (existsb (fun e => py_eq e y) l)
  | VDict d =>
      match y with
      | VStr k => Ok (bool_decide (is_Some (assoc k d)))
      | _ => if hashable y then Ok false else Raise (TypeError "unhashable type")
      end
  | _ => Raise (TypeError "argument is not iterable")
  end.

(** iter(v): the elements a comprehension walks over. *)
Definition py_iter (v : value) : res (list value) :=
  match v with
  | VList l => Ok l
  | VStr s => Ok ((fun c => VStr (String c EmptyString)) <$> String.list_ascii_of_string s)
  | VDict d => Ok ((fun kv => VStr (fst kv)) <$> d)
  | _ => Raise (TypeError "object is not iterable")
  end.

(** int(s) for a text s: surrounding whitespace, one optional sign,
    decimal digits, single underscores between digits. *)
Definition is_space (c : ascii) : bool :=
  let n := nat_of_ascii c in
  Nat.eqb n 32 || (Nat.leb 9 n && Nat.leb n 13).

Definition digit_of (c : ascii) : option Z :=
  let n := nat_of_ascii c in
  if Nat.leb 48 n && Nat.leb n 57 then Some (Z.of_nat (n - 48)) else None.

Fixpoint drop_spaces (cs : list ascii) : list ascii :=
  match cs with
  | c :: cs' => if is_space c then drop_spaces cs' else cs
  | [] => []
  end.

Definition strip (cs : list ascii) : list ascii :=
  rev (drop_spaces (rev (drop_spaces cs))).

(** [digits acc after_digit cs]: [after_digit] tells whether the previous
    character was a digit, the only place where an underscore may stand. *)
Fixpoint digits (acc : Z) (after_digit : bool) (cs : list ascii) : option Z :=
  match cs with
  | [] => if after_digit then Some acc else None
  | c :: cs' =>
      match digit_of c with
      | Some d => digits (acc * 10 + d) true cs'
      | None =>
          if Ascii.eqb c "_" && after_digit
          then match cs' with
               | c' :: _ =>
                   match digit_of c' with
                   | Some _ => digits acc false cs'
                   | None => None
                   end
               | [] => None
               end
          else None
      end
  end.

Definition py_int_of_str (s : string) : res Z :=
  let body := strip (String.list_ascii_of_string s) in
  let parsed :=
    match body with
    | c :: cs =>
        if Ascii.eqb c "-" then Z.opp <$> digits 0 false cs
        else if Ascii.eqb c "+" then digits 0 false cs
        else digits 0 false body
    | [] => None
    end in
  match parsed with
  | Some n => Ok n
  | None => Raise (ValueError "invalid literal for int() with base 10")
  end.

(** repr(s) for a text of printable ASCII: the quote is the single quote
    unless the text holds one and no double quote. *)
Definition dquote : ascii := ascii_of_nat 34.
Definition squote : ascii := ascii_of_nat 39.
Definition backslash : ascii := ascii_of_nat 92.

Definition hex_digit (n : nat) : ascii :=
  ascii_of_nat (if Nat.ltb n 10 then 48 + n else 87 + n).

Definition escape_char (q c : ascii) : list ascii :=
  let n := nat_of_ascii c in
  if Ascii.eqb c backslash then [backslash; backslash]
  else if Ascii.eqb c q then [backslash; q]
  else if Nat.eqb n 10 then [backslash; "n"%char]
  else if Nat.eqb n 13 then [backslash; "r"%char]
  else if Nat.eqb n 9 then [backslash; "t"%char]
  else if Nat.ltb n 32 || Nat.eqb n 127
       then [backslash; "x"%char; hex_digit (n / 16); hex_digit (n mod 16)]
  else [c].

Definition repr_str (s : string) : string :=
  let cs := String.list_ascii_of_string s in
  let has c := existsb (Ascii.eqb c) cs in
  let q := if has squote && negb (has dquote) then dquote else squote in
  String.string_of_list_ascii (q :: concat (escape_char q <$> cs) ++ [q]).

Fixpoint join (sep : string) (l : list string) : string :=
  match l with
  | [] => ""
  | [s] => s
  | s :: l' => s +:+ sep +:+ join sep l'
  end.

Fixpoint py_repr (v : value) : string :=
  match v with
  | VNone => "None"
  | VBool b => if b then "True" else "False"
  | VInt n => pretty n
  | VStr s => repr_str s
  | VList l => "[" +:+ join ", " (map py_repr l) +:+ "]"
  | VDict d =>
      "{" +:+ join ", " (map (fun kv => repr_str (fst kv) +:+ ": " +:+ py_repr (snd kv)) d) +:+ "}"
  end.

(** str(v) *)
Definition py_str (v : value) : string :=
  match v with
  | VStr s => s
  | _ => py_repr v
  end.

(** *** Dates and durations

    A datetime is read as its microseconds since an epoch. What
    datetime.fromisoformat makes of a text is naive (no UTC offset, as
    datetime.now().isoformat() writes it) or aware (the text ends in an
    offset, as in 1970-01-01T00:00:00+00:00). *)
Inductive datetime : Type :=
| Naive (t : Z)
| Aware (t : Z).

(** now - t for the naive [now] of datetime.now(): a timedelta, as its
    exact count of microseconds. A naive and an aware datetime cannot be
    subtracted. *)
Definition elapsed (now : Z) (t : datetime) : res Z :=
  match t with
  | Naive last => Ok (now - last)%Z
  | Aware _ => Raise (TypeError "can't subtract offset-naive and offset-aware datetimes")
  end.

(** A finite float (a double): mantissa * 2 ^ exponent. *)
Record float : Type := {
  mantissa : Z;
  exponent : Z
}.

(** The integer nearest to n / d, for n >= 0 and d > 0; a tie goes to the
    even one. *)
Definition nearest (n d : Z) : Z :=
  let q := (n / d)%Z in
  match (2 * (n mod d) ?= d)%Z with
  | Lt => q
  | Gt => (q + 1)%Z
  | Eq => if Z.even q then q else (q + 1)%Z
  end.

(** floor (log2 (n / d)), for n > 0 and d > 0 *)
Definition binade (n d : Z) : Z :=
  let l := (Z.log2 n - Z.log2 d)%Z in
  let below :=
    if (0 <=? l)%Z then (n <? d * 2 ^ l)%Z else (n * 2 ^ (- l) <? d)%Z in
  if below then (l - 1)%Z else l.

(** n / d for integers n >= 0 and d > 0: the double nearest to the
    quotient, with the 53 bits of a normal double. Quotients small or
    large enough to leave the normal range are not in reach of a
    timedelta, which is the only use here. *)
Definition nearest_double (n d : Z) : float :=
  if (n =? 0)%Z then {| mantissa := 0; exponent := 0 |}
  else
    let e := (binade n d - 52)%Z in
    {| mantissa := if (0 <=? e)%Z then nearest n (d * 2 ^ e) else nearest (n * 2 ^ (- e)) d;
       exponent := e |}.

(** n / d for an integer n and d > 0 *)
Definition true_divide (n d : Z) : float :=
  if (0 <=? n)%Z then nearest_double n d
  else
    let x := nearest_double (- n) d in
    {| mantissa := - mantissa x; exponent := exponent x |}.

(** timedelta.total_seconds(), for a timedelta of [microseconds] *)
Definition total_seconds (microseconds : Z) : float := true_divide microseconds 1000000.

(** x >= k for a float x and an int k: the exact values are compared. *)
Definition float_ge_int (x : float) (k : Z) : bool :=
  if (0 <=? exponent x)%Z then (k <=? mantissa x * 2 ^ exponent x)%Z
  else (k * 2 ^ (- exponent x) <=? mantissa x)%Z.

End Py.

(** ** The node graph engine (evaluate_rules/main.py) *)

Module Engine.
Import Py.

Inductive NodeType : Type := GET_DATA | COMPARE | AND | OR | PUBLISH | END.

Definition NodeType_value (t : NodeType) : string :=
  match t with
  | GET_DATA => "get_data"
  | COMPARE => "compare"
  | AND => "and"
  | OR => "or"
  | PUBLISH => "publish"
  | END => "end"
  end.

(** NodeType(s): the member whose value is s, or ValueError. *)
Definition NodeType_of (s : string) : res NodeType :=
  if String.eqb s "get_data" then Ok GET_DATA
  else if String.eqb s "compare" then Ok COMPARE
  else if String.eqb s "and" then Ok AND
  else if String.eqb s "or" then Ok OR
  else if String.eqb s "publish" then Ok PUBLISH
  else if String.eqb s "end" then Ok END
  else Raise (ValueError "is not a valid NodeType").

Inductive Operation : Type :=
| GREATER_THAN | GREATER_EQUAL | LESS_THAN | LESS_EQUAL
| EQUALS | NOT_EQUALS | CONTAINS | NOT_CONTAINS.

Definition Operation_value (o : Operation) : string :=
  match o with
  | GREATER_THAN => ">"
  | GREATER_EQUAL => ">="
  | LESS_THAN => "<"
  | LESS_EQUAL => "<="
  | EQUALS => "=="
  | NOT_EQUALS => "!="
  | CONTAINS => "contains"
  | NOT_CONTAINS => "not_contains"
  end.

(** Operation(v) *)
Definition Operation_of (v : value) : res Operation :=
  match v with
  | VStr s =>
      if String.eqb s ">" then Ok GREATER_THAN
      else if String.eqb s ">=" then Ok GREATER_EQUAL
      else if String.eqb s "<" then Ok LESS_THAN
      else if String.eqb s "<=" then Ok LESS_EQUAL
      else if String.eqb s "==" then Ok EQUALS
      else if String.eqb s "!=" then Ok NOT_EQUALS
      else if String.eqb s "contains" then Ok CONTAINS
      else if String.eqb s "not_contains" then Ok NOT_CONTAINS
      else Raise (ValueError "is not a valid Operation")
  | _ => Raise (ValueError "is not a valid Operation")
  end.

(** A node as the rule document stores it: [None] is an absent key. *)
Record node_doc : Type := {
  nd_id : string;
  nd_type : string;
  nd_properties : option (gmap string value);
  nd_next : option (list string);
  nd_next_true : option (list string);
  nd_next_false : option (list string)
}.

(** The dataclass Node; its fields id and type are [node_id] and
    [node_type] here. *)
Record Node : Type := {
  node_id : string;
  node_type : NodeType;
  properties : gmap string value;
  next : list string;
  next_true : list string;
  next_false : list string
}.

(** Node.from_dict *)
Definition from_dict (data : node_doc) : res Node :=
  t ← NodeType_of (nd_type data);
  Ok {| node_id := nd_id data;
        node_type := t;
        properties := default ∅ (nd_properties data);
        next := default [] (nd_next data);
        next_true := default [] (nd_next_true data);
        next_false := default [] (nd_next_false data) |}.

(** What a node result's details dictionary holds. *)
Inductive message : Type :=
| NoTopicSpecified
| InvalidOperation (o : Operation)
| UnknownNodeType (t : NodeType)
| Exception (e : exn).

Inductive Details : Type :=
| DError (error : message)
| DGetData (topic val : value)
| DCompare (input1 input2 : value) (operation : string) (result : value)
| DLogical (inputs : list value) (operation : string) (result : value)
| DPublish (action action_data : value)
| DEmpty.

(** The dataclass NodeResult; its field value is [result_value] here. *)
Record NodeResult : Type := {
  success : bool;
  result_value : value;
  details : Details
}.

(** A rule document of the rules collection; [None] is an absent key,
    and for [last_run] also a value datetime.fromisoformat rejects; a
    [last_run] that parses is a naive or an aware datetime. An interval is
    a whole number of seconds. *)
Record rule_doc : Type := {
  rule_id_field : option string;
  name : option string;
  description : option string;
  enabled : option bool;
  interval : option Z;
  last_run : option datetime;
  start_node : option string;
  nodes : option (list node_doc)
}.

(** The collaborators as they answer during one request: the newest
    stored value per message collection, the dispatcher's verdict on an
    action request, the wall clock, and whether the rules collection
    takes the update of a document's last_run that is made after so many
    clock readings (when it does not, update raises). *)
Record World : Type := {
  telemetry : string -> option value;
  accepts : value -> value -> bool;
  clock : nat -> Z;
  stores : nat -> string -> bool
}.

(** What a request can change: the engine's context, the number of clock
    readings so far, the rules collection and the action queue. *)
Record state : Type := {
  execution_context : gmap string value;
  tick : nat;
  rules : list (string * rule_doc);
  outbox : list (value * value)
}.

Definition set_context (c : gmap string value) (st : state) : state :=
  {| execution_context := c; tick := tick st; rules := rules st; outbox := outbox st |}.

Definition set_outbox (o : list (value * value)) (st : state) : state :=
  {| execution_context := execution_context st; tick := tick st; rules := rules st; outbox := o |}.

Definition set_rules (r : list (string * rule_doc)) (st : state) : state :=
  {| execution_context := execution_context st; tick := tick st; rules := r; outbox := outbox st |}.

(** datetime.now() *)
Definition now (w : World) (st : state) : Z * state :=
  (clock w (tick st),
   {| execution_context := execution_context st; tick := S (tick st);
      rules := rules st; outbox := outbox st |}).

Fixpoint _safe_topic_id (topic : string) : string :=
  match topic with
  | EmptyString => EmptyString
  | String c rest =>
      (if Ascii.eqb c "/" then "_"
       else if Ascii.eqb c "." then "_"
       else if Ascii.eqb c "#" then "hash"
       else if Ascii.eqb c "+" then "plus"
       else String c EmptyString) +:+ _safe_topic_id rest
  end.

(** get_latest_value: a topic that is no text has no replace method, the
    exception is caught and the answer is None. *)
Definition get_latest_value (w : World) (topic : value) : value :=
  match topic with
  | VStr s => default VNone (telemetry w ("mqtt_values/" +:+ _safe_topic_id s +:+ "/messages"))
  | _ => VNone
  end.

Definition is_None (v : value) : bool :=
  match v with VNone => true | _ => false end.

Definition execute_get_data_node (w : World) (node : Node) : NodeResult :=
  let topic := default VNone (properties node !! "topic") in
  if negb (truthy topic)
  then {| success := false; result_value := VNone; details := DError NoTopicSpecified |}
  else
    let v := get_latest_value w topic in
    {| success := negb (is_None v); result_value := v; details := DGetData topic v |}.

(** d[k] *)
Definition item (d : gmap string value) (k : string) : res value :=
  match d !! k with
  | Some v => Ok v
  | None => Raise (KeyError k)
  end.

(** context.get(ref) if ref in context else ref *)
Definition resolve (context : gmap string value) (ref : value) : res value :=
  match ref with
  | VStr s => Ok (match context !! s with Some v => v | None => ref end)
  | _ => if hashable ref then Ok ref else Raise (TypeError "unhashable type")
  end.

Definition ops (o : Operation) : option (value -> value -> res value) :=
  match o with
  | GREATER_THAN => Some py_gt
  | GREATER_EQUAL => Some py_ge
  | LESS_THAN => Some py_lt
  | LESS_EQUAL => Some py_le
  | EQUALS => Some (fun x y => Ok (VBool (py_eq x y)))
  | NOT_EQUALS => Some (fun x y => Ok (VBool (negb (py_eq x y))))
  | CONTAINS => Some (fun x y => b ← py_in y x; Ok (VBool b))
  | NOT_CONTAINS => Some (fun x y => b ← py_in y x; Ok (VBool (negb b)))
  end.

Definition failed (e : message) : NodeResult :=
  {| success := false; result_value := VNone; details := DError e |}.

Definition execute_compare_node (context : gmap string value) (node : Node) : NodeResult :=
  let body : res NodeResult :=
    input1_ref ← item (properties node) "input1";
    input1 ← resolve context input1_ref;
    input2_ref ← item (properties node) "input2";
    input2 ← resolve context input2_ref;
    operator ← item (properties node) "operator";
    operation ← Operation_of operator;
    match ops operation with
    | None => Ok (failed (InvalidOperation operation))
    | Some f =>
        result ← f input1 input2;
        Ok {| success := true; result_value := result;
              details := DCompare input1 input2 (Operation_value operation) result |}
    end in
  match body with
  | Ok r => r
  | Raise e => failed (Exception e)
  end.

(** context.get(key) *)
Definition context_get (context : gmap string value) (key : value) : res value :=
  match key with
  | VStr s => Ok (default VNone (context !! s))
  | _ => if hashable key then Ok VNone else Raise (TypeError "unhashable type")
  end.

Definition execute_logical_node (context : gmap string value) (node : Node) : NodeResult :=
  let body : res NodeResult :=
    inputs ← item (properties node) "inputs";
    ids ← py_iter inputs;
    input_values ← mapM (context_get context) ids;
    let result :=
      match node_type node with
      | AND => forallb truthy input_values
      | _ => existsb truthy input_values
      end in
    Ok {| success := true; result_value := VBool result;
          details := DLogical input_values (NodeType_value (node_type node)) (VBool result) |} in
  match body with
  | Ok r => r
  | Raise e => failed (Exception e)
  end.

Definition execute_publish_node (w : World) (node : Node) (st : state) : NodeResult * state :=
  let action := default VNone (properties node !! "action") in
  let action_data := default (VDict []) (properties node !! "action_data") in
  if accepts w action action_data
  then ({| success := true; result_value := VStr "published";
           details := DPublish action action_data |},
        set_outbox (outbox st ++ [(action, action_data)]) st)
  else (failed (Exception TransportError), st).

Definition node_executors (w : World) (t : NodeType) : option (Node -> state -> NodeResult * state) :=
  match t with
  | GET_DATA => Some (fun node st => (execute_get_data_node w node, st))
  | COMPARE => Some (fun node st => (execute_compare_node (execution_context st) node, st))
  | AND => Some (fun node st => (execute_logical_node (execution_context st) node, st))
  | OR => Some (fun node st => (execute_logical_node (execution_context st) node, st))
  | PUBLISH => Some (execute_publish_node w)
  | END => Some (fun _ st => ({| success := true; result_value := VNone; details := DEmpty |}, st))
  end.

Definition execute_node (w : World) (node : Node) (st : state) : NodeResult * state :=
  match node_executors w (node_type node) with
  | None => (failed (UnknownNodeType (node_type node)), st)
  | Some executor =>
      let '(result, st1) := executor node st in
      (result, set_context (<[node_id node := result_value result]> (execution_context st1)) st1)
  end.

(** One entry of the trace that execute_rule builds. *)
Record NodeOutcome : Type := {
  out_node_id : string;
  out_type : string;
  out_result : value;
  out_details : Details
}.

(** The dictionary execute_rule returns: [node_results] on the normal
    path, [error] on the exception path. *)
Record rule_result : Type := {
  rule_id : option string;
  rule_name : option string;
  triggered : bool;
  error : option exn;
  evaluation_time : Z;
  node_results : option (list NodeOutcome)
}.

Definition outcome_of (node : Node) (result : NodeResult) : NodeOutcome :=
  {| out_node_id := node_id node;
     out_type := NodeType_value (node_type node);
     out_result := result_value result;
     out_details := details result |}.

(** One pass through the while loop of execute_rule at [current], the
    loop test included: the run stops (with the trace, or with the
    KeyError of nodes[next_nodes[0]]) or goes on at the next node. *)
Inductive step_result : Type :=
| Stop (r : res (list NodeOutcome)) (st : state)
| Next (node : Node) (results : list NodeOutcome) (st : state).

Definition step (w : World) (nodes : gmap string Node) (current : Node)
    (results : list NodeOutcome) (st : state) : step_result :=
  match node_type current with
  | END => Stop (Ok results) st
  | _ =>
      let '(result, st1) := execute_node w current st in
      let results1 := results ++ [outcome_of current result] in
      if negb (success result) then Stop (Ok results1) st1
      else
        let next_nodes :=
          match node_type current with
          | COMPARE =>
              if truthy (result_value result) then next_true current else next_false current
          | _ => next current
          end in
        match next_nodes with
        | [] => Stop (Ok results1) st1
        | first :: _ =>
            match nodes !! first with
            | None => Stop (Raise (KeyError first)) st1
            | Some node => Next node results1 st1
            end
        end
  end.

(** The while loop, with fuel: [None] when the fuel runs out. *)
Fixpoint walk (fuel : nat) (w : World) (nodes : gmap string Node) (current : Node)
    (results : list NodeOutcome) (st : state) : option (res (list NodeOutcome) * state) :=
  match fuel with
  | O => None
  | S fuel' =>
      match step w nodes current results st with
      | Stop r st1 => Some (r, st1)
      | Next node results1 st1 => walk fuel' w nodes node results1 st1
      end
  end.

(** Where the loop stands after [k] passes, when none of them stopped. *)
Fixpoint advance (k : nat) (w : World) (nodes : gmap string Node) (current : Node)
    (results : list NodeOutcome) (st : state) : option (Node * list NodeOutcome * state) :=
  match k with
  | O => Some (current, results, st)
  | S k' =>
      match step w nodes current results st with
      | Stop _ _ => None
      | Next node results1 st1 => advance k' w nodes node results1 st1
      end
  end.

(** {node['id']: Node.from_dict(node) for node in rule['nodes']} *)
Fixpoint nodes_of (docs : list node_doc) (acc : gmap string Node) : res (gmap string Node) :=
  match docs with
  | [] => Ok acc
  | data :: rest => node ← from_dict data; nodes_of rest (<[nd_id data := node]> acc)
  end.

Definition field {A : Type} (key : string) (o : option A) : res A :=
  match o with
  | Some a => Ok a
  | None => Raise (KeyError key)
  end.

(** r['result'] == "published" for an r with r['type'] == 'publish' *)
Definition reports_published (r : NodeOutcome) : bool :=
  String.eqb (out_type r) "publish" && py_eq (out_result r) (VStr "published").

Definition returned (rule : rule_doc) (results : list NodeOutcome) (t : Z) : rule_result :=
  {| rule_id := rule_id_field rule;
     rule_name := name rule;
     triggered := existsb reports_published results;
     error := None;
     evaluation_time := t;
     node_results := Some results |}.

Definition errored (rule : rule_doc) (e : exn) (t : Z) : rule_result :=
  {| rule_id := rule_id_field rule;
     rule_name := name rule;
     triggered := false;
     error := Some e;
     evaluation_time := t;
     node_results := None |}.

(** The two lookups before the loop: the node table and the start node. *)
Definition load (rule : rule_doc) : res (gmap string Node * Node) :=
  docs ← field "nodes" (nodes rule);
  nodes ← nodes_of docs ∅;
  start ← field "start_node" (start_node rule);
  current ← field start (nodes !! start);
  Ok (nodes, current).

(** The return statement of either path; it reads the clock. *)
Definition finish (w : World) (rule : rule_doc) (r : res (list NodeOutcome)) (st : state)
    : rule_result * state :=
  let '(t, st1) := now w st in
  (match r with
   | Ok results => returned rule results t
   | Raise e => errored rule e t
   end, st1).

Definition execute_rule (fuel : nat) (w : World) (rule : rule_doc) (st : state)
    : option (rule_result * state) :=
  let st0 := set_context ∅ st in
  match load rule with
  | Raise e => Some (finish w rule (Raise e) st0)
  | Ok (nodes, current) =>
      match walk fuel w nodes current [] st0 with
      | None => None
      | Some (r, st1) => Some (finish w rule r st1)
      end
  end.

Definition set_id (doc_id : string) (rule_data : rule_doc) : rule_doc :=
  {| rule_id_field := Some doc_id; name := name rule_data;
     description := description rule_data; enabled := enabled rule_data;
     interval := interval rule_data; last_run := last_run rule_data;
     start_node := start_node rule_data; nodes := nodes rule_data |}.

Definition set_last_run (t : Z) (rule_data : rule_doc) : rule_doc :=
  {| rule_id_field := rule_id_field rule_data; name := name rule_data;
     description := description rule_data; enabled := enabled rule_data;
     interval := interval rule_data; last_run := Some (Naive t);
     start_node := start_node rule_data; nodes := nodes rule_data |}.

(** The collection after the document [doc_id] has taken the field
    last_run = [t]. *)
Definition write_last_run (doc_id : string) (t : Z) (docs : list (string * rule_doc))
    : list (string * rule_doc) :=
  (fun kv => if String.eqb (fst kv) doc_id then (fst kv, set_last_run t (snd kv)) else kv)
    <$> docs.

(** rule_doc.reference.update({'last_run': ...}) on the document
    [doc_id]: it raises when the store does not take the write. *)
Definition update_last_run (w : World) (doc_id : string) (t : Z) (st : state) : res state :=
  if stores w (tick st) doc_id
  then Ok (set_rules (write_last_run doc_id t (rules st)) st)
  else Raise TransportError.

(** (datetime.now() - last_run).total_seconds() >= interval, for a
    timedelta of [passed] microseconds and an [interval] in seconds: a
    float against an int. *)
Definition interval_passed (passed interval : Z) : bool :=
  float_ge_int (total_seconds passed) interval.

(** The body of the for loop of get_rules on one document, with the
    rules selected so far. Whatever raises inside it is logged and the
    loop goes on: a last_run that does not parse, the subtraction of an
    aware last_run (in the test, or in the log line of the else branch,
    after the clock was read), and the update of last_run, which comes
    after the rule was appended. *)
Definition get_rules_body (w : World) (acc : list rule_doc * state)
    (doc : string * rule_doc) : list rule_doc * state :=
  let '(selected, st) := acc in
  let '(doc_id, rule_data) := doc in
  match last_run rule_data with
  | None => (selected, st)
  | Some last =>
      let interval := default 3600%Z (interval rule_data) in
      if default true (enabled rule_data) then
        let '(t, st1) := now w st in
        match elapsed t last with
        | Raise _ => (selected, st1)
        | Ok passed =>
            if interval_passed passed interval then
              let selected1 := selected ++ [set_id doc_id rule_data] in
              let '(stamp, st2) := now w st1 in
              match update_last_run w doc_id stamp st2 with
              | Ok st3 => (selected1, st3)
              | Raise _ => (selected1, st2)
              end
            else
              let '(_, st2) := now w st1 in
              (selected, st2)
        end
      else
        let '(_, st1) := now w st in
        (selected, st1)
  end.

(** get_rules: the loop runs over the documents as they were read at its
    start, the updates go to the collection. *)
Definition get_rules (w : World) (st : state) : list rule_doc * state :=
  foldl (get_rules_body w) ([], st) (rules st).

(** The loop of evaluate_all_rules. *)
Fixpoint execute_rules (fuel : nat) (w : World) (rules : list rule_doc)
    (results : list rule_result) (st : state) : option (list rule_result * state) :=
  match rules with
  | [] => Some (results, st)
  | rule :: rest =>
      match execute_rule fuel w rule st with
      | None => None
      | Some (result, st1) => execute_rules fuel w rest (results ++ [result]) st1
      end
  end.

Definition evaluate_all_rules (fuel : nat) (w : World) (st : state)
    : option (list rule_result * state) :=
  let '(rules, st1) := get_rules w st in
  execute_rules fuel w rules [] st1.

(** The answer of the entry point. No exception escapes
    evaluate_all_rules (get_rules and execute_rule catch every one), so
    the except branch of evaluate_rules has no run in the model. *)
Record response : Type := {
  status : string;
  timestamp : Z;
  rule_results : list rule_result
}.

Definition evaluate_rules (fuel : nat) (w : World) (st : state) : option (response * state) :=
  match evaluate_all_rules fuel w (set_context ∅ st) with
  | None => None
  | Some (results, st1) =>
      let '(t, st2) := now w st1 in
      Some ({| status := "success"; timestamp := t; rule_results := results |}, st2)
  end.

End Engine.

(** ** The condition evaluator of the tree engine (evaluate_rules/main copy.py) *)

Module Tree.
Import Py.

Inductive Operation : Type :=
| AND | OR
| GREATER_THAN | GREATER_EQUAL | LESS_THAN | LESS_EQUAL
| EQUALS | NOT_EQUALS | CONTAINS | NOT_CONTAINS.

Definition Operation_value (o : Operation) : string :=
  match o with
  | AND => "AND"
  | OR => "OR"
  | GREATER_THAN => ">"
  | GREATER_EQUAL => ">="
  | LESS_THAN => "<"
  | LESS_EQUAL => "<="
  | EQUALS => "=="
  | NOT_EQUALS => "!="
  | CONTAINS => "contains"
  | NOT_CONTAINS => "not_contains"
  end.

(** The dataclass Condition; its field value is [target] here. *)
Record Condition : Type := {
  topic : string;
  operation : Operation;
  target : value
}.

(** self.ops: AND and OR have no handler. *)
Definition ops (o : Operation) : option (value -> value -> res value) :=
  match o with
  | AND | OR => None
  | GREATER_THAN => Some py_gt
  | GREATER_EQUAL => Some py_ge
  | LESS_THAN => Some py_lt
  | LESS_EQUAL => Some py_le
  | EQUALS => Some (fun x y => Ok (VBool (py_eq x y)))
  | NOT_EQUALS => Some (fun x y => Ok (VBool (negb (py_eq x y))))
  | CONTAINS => Some (fun x y => b ← py_in y x; Ok (VBool b))
  | NOT_CONTAINS => Some (fun x y => b ← py_in y x; Ok (VBool (negb b)))
  end.

(** get_latest_value of this engine: a stored value that is falsy counts
    as no value. The collection name is built as in main.py. *)
Definition get_latest_value (w : Engine.World) (topic : string) : value :=
  match Engine.telemetry w ("mqtt_values/" +:+ Engine._safe_topic_id topic +:+ "/messages") with
  | None => VNone
  | Some last_message => if truthy last_message then last_message else VNone
  end.

Definition is_str (v : value) : bool :=
  match v with VStr _ => true | _ => false end.

(** type(target)(s) for a text s *)
Definition construct (target : value) (s : string) : res value :=
  match target with
  | VNone => Raise (TypeError "NoneType takes no arguments")
  | VBool _ => Ok (VBool (negb (String.eqb s "")))
  | VInt _ => n ← py_int_of_str s; Ok (VInt n)
  | VStr _ => Ok (VStr s)
  | VList _ => py_iter (VStr s) ≫= fun l => Ok (VList l)
  | VDict _ =>
      if String.eqb s "" then Ok (VDict [])
      else Raise (ValueError "dictionary update sequence element has length 1; 2 is required")
  end.

(** The try block that brings the two operands to one type. *)
Definition convert (latest_value target : value) : res value :=
  match latest_value with
  | VStr s => if negb (is_str target) then construct target s else Ok latest_value
  | _ => if is_str target then Ok (VStr (py_str latest_value)) else Ok latest_value
  end.

Inductive cond_details : Type :=
| NoValue (topic operation : string) (target_value : value)
| UnknownOperation (topic operation : string)
| ConversionFailed (topic operation : string) (target_value current_value : value)
| Compared (topic operation : string) (target_value current_value : value)
| Failed (topic operation : string) (e : exn).

Record evaluation : Type := {
  result : value;
  details : cond_details
}.

Definition evaluate_condition (w : Engine.World) (condition : Condition) : evaluation :=
  let name := Operation_value (operation condition) in
  let latest_value := get_latest_value w (topic condition) in
  if Engine.is_None latest_value
  then {| result := VBool false; details := NoValue (topic condition) name (target condition) |}
  else
    match ops (operation condition) with
    | None => {| result := VBool false; details := UnknownOperation (topic condition) name |}
    | Some op_func =>
        match convert latest_value (target condition) with
        | Raise _ =>
            {| result := VBool false;
               details := ConversionFailed (topic condition) name (target condition) latest_value |}
        | Ok converted =>
            match op_func converted (target condition) with
            | Ok r =>
                {| result := r;
                   details := Compared (topic condition) name (target condition) converted |}
            | Raise e => {| result := VBool false; details := Failed (topic condition) name e |}
            end
        end
    end.

(** Operation(s) *)
Definition Operation_of (s : string) : res Operation :=
  if String.eqb s "AND" then Ok AND
  else if String.eqb s "OR" then Ok OR
  else if String.eqb s ">" then Ok GREATER_THAN
  else if String.eqb s ">=" then Ok GREATER_EQUAL
  else if String.eqb s "<" then Ok LESS_THAN
  else if String.eqb s "<=" then Ok LESS_EQUAL
  else if String.eqb s "==" then Ok EQUALS
  else if String.eqb s "!=" then Ok NOT_EQUALS
  else if String.eqb s "contains" then Ok CONTAINS
  else if String.eqb s "not_contains" then Ok NOT_CONTAINS
  else Raise (ValueError "is not a valid Operation").

(** An operand as a rule document stores it: one dictionary shape for
    nested expressions (those with an operator key) and conditions. *)
Inductive operand_doc : Type :=
| OperandDoc (operator : option string) (operands : option (list operand_doc))
    (topic : option string) (operation : option string) (value : option value).

(** LogicalExpression, with its operands: nested expressions and
    conditions. *)
Inductive operand : Type :=
| Cond (c : Condition)
| Expr (operator : Operation) (operands : list operand).

Definition key {A : Type} (name : string) (o : option A) : res A :=
  match o with
  | Some a => Ok a
  | None => Raise (KeyError name)
  end.

(** Condition.from_dict *)
Definition Condition_from_dict (data : operand_doc) : res Condition :=
  match data with
  | OperandDoc _ _ topic operation value =>
      t ← key "topic" topic;
      name ← key "operation" operation;
      o ← Operation_of name;
      v ← key "value" value;
      Ok {| topic := t; operation := o; target := v |}
  end.

(** LogicalExpression.from_dict *)
Fixpoint LogicalExpression_from_dict (data : operand_doc) : res operand :=
  match data with
  | OperandDoc operator operands _ _ _ =>
      name ← key "operator" operator;
      o ← Operation_of name;
      match operands with
      | None => Raise (KeyError "operands")
      | Some l =>
          parsed ←
            (fix each (l : list operand_doc) : res (list operand) :=
               match l with
               | [] => Ok []
               | (OperandDoc inner _ _ _ _ as d) :: rest =>
                   x ← match inner with
                       | Some _ => LogicalExpression_from_dict d
                       | None => c ← Condition_from_dict d; Ok (Cond c)
                       end;
                   xs ← each rest;
                   Ok (x :: xs)
               end) l;
          Ok (Expr o parsed)
      end
  end.

Record tree_rule_doc : Type := {
  doc_name : option string;
  doc_logic : option operand_doc;
  doc_description : option string;
  doc_enabled : option bool
}.

Record Rule : Type := {
  id : string;
  name : string;
  logic : operand;
  description : string;
  enabled : bool
}.

(** Rule.from_dict *)
Definition Rule_from_dict (rule_id : string) (data : tree_rule_doc) : res Rule :=
  n ← key "name" (doc_name data);
  l ← key "logic" (doc_logic data);
  e ← LogicalExpression_from_dict l;
  Ok {| id := rule_id; name := n; logic := e;
        description := default "" (doc_description data);
        enabled := default true (doc_enabled data) |}.

(** get_rules of this engine: no interval, no last_run. A document that
    does not parse is logged and skipped. *)
Definition get_rules_body (rules : list Rule) (doc : string * tree_rule_doc) : list Rule :=
  if default true (doc_enabled doc.2) then
    match Rule_from_dict doc.1 doc.2 with
    | Ok rule => rules ++ [rule]
    | Raise _ => rules
    end
  else rules.

Definition get_rules (docs : list (string * tree_rule_doc)) : list Rule :=
  foldl get_rules_body [] docs.

End Tree.

(** ** The walk read off the execution context

    Proof devices, not part of the engine: the loop of execute_rule touches
    the state only through the context and the action queue, so each
    engine function equals a function of the context alone, put back into
    the state by [with_effect]. The equations are proved in [WalkFacts]. *)

Module Reading.
Import Py Engine.

Definition with_effect (context : gmap string value) (sent : list (value * value))
    (st : state) : state :=
  {| execution_context := context; tick := tick st; rules := rules st;
     outbox := outbox st ++ sent |}.

(** execute_node: the result, the context after it, the requests sent. *)
Definition node_effect (w : World) (node : Node) (context : gmap string value)
    : NodeResult * gmap string value * list (value * value) :=
  let '(result, sent) :=
    match node_type node with
    | GET_DATA => (execute_get_data_node w node, [])
    | COMPARE => (execute_compare_node context node, [])
    | AND | OR => (execute_logical_node context node, [])
    | PUBLISH =>
        let action := default VNone (properties node !! "action") in
        let action_data := default (VDict []) (properties node !! "action_data") in
        if accepts w action action_data
        then ({| success := true; result_value := VStr "published";
                 details := DPublish action action_data |}, [(action, action_data)])
        else (failed (Exception TransportError), [])
    | END => ({| success := true; result_value := VNone; details := DEmpty |}, [])
    end in
  (result, <[node_id node := result_value result]> context, sent).

Inductive onward : Type :=
| Done
| Fault (e : exn)
| Goto (node : Node).

(** step: the entries added to the trace, the context, the requests sent
    and how the loop goes on. *)
Definition pass (w : World) (nodes : gmap string Node) (current : Node)
    (context : gmap string value)
    : list NodeOutcome * gmap string value * list (value * value) * onward :=
  match node_type current with
  | END => ([], context, [], Done)
  | _ =>
      let '(result, context1, sent) := node_effect w current context in
      let emitted := [outcome_of current result] in
      if negb (success result) then (emitted, context1, sent, Done)
      else
        let next_nodes :=
          match node_type current with
          | COMPARE =>
              if truthy (result_value result) then next_true current else next_false current
          | _ => next current
          end in
        match next_nodes with
        | [] => (emitted, context1, sent, Done)
        | first :: _ =>
            match nodes !! first with
            | None => (emitted, context1, sent, Fault (KeyError first))
            | Some node => (emitted, context1, sent, Goto node)
            end
        end
  end.


Definition prepend (pre : list NodeOutcome) (r : res (list NodeOutcome))
    : res (list NodeOutcome) :=
  match r with
  | Ok t => Ok (pre ++ t)
  | Raise e => Raise e
  end.

(** walk, from an empty trace. *)
Fixpoint trail (fuel : nat) (w : World) (nodes : gmap string Node) (current : Node)
    (context : gmap string value)
    : option (res (list NodeOutcome) * gmap string value * list (value * value)) :=
  match fuel with
  | O => None
  | S fuel' =>
      let '(emitted, context1, sent, k) := pass w nodes current context in
      match k with
      | Done => Some (Ok emitted, context1, sent)
      | Fault e => Some (Raise e, context1, sent)
      | Goto node =>
          match trail fuel' w nodes node context1 with
          | None => None
          | Some (r, context2, sent2) => Some (prepend emitted r, context2, sent ++ sent2)
          end
      end
  end.

(** execute_rule up to its return statement. *)
Definition run (fuel : nat) (w : World) (rule : rule_doc)
    : option (res (list NodeOutcome) * gmap string value * list (value * value)) :=
  match load rule with
  | Raise e => Some (Raise e, ∅, [])
  | Ok (nodes, current) => trail fuel w nodes current ∅
  end.

(** A node with every successor list cut down to its first id. *)
Definition prune (node : Node) : Node :=
  {| node_id := node_id node; node_type := node_type node; properties := properties node;
     next := take 1 (next node); next_true := take 1 (next_true node);
     next_false := take 1 (next_false node) |}.

(** The successor list the loop reads after a successful [result]. *)
Definition chosen (current : Node) (result : NodeResult) : list string :=
  match node_type current with
  | COMPARE => if truthy (result_value result) then next_true current else next_false current
  | _ => next current
  end.


(** Two rule documents that differ at most in last_run. *)
Definition same_but_last_run (a b : rule_doc) : Prop :=
  rule_id_field a = rule_id_field b ∧ name a = name b ∧ description a = description b ∧
  enabled a = enabled b ∧ interval a = interval b ∧ start_node a = start_node b ∧
  nodes a = nodes b.

(** A stored document before and after: same id, same fields but
    last_run. *)
Definition doc_frame (old new : string * rule_doc) : Prop :=
  new.1 = old.1 ∧ same_but_last_run old.2 new.2.


(** The dictionary execute_rule returns for an outcome [r] at time [t]. *)
Definition verdict (rule : rule_doc) (r : res (list NodeOutcome)) (t : Z) : rule_result :=
  match r with
  | Ok results => returned rule results t
  | Raise e => errored rule e t
  end.

(** [res] is what execute_rule returns for [rule], at some time. *)
Definition result_of_run (fuel : nat) (w : World) (rule : rule_doc) (res : rule_result) : Prop :=
  ∃ r context sent t, run fuel w rule = Some (r, context, sent) ∧ res = verdict rule r t.




(** The specification's dueRules, in its words: the rules with
    enabled == true and (now - last_run) >= interval. For comparison with
    get_rules on documents that have the three fields, last_run as a
    naive timestamp. *)
Definition due (now : Z) (rule : rule_doc) : bool :=
  match enabled rule, interval rule, last_run rule with
  | Some e, Some i, Some (Naive last) => e && (i * 1000000 <=? now - last)%Z
  | _, _, _ => false
  end.

Definition dueRules (allRules : list (string * rule_doc)) (now : Z) : list (string * rule_doc) :=
  filter (λ doc, due now doc.2 = true) allRules.

End Reading.

(** ** Concrete rules and worlds *)

Module Samples.
Import Py Engine.

Definition props (l : list (string * value)) : option (gmap string value) :=
  Some (list_to_map l).

Definition mk_node (i t : string) (p : list (string * value)) (n : list string) : node_doc :=
  {| nd_id := i; nd_type := t; nd_properties := props p;
     nd_next := Some n; nd_next_true := None; nd_next_false := None |}.

Definition mk_compare (i : string) (a b : value) (op : string) (yes no : list string) : node_doc :=
  {| nd_id := i; nd_type := "compare";
     nd_properties := props [("input1", a); ("input2", b); ("operator", VStr op)];
     nd_next := None; nd_next_true := Some yes; nd_next_false := Some no |}.

Definition end_node : node_doc :=
  {| nd_id := "end"; nd_type := "end"; nd_properties := None;
     nd_next := None; nd_next_true := None; nd_next_false := None |}.

Definition mk_rule (start : string) (l : list node_doc) : rule_doc :=
  {| rule_id_field := Some "r"; name := Some "rule"; description := None;
     enabled := Some true; interval := Some 60%Z; last_run := Some (Naive 0);
     start_node := Some start; nodes := Some l |}.

(** Every dispatch is accepted; one topic has the value 35. *)
Definition world : World :=
  {| telemetry := fun c =>
       if String.eqb c "mqtt_values/sensors_t/messages" then Some (VInt 35) else None;
     accepts := fun _ _ => true;
     clock := fun n => (1000000000 + Z.of_nat n)%Z;
     stores := fun _ _ => true |}.

(** The same world with the value 20. *)
Definition cool_world : World :=
  {| telemetry := fun c =>
       if String.eqb c "mqtt_values/sensors_t/messages" then Some (VInt 20) else None;
     accepts := fun _ _ => true;
     clock := fun n => (1000000000 + Z.of_nat n)%Z;
     stores := fun _ _ => true |}.

Definition start_state : state :=
  {| execution_context := ∅; tick := 0; rules := []; outbox := [] |}.

Definition email : list (string * value) :=
  [("action", VStr "email"); ("action_data", VDict [("to", VStr "ops"); ("body", VStr "hot")])].

(** The rule of insert_rules.py in small: read, compare, publish or end. *)
Definition threshold_rule : rule_doc :=
  mk_rule "get"
    [ mk_node "get" "get_data" [("topic", VStr "sensors/t")] ["cmp"];
      mk_compare "cmp" (VStr "get") (VInt 30) ">" ["pub"] ["end"];
      mk_node "pub" "publish" email ["end"];
      end_node ].


(** A node that is its own successor. *)
Definition looping_rule : rule_doc :=
  mk_rule "get" [ mk_node "get" "get_data" [("topic", VStr "sensors/t")] ["get"] ].

(** The same walk after its first pass: the table, the node and the state
    execute_rule has built by then. *)
Definition looping_node : Node :=
  {| node_id := "get"; node_type := GET_DATA;
     properties := list_to_map [("topic", VStr "sensors/t")];
     next := ["get"]; next_true := []; next_false := [] |}.

Definition looping_nodes : gmap string Node := {[ "get" := looping_node ]}.

Definition looping_state : state :=
  {| execution_context := {[ "get" := VInt 35 ]}; tick := 0; rules := []; outbox := [] |}.

(** A publish node followed by a read of a topic that has no value. *)
Definition publish_then_fail_rule : rule_doc :=
  mk_rule "pub"
    [ mk_node "pub" "publish" email ["get"];
      mk_node "get" "get_data" [("topic", VStr "sensors/none")] ["end"];
      end_node ].

(** A publish node whose successor id names no node. *)
Definition dangling_rule : rule_doc :=
  mk_rule "pub" [ mk_node "pub" "publish" email ["ghost"]; end_node ].


Definition no_start_rule : rule_doc :=
  mk_rule "nowhere" [ mk_node "pub" "publish" email ["end"]; end_node ].

(** The tables and nodes of two of the rules above, as load builds them. *)
Definition table (rule : rule_doc) : gmap string Node :=
  match load rule with
  | Ok (nodes, _) => nodes
  | Raise _ => ∅
  end.

Definition node_at (rule : rule_doc) (i : string) : Node :=
  default looping_node (table rule !! i).

(** A COMPARE node over two operands, and an AND or OR node over ids. *)
Definition compare_node (a b : value) (op : string) : Node :=
  {| node_id := "cmp"; node_type := COMPARE;
     properties := list_to_map [("input1", a); ("input2", b); ("operator", VStr op)];
     next := []; next_true := []; next_false := [] |}.

Definition logical_node (t : NodeType) (ids : list string) : Node :=
  {| node_id := "gate"; node_type := t;
     properties := list_to_map [("inputs", VList (VStr <$> ids))];
     next := []; next_true := []; next_false := [] |}.

(** A context in which node a produced True and node b produced False. *)
Definition true_false : gmap string value :=
  <["a" := VBool true]> (<["b" := VBool false]> ∅).

(** A world whose topic t holds [v], and a condition of the tree engine
    on that topic. *)
Definition world_with (v : value) : World :=
  {| telemetry := fun c => if String.eqb c "mqtt_values/t/messages" then Some v else None;
     accepts := fun _ _ => true;
     clock := fun n => Z.of_nat n;
     stores := fun _ _ => true |}.

Definition condition (o : Tree.Operation) (target : value) : Tree.Condition :=
  {| Tree.topic := "t"; Tree.operation := o; Tree.target := target |}.

(** A rule document of the tree engine that leaves out enabled. *)
Definition bare_tree_rule : Tree.tree_rule_doc :=
  {| Tree.doc_name := Some "bare";
     Tree.doc_logic :=
       Some (Tree.OperandDoc (Some "AND")
               (Some [Tree.OperandDoc None None (Some "t") (Some ">") (Some (VInt 30))])
               None None None);
     Tree.doc_description := None;
     Tree.doc_enabled := None |}.

(** A rule document that leaves out enabled and interval. *)
Definition bare_rule : rule_doc :=
  {| rule_id_field := None; name := Some "bare"; description := None;
     enabled := None; interval := None; last_run := Some (Naive 0);
     start_node := Some "end"; nodes := Some [end_node] |}.

(** A collection of three rules; the clock of [world] starts 1000 s after
    their last_run. *)
Definition store_state : state :=
  {| execution_context := ∅; tick := 0;
     rules := [("hot", threshold_rule); ("broken", dangling_rule); ("bare", bare_rule)];
     outbox := [] |}.

End Samples.

(** ** The ingestor (ingest.py)

    The message store is the list of the documents added to message
    collections, each with the path of its collection, in the order the
    server stamped them: the newest document of a collection is the last
    one with its path. *)

Module Ingest.
Import Py.

Fixpoint _safe_topic_id (topic : string) : string :=
  match topic with
  | EmptyString => EmptyString
  | String c rest =>
      String (if Ascii.eqb c "/" then "_"%char
              else if Ascii.eqb c "." then "_"%char
              else c) (_safe_topic_id rest)
  end.

(** An MQTT message; [payload] is json.loads(message.payload), [None]
    when the bytes are no JSON text. *)
Record message : Type := {
  topic : string;
  payload : option value;
  qos : Z;
  retain : bool
}.

(** doc_data, without the timestamp the server sets. *)
Record doc_data : Type := {
  d_topic : string;
  d_value : value;
  d_immediate : value;
  d_qos : Z;
  d_retain : bool;
  d_last_updated : Z
}.

(** The message documents, the topic documents with their last_updated,
    the requests sent to the evaluation endpoint, and the number of clock
    readings. *)
Record state : Type := {
  messages : list (string * doc_data);
  documents : gmap string Z;
  evaluations : list (string * value);
  tick : nat
}.

(** _evaluate_rules: the request is sent; its answer, or its failure, is
    only logged. *)
Definition _evaluate_rules (topic : string) (v : value) (st : state) : state :=
  {| messages := messages st; documents := documents st;
     evaluations := evaluations st ++ [(topic, v)]; tick := tick st |}.

Definition _on_message (collection_name : string) (clock : nat → Z) (msg : message)
    (st : state) : state :=
  match payload msg with
  | Some (VDict d) =>
      match assoc "value" d, assoc "immediate" d with
      | Some v, Some immediate =>
          let doc :=
            {| d_topic := topic msg; d_value := v; d_immediate := immediate;
               d_qos := qos msg; d_retain := retain msg;
               d_last_updated := clock (tick st) |} in
          let doc_ref := collection_name +:+ "/" +:+ _safe_topic_id (topic msg) in
          let st1 :=
            {| messages := messages st ++ [(doc_ref +:+ "/messages", doc)];
               documents := <[doc_ref := clock (S (tick st))]> (documents st);
               evaluations := evaluations st;
               tick := S (S (tick st)) |} in
          if truthy immediate then _evaluate_rules (topic msg) v st1 else st1
      | _, _ => st
      end
  | _ => st
  end.

(** What a query for the newest document of a collection finds, and the
    world the rule engine then reads. *)
Definition latest (collection : string) (msgs : list (string * doc_data)) : option value :=
  (λ m, d_value m.2) <$> last (filter (λ m, m.1 = collection) msgs).

Definition world_of (st : state) (accepts : value → value → bool) (clock : nat → Z)
    : Engine.World :=
  {| Engine.telemetry := λ collection, latest collection (messages st);
     Engine.accepts := accepts;
     Engine.clock := clock;
     Engine.stores := fun _ _ => true |}.

End Ingest.

(** ** The action handler (action_handler/main.py) *)

Module Handler.
Import Py.

(** What the handler catches: data has no get method (the body is no
    JSON object), an exception of process_rule, a failure of the mail
    transport. *)
Inductive error : Type :=
| NoGet
| Raised (e : exn)
| MailError.

(** What becomes of a mail handed to the transport: it is refused (an
    exception before the server has the mail: building the message,
    connecting, starttls, login or send_message raises), it is sent and
    the session closes, or it is sent and closing the session raises (the
    with-block of send_email ends in SMTP.__exit__, which raises when the
    server answers QUIT with another code than 221). *)
Inductive delivery : Type :=
| Refused
| Sent
| SentThenFailed.

(** The mails sent and the documents added to the todos collection. *)
Record effects : Type := {
  mails : list (value * value);
  todos : list value
}.

(** What a call leaves behind: the exception it raised, if any, and the
    effects by then. *)
Definition outcome : Type := option error * effects.

(** send_email; [smtp to_address body] is what the transport does with
    the mail. *)
Definition send_email (smtp : value → value → delivery) (to_address body : value)
    (eff : effects) : outcome :=
  match smtp to_address body with
  | Refused => (Some MailError, eff)
  | Sent => (None, {| mails := mails eff ++ [(to_address, body)]; todos := todos eff |})
  | SentThenFailed =>
      (Some MailError, {| mails := mails eff ++ [(to_address, body)]; todos := todos eff |})
  end.

Definition add_todo (body : value) (eff : effects) : effects :=
  {| mails := mails eff; todos := todos eff ++ [body] |}.

(** d[k] for a text k *)
Definition getitem (d : value) (k : string) : res value :=
  match d with
  | VDict l =>
      match assoc k l with
      | Some v => Ok v
      | None => Raise (KeyError k)
      end
  | VStr _ | VList _ => Raise (TypeError "indices must be integers")
  | _ => Raise (TypeError "object is not subscriptable")
  end.

Definition process_rule (smtp : value → value → delivery) (action action_data : value)
    (eff : effects) : outcome :=
  if py_eq action (VStr "email") then
    match py_in (VStr "to") action_data with
    | Raise e => (Some (Raised e), eff)
    | Ok has_to =>
        match (if has_to then py_in (VStr "body") action_data else Ok false) with
        | Raise e => (Some (Raised e), eff)
        | Ok false => (Some (Raised (ValueError "Email action missing required fields")), eff)
        | Ok true =>
            match getitem action_data "to" with
            | Raise e => (Some (Raised e), eff)
            | Ok to_address =>
                match getitem action_data "body" with
                | Raise e => (Some (Raised e), eff)
                | Ok body => send_email smtp to_address body eff
                end
            end
        end
    end
  else if py_eq action (VStr "add_todo") then
    match py_in (VStr "body") action_data with
    | Raise e => (Some (Raised e), eff)
    | Ok false => (Some (Raised (ValueError "Todo action missing required body field")), eff)
    | Ok true =>
        match getitem action_data "body" with
        | Raise e => (Some (Raised e), eff)
        | Ok body => (None, add_todo body eff)
        end
    end
  else (Some (Raised (ValueError "Unknown action type")), eff).

Inductive reply : Type :=
| InvalidFormat
| Processed (action action_data : value)
| Failed (e : error).

Definition status (r : reply) : Z :=
  match r with
  | InvalidFormat => 400
  | Processed _ _ => 200
  | Failed _ => 500
  end.

(** action_handler; [body] is request.get_json(), [None] when the
    request has no JSON body. *)
Definition action_handler (smtp : value → value → delivery) (body : option value)
    (eff : effects) : reply * effects :=
  match body with
  | Some (VDict data) =>
      let action := default VNone (assoc "action" data) in
      let action_data := default (VDict []) (assoc "action_data" data) in
      if negb (truthy action) || negb (truthy action_data) then (InvalidFormat, eff)
      else
        match process_rule smtp action action_data eff with
        | (None, eff1) => (Processed action action_data, eff1)
        | (Some e, eff1) => (Failed e, eff1)
        end
  | _ => (Failed NoGet, eff)
  end.

(** The dictionary execute_publish_node of main.py serializes as the
    message for the action queue. *)
Definition request_of (sent : value * value) : value :=
  VDict [("action", sent.1); ("action_data", sent.2)].

End Handler.

(** ** The tree engine's evaluation (evaluate_rules/main copy.py) *)

Module TreeRun.
Import Py Tree.

(** What evaluate_expression appends to its details: the details of a
    condition, or the dictionary a nested call returns (with its
    operands, or with the error of an operator that is neither AND nor
    OR). *)
Inductive report : Type :=
| ConditionReport (d : cond_details)
| ExpressionReport (result : value) (operator : string) (operands : option (list report))
    (error : option exn).

(** all(results), any(results) *)
Definition all (results : list value) : value := VBool (forallb truthy results).
Definition any (results : list value) : value := VBool (existsb truthy results).

(** evaluate_expression on an expression, and the loop step on a
    condition: the result and what goes into the details. *)
Fixpoint evaluate_expression (w : Engine.World) (expr : operand) : value * report :=
  match expr with
  | Cond c =>
      let evaluation := evaluate_condition w c in
      (result evaluation, ConditionReport (details evaluation))
  | Expr o operands =>
      let evaluated :=
        (fix each (l : list operand) : list (value * report) :=
           match l with
           | [] => []
           | x :: rest => evaluate_expression w x :: each rest
           end) operands in
      let results := fst <$> evaluated in
      let details := snd <$> evaluated in
      match o with
      | AND =>
          (all results, ExpressionReport (all results) (Operation_value o) (Some details) None)
      | OR =>
          (any results, ExpressionReport (any results) (Operation_value o) (Some details) None)
      | _ =>
          (VBool false,
           ExpressionReport (VBool false) (Operation_value o) None
             (Some (ValueError "Invalid logical operator")))
      end
  end.

(** The dictionary of evaluate_rule. *)
Record rule_result : Type := {
  rule_id : string;
  rule_name : string;
  triggered : value;
  evaluation_time : Z;
  logic_evaluation : report
}.

(** The messages published to the action queue (rule ids) and the number
    of clock readings. *)
Record state : Type := {
  published : list string;
  tick : nat
}.

Definition evaluate_rule (w : Engine.World) (rule : Rule) (st : state) : rule_result * state :=
  let evaluation := evaluate_expression w (logic rule) in
  ({| rule_id := id rule; rule_name := name rule; triggered := evaluation.1;
      evaluation_time := Engine.clock w (tick st); logic_evaluation := evaluation.2 |},
   {| published := published st; tick := S (tick st) |}).

(** The loop of evaluate_all_rules. [accepts rule_id] tells whether the
    publish of a triggered rule returns; when it raises, nothing catches
    the exception here. *)
Fixpoint evaluate_each (w : Engine.World) (accepts : string → bool) (rules : list Rule)
    (results : list rule_result) (st : state) : res (list rule_result) * state :=
  match rules with
  | [] => (Ok results, st)
  | rule :: rest =>
      let '(r, st1) := evaluate_rule w rule st in
      let results1 := results ++ [r] in
      if truthy (triggered r) then
        if accepts (id rule)
        then evaluate_each w accepts rest results1
               {| published := published st1 ++ [id rule]; tick := tick st1 |}
        else (Raise TransportError, st1)
      else evaluate_each w accepts rest results1 st1
  end.

Definition evaluate_all_rules (w : Engine.World) (accepts : string → bool)
    (docs : list (string * tree_rule_doc)) (st : state) : res (list rule_result) * state :=
  evaluate_each w accepts (get_rules docs) [] st.

(** The answer of the entry point: the results, or the error. *)
Record response : Type := {
  status : string;
  timestamp : Z;
  rule_results : option (list rule_result);
  error : option exn
}.

Definition evaluate_rules (w : Engine.World) (accepts : string → bool)
    (docs : list (string * tree_rule_doc)) (st : state) : response * state :=
  let '(r, st1) := evaluate_all_rules w accepts docs st in
  let st2 := {| published := published st1; tick := S (tick st1) |} in
  match r with
  | Ok results =>
      ({| status := "success"; timestamp := Engine.clock w (tick st1);
          rule_results := Some results; error := None |}, st2)
  | Raise e =>
      ({| status := "error"; timestamp := Engine.clock w (tick st1);
          rule_results := None; error := Some e |}, st2)
  end.

End TreeRun.

(** ** The rule inserter (insert_rules.py) *)

Module Inserter.
Import Py.

(** s.lower() and s.replace(" ", "_"). Text is a string of bytes here,
    and [lower] maps the ASCII capitals; str.lower() also maps capitals
    outside ASCII, which are not in reach of this reading of text. *)
Definition lower_char (c : ascii) : ascii :=
  let n := nat_of_ascii c in
  if Nat.leb 65 n && Nat.leb n 90 then ascii_of_nat (n + 32) else c.

Fixpoint lower (s : string) : string :=
  match s with
  | EmptyString => EmptyString
  | String c rest => String (lower_char c) (lower rest)
  end.

Fixpoint underscore (s : string) : string :=
  match s with
  | EmptyString => EmptyString
  | String c rest => String (if Ascii.eqb c " " then "_"%char else c) (underscore rest)
  end.

Definition doc_id_of (rule_id : string) : string := underscore (lower rule_id).

(** Text of ASCII characters only, on which [lower] is str.lower(). *)
Definition is_ascii (s : string) : bool :=
  forallb (fun c => Nat.ltb (nat_of_ascii c) 128) (String.list_ascii_of_string s).

(** rules_ref.document(doc_id).set(rule) when the store takes the write:
    the document is overwritten where it stands, or added. (A write the
    store refuses, as for a document id with a '/', raises; insert_rules
    logs the exception and goes on, and the collection is as before.) *)
Fixpoint set (doc_id : string) (rule : Engine.rule_doc) (store : list (string * Engine.rule_doc))
    : list (string * Engine.rule_doc) :=
  match store with
  | [] => [(doc_id, rule)]
  | (k, old) :: rest =>
      if String.eqb k doc_id then (k, rule) :: rest else (k, old) :: set doc_id rule rest
  end.

(** insert_rules: a rule without an id raises KeyError, which is logged,
    and the loop goes on. *)
Fixpoint insert_rules (rules : list Engine.rule_doc) (store : list (string * Engine.rule_doc))
    : list (string * Engine.rule_doc) :=
  match rules with
  | [] => store
  | rule :: rest =>
      match Engine.rule_id_field rule with
      | Some rule_id => insert_rules rest (set (doc_id_of rule_id) rule store)
      | None => insert_rules rest store
      end
  end.

End Inserter.

(** ** Predicates and inputs for the properties of the other modules *)

Module Probes.
Import Py.

(** The character [c] occurs in [s]. *)
Fixpoint occurs (c : ascii) (s : string) : bool :=
  match s with
  | EmptyString => false
  | String d rest => Ascii.eqb c d || occurs c rest
  end.

(** The action requests the entries of a trace report as sent. *)
Definition requests_of (trace : list Engine.NodeOutcome) : list (value * value) :=
  omap (λ o, match Engine.out_details o with
             | Engine.DPublish action action_data => Some (action, action_data)
             | _ => None
             end) trace.

(** The operator that asks the opposite question. *)
Definition negation (o : Engine.Operation) : Engine.Operation :=
  match o with
  | Engine.GREATER_THAN => Engine.LESS_EQUAL
  | Engine.GREATER_EQUAL => Engine.LESS_THAN
  | Engine.LESS_THAN => Engine.GREATER_EQUAL
  | Engine.LESS_EQUAL => Engine.GREATER_THAN
  | Engine.EQUALS => Engine.NOT_EQUALS
  | Engine.NOT_EQUALS => Engine.EQUALS
  | Engine.CONTAINS => Engine.NOT_CONTAINS
  | Engine.NOT_CONTAINS => Engine.CONTAINS
  end.

(** Two node results that both fail, or both succeed with opposite
    booleans. *)
Definition opposite (a b : Engine.NodeResult) : Prop :=
  (Engine.success a = false ∧ Engine.success b = false) ∨
  (∃ p : bool, Engine.success a = true ∧ Engine.success b = true ∧
               Engine.result_value a = VBool p ∧ Engine.result_value b = VBool (negb p)).

(** A node with the id and the type of a node document of [docs]. *)
Definition good (docs : list Engine.node_doc) (n : Engine.Node) : Prop :=
  ∃ d, d ∈ docs ∧ Engine.nd_id d = Engine.node_id n ∧
       Engine.nd_type d = Engine.NodeType_value (Engine.node_type n).

(** A rule document is due at the instant [now]: the test of get_rules,
    with its defaults. *)
Definition due_now (now : Z) (d : Engine.rule_doc) : bool :=
  match Engine.last_run d with
  | Some (Naive last) =>
      default true (Engine.enabled d) &&
      Engine.interval_passed (now - last) (default 3600%Z (Engine.interval d))
  | _ => false
  end.

(** A stored document after a pass at the instant [now]. *)
Definition stamp_doc (now : Z) (doc : string * Engine.rule_doc) : string * Engine.rule_doc :=
  if due_now now doc.2 then (doc.1, Engine.set_last_run now doc.2) else doc.

(** A world whose clock stands at [now], and a collection of two rules. *)
Definition world_at (now : Z) : Engine.World :=
  {| Engine.telemetry := λ _, None; Engine.accepts := λ _ _, true; Engine.clock := λ _, now;
     Engine.stores := λ _ _, true |}.

Definition two_rules : Engine.state :=
  {| Engine.execution_context := ∅; Engine.tick := 0;
     Engine.rules := [("hot", Samples.threshold_rule); ("broken", Samples.dangling_rule)];
     Engine.outbox := [] |}.




(** An enabled rule with an interval of 2^35 seconds, a rule whose
    last_run is the default of the backend's model (an aware timestamp),
    and the world of [Samples.world] with a rules collection that takes
    no write. *)
Definition far_rule : Engine.rule_doc :=
  {| Engine.rule_id_field := None; Engine.name := Some "far"; Engine.description := None;
     Engine.enabled := Some true; Engine.interval := Some (2 ^ 35)%Z;
     Engine.last_run := Some (Naive 0); Engine.start_node := Some "end";
     Engine.nodes := Some [Samples.end_node] |}.

Definition aware_rule : Engine.rule_doc :=
  {| Engine.rule_id_field := None; Engine.name := Some "hot"; Engine.description := None;
     Engine.enabled := Some true; Engine.interval := Some 60%Z;
     Engine.last_run := Some (Aware 0); Engine.start_node := Some "end";
     Engine.nodes := Some [Samples.end_node] |}.

Definition refusing_world : Engine.World :=
  {| Engine.telemetry := Engine.telemetry Samples.world;
     Engine.accepts := Engine.accepts Samples.world;
     Engine.clock := Engine.clock Samples.world;
     Engine.stores := λ _ _, false |}.

(** A world whose clock advances by 100 s at every reading. *)
Definition striding_world : Engine.World :=
  {| Engine.telemetry := λ _, None; Engine.accepts := λ _ _, true;
     Engine.clock := λ n, ((1 + Z.of_nat n) * 100000000)%Z;
     Engine.stores := λ _ _, true |}.

(** The tree engine finds the rule triggered. *)
Definition fires (w : Engine.World) (rule : Tree.Rule) : bool :=
  truthy (TreeRun.evaluate_expression w (Tree.logic rule)).1.

(** A rule document of the tree engine whose logic is an AND of nothing,
    a collection of two documents, and the state before a cycle. *)
Definition always_rule : Tree.tree_rule_doc :=
  {| Tree.doc_name := Some "always";
     Tree.doc_logic := Some (Tree.OperandDoc (Some "AND") (Some []) None None None);
     Tree.doc_description := None;
     Tree.doc_enabled := Some true |}.

Definition tree_docs : list (string * Tree.tree_rule_doc) :=
  [("bare", Samples.bare_tree_rule); ("always", always_rule)].

Definition idle : TreeRun.state := {| TreeRun.published := []; TreeRun.tick := 0 |}.

(** The rule of [always_rule] as parsed, and a queue that rejects its
    message only. *)
Definition always : Tree.Rule :=
  {| Tree.id := "always"; Tree.name := "always"; Tree.logic := Tree.Expr Tree.AND [];
     Tree.description := ""; Tree.enabled := true |}.

Definition picky (rule_id : string) : bool := negb (String.eqb rule_id "always").

(** What the loop of the tree engine's get_rules keeps of a document. *)
Definition kept (doc : string * Tree.tree_rule_doc) : option Tree.Rule :=
  if default true (Tree.doc_enabled doc.2) then
    match Tree.Rule_from_dict doc.1 doc.2 with
    | Ok rule => Some rule
    | Raise _ => None
    end
  else None.

(** A transport that takes every mail, the state before any request, and
    a PUBLISH node with an action and no action_data. *)
Definition open_smtp (to_address body : value) : Handler.delivery := Handler.Sent.

Definition nothing_done : Handler.effects := {| Handler.mails := []; Handler.todos := [] |}.

Definition bare_publish : Engine.Node :=
  {| Engine.node_id := "pub"; Engine.node_type := Engine.PUBLISH;
     Engine.properties := {["action" := VStr "add_todo"]};
     Engine.next := []; Engine.next_true := []; Engine.next_false := [] |}.

Definition email_publish : Engine.Node :=
  {| Engine.node_id := "pub"; Engine.node_type := Engine.PUBLISH;
     Engine.properties := list_to_map Samples.email;
     Engine.next := []; Engine.next_true := []; Engine.next_false := [] |}.

(** One character of a document id, a rule inserted under an id with a
    capital and a space, and the collection after its insertion. *)
Definition doc_id_char (c : ascii) : ascii :=
  if Ascii.eqb (Inserter.lower_char c) " " then "_"%char else Inserter.lower_char c.

Definition loud_rule : Engine.rule_doc :=
  {| Engine.rule_id_field := Some "Hot Rule"; Engine.name := Some "hot";
     Engine.description := None; Engine.enabled := Some true; Engine.interval := Some 60%Z;
     Engine.last_run := Some (Naive 0); Engine.start_node := Some "end";
     Engine.nodes := Some [Samples.end_node] |}.

Definition inserted_state : Engine.state :=
  {| Engine.execution_context := ∅; Engine.tick := 0;
     Engine.rules := Inserter.insert_rules [loud_rule] []; Engine.outbox := [] |}.

(** An entry reports a publish exactly when it carries a request. *)
Definition consistent (o : Engine.NodeOutcome) : Prop :=
  Engine.reports_published o = true ↔ requests_of [o] ≠ [].

(** The trace entry [o] has the id and the type of a node document of
    [docs]. *)
Definition declared (docs : list Engine.node_doc) (o : Engine.NodeOutcome) : Prop :=
  ∃ d, d ∈ docs ∧ Engine.nd_id d = Engine.out_node_id o ∧
       Engine.nd_type d = Engine.out_type o.

(** The text the engine's _safe_topic_id puts for one character. *)
Definition piece (c : ascii) : string :=
  if Ascii.eqb c "/" then "_"
  else if Ascii.eqb c "." then "_"
  else if Ascii.eqb c "#" then "hash"
  else if Ascii.eqb c "+" then "plus"
  else String c EmptyString.

(** A reading of 31 on the topic sensors/t.1, to be evaluated at once. *)
Definition reading : Ingest.message :=
  {| Ingest.topic := "sensors/t.1";
     Ingest.payload := Some (VDict [("value", VInt 31); ("immediate", VBool true)]);
     Ingest.qos := 0; Ingest.retain := false |}.

Definition empty_store : Ingest.state :=
  {| Ingest.messages := []; Ingest.documents := ∅; Ingest.evaluations := [];
     Ingest.tick := 0 |}.

End Probes.

(** * Properties *)

(** ** The graph walk *)

Module WalkFacts.
Import Py Engine Reading.

(** *** The engine functions as functions of the context *)

Lemma with_effect_id (st : state) :
  with_effect (execution_context st) [] st = st.
Proof. destruct st; unfold with_effect; simpl. by rewrite app_nil_r. Qed.

Lemma with_effect_twice c1 s1 c2 s2 (st : state) :
  with_effect c2 s2 (with_effect c1 s1 st) = with_effect c2 (s1 ++ s2) st.
Proof. unfold with_effect; simpl. by rewrite app_assoc. Qed.

Lemma execute_node_effect (w : World) (node : Node) (st : state) :
  execute_node w node st =
  let '(result, context, sent) := node_effect w node (execution_context st) in
  (result, with_effect context sent st).
Proof.
  unfold execute_node, node_effect, node_executors, execute_publish_node.
  destruct st as [c t r o]; simpl.
  destruct (node_type node); simpl;
    try (unfold with_effect, set_context; simpl; by rewrite app_nil_r).
  destruct (accepts w _ _); unfold with_effect, set_context, set_outbox; simpl;
    by rewrite ?app_nil_r.
Qed.

Lemma step_pass (w : World) nodes (current : Node) results (st : state) :
  step w nodes current results st =
  let '(emitted, context, sent, k) := pass w nodes current (execution_context st) in
  match k with
  | Done => Stop (Ok (results ++ emitted)) (with_effect context sent st)
  | Fault e => Stop (Raise e) (with_effect context sent st)
  | Goto node => Next node (results ++ emitted) (with_effect context sent st)
  end.
Proof.
  unfold step, pass. rewrite execute_node_effect.
  destruct (node_effect w current (execution_context st)) as [[result context] sent].
  destruct (node_type current) eqn:Ht;
    try (destruct (negb (success result)); [done|];
         match goal with |- context [match ?l with [] => _ | _ :: _ => _ end] =>
           destruct l as [|first ?]; [done|] end;
         by destruct (nodes !! first)).
  by rewrite app_nil_r, with_effect_id.
Qed.

Lemma walk_trail (fuel : nat) (w : World) nodes (current : Node) results (st : state) :
  walk fuel w nodes current results st =
  match trail fuel w nodes current (execution_context st) with
  | None => None
  | Some (r, context, sent) => Some (prepend results r, with_effect context sent st)
  end.
Proof.
  revert current results st. induction fuel as [|fuel IH]; intros current results st; [done|].
  simpl. rewrite step_pass.
  destruct (pass w nodes current (execution_context st)) as [[[emitted context] sent] k].
  destruct k as [| e | node]; [done | done |].
  rewrite IH. simpl.
  destruct (trail fuel w nodes node context) as [[[r c2] s2]|]; [|done].
  rewrite with_effect_twice. destruct r; simpl; by rewrite <- ?app_assoc.
Qed.

Lemma execute_rule_run (fuel : nat) (w : World) (rule : rule_doc) (st : state) :
  execute_rule fuel w rule st =
  match run fuel w rule with
  | None => None
  | Some (r, context, sent) => Some (finish w rule r (with_effect context sent st))
  end.
Proof.
  unfold execute_rule, run. destruct (load rule) as [[nodes current]|e].
  - rewrite walk_trail. simpl.
    destruct (trail fuel w nodes current ∅) as [[[r c] sent]|]; [|done].
    destruct r; simpl; done.
  - unfold with_effect, set_context. simpl. by rewrite app_nil_r.
Qed.

(** *** Fuel and position *)

(** A walk that is still going after [k] passes needs more fuel than [k]. *)
Lemma walk_short k (w : World) nodes (current : Node) results (st : state) fuel :
  is_Some (advance k w nodes current results st) → fuel ≤ k →
  walk fuel w nodes current results st = None.
Proof.
  revert current results st fuel.
  induction k as [|k IH]; intros current results st fuel Hadv Hle.
  - by replace fuel with 0 by lia.
  - destruct fuel as [|fuel]; [done|]. simpl in *.
    destruct (step w nodes current results st) as [r st1 | node results1 st1].
    + by destruct Hadv.
    + apply IH; [done | lia].
Qed.

(** The first [k] passes cost [k] units of fuel. *)
Lemma walk_skip k (w : World) nodes (current : Node) results (st : state)
    (node : Node) results1 (st1 : state) fuel :
  advance k w nodes current results st = Some (node, results1, st1) →
  walk (k + fuel) w nodes current results st = walk fuel w nodes node results1 st1.
Proof.
  revert current results st.
  induction k as [|k IH]; intros current results st Hadv; simpl in *.
  - by inversion Hadv.
  - destruct (step w nodes current results st) as [r st2 | node2 results2 st2]; [done|].
    by apply IH.
Qed.

Lemma trail_S fuel (w : World) nodes (current : Node) context :
  trail (S fuel) w nodes current context =
  let '(emitted, context1, sent, k) := pass w nodes current context in
  match k with
  | Done => Some (Ok emitted, context1, sent)
  | Fault e => Some (Raise e, context1, sent)
  | Goto node =>
      match trail fuel w nodes node context1 with
      | None => None
      | Some (r, context2, sent2) => Some (prepend emitted r, context2, sent ++ sent2)
      end
  end.
Proof. reflexivity. Qed.

(** More fuel does not change a run that ended. *)
Lemma trail_more fuel (w : World) nodes (current : Node) context out :
  trail fuel w nodes current context = Some out →
  trail (S fuel) w nodes current context = Some out.
Proof.
  revert current context out.
  induction fuel as [|fuel IH]; intros current context out; [done|].
  rewrite (trail_S (S fuel)), (trail_S fuel).
  destruct (pass w nodes current context) as [[[emitted context1] sent] k].
  destruct k as [| e | node]; [done | done |].
  destruct (trail fuel w nodes node context1) as [out1|] eqn:Ht; [|done].
  by rewrite (IH _ _ _ Ht).
Qed.

Lemma walk_more fuel (w : World) nodes (current : Node) results (st : state) out :
  walk fuel w nodes current results st = Some out →
  walk (S fuel) w nodes current results st = Some out.
Proof.
  rewrite !walk_trail.
  destruct (trail fuel w nodes current (execution_context st)) as [o|] eqn:Ht; [|done].
  by rewrite (trail_more _ _ _ _ _ _ Ht).
Qed.

(** *** Revisited nodes *)







(** Nothing bounds the number of passes either: while the store keeps
    giving the same reading, the run of [Samples.looping_rule], a node that
    is its own successor, never returns. *)
Lemma looping_pass context :
  pass Samples.world Samples.looping_nodes Samples.looping_node context =
  ([outcome_of Samples.looping_node (execute_get_data_node Samples.world Samples.looping_node)],
   <["get" := VInt 35]> context, [], Goto Samples.looping_node).
Proof. reflexivity. Qed.

Lemma looping_rule_never_returns fuel :
  execute_rule fuel Samples.world Samples.looping_rule Samples.start_state = None.
Proof.
  rewrite execute_rule_run. unfold run.
  assert (load Samples.looping_rule = Ok (Samples.looping_nodes, Samples.looping_node)) as ->
    by (vm_compute; reflexivity).
  assert (∀ context,
            trail fuel Samples.world Samples.looping_nodes Samples.looping_node context = None)
    as ->; [|done].
  induction fuel as [|fuel IH]; intros context; [done|].
  by rewrite trail_S, looping_pass, IH.
Qed.

(** *** The verdict *)

Lemma py_eq_text (v : value) (s : string) : py_eq v (VStr s) = true ↔ v = VStr s.
Proof.
  destruct v; simpl; try (split; [done | discriminate]).
  rewrite String.eqb_eq. split; [by intros -> | by intros [= ->]].
Qed.




(** The worked example of the specification: GET_DATA, COMPARE (> 30),
    then PUBLISH or END. With the value 35 the rule triggers and sends one
    request, with the action email; with 20 it does not trigger and sends
    nothing. *)
Example threshold_rule_hot :
  ∃ res st',
    execute_rule 4 Samples.world Samples.threshold_rule Samples.start_state = Some (res, st') ∧
    triggered res = true ∧ error res = None ∧
    out_node_id <$> default [] (node_results res) = ["get"; "cmp"; "pub"] ∧
    fst <$> outbox st' = [VStr "email"].
Proof. eexists _, _. split; [vm_compute; reflexivity | by vm_compute]. Qed.

Example threshold_rule_cool :
  ∃ res st',
    execute_rule 4 Samples.cool_world Samples.threshold_rule Samples.start_state
      = Some (res, st') ∧
    triggered res = false ∧ error res = None ∧
    out_node_id <$> default [] (node_results res) = ["get"; "cmp"] ∧
    outbox st' = [].
Proof. eexists _, _. split; [vm_compute; reflexivity | by vm_compute]. Qed.

(** *** Successors *)

Lemma walk_S fuel (w : World) nodes (current : Node) results (st : state) :
  walk (S fuel) w nodes current results st =
  match step w nodes current results st with
  | Stop r st1 => Some (r, st1)
  | Next node results1 st1 => walk fuel w nodes node results1 st1
  end.
Proof. reflexivity. Qed.

Lemma step_success (w : World) nodes (current : Node) results (st st1 : state)
    (result : NodeResult) :
  node_type current ≠ END →
  execute_node w current st = (result, st1) →
  success result = true →
  step w nodes current results st =
  match chosen current result with
  | [] => Stop (Ok (results ++ [outcome_of current result])) st1
  | first :: _ =>
      match nodes !! first with
      | Some node => Next node (results ++ [outcome_of current result]) st1
      | None => Stop (Raise (KeyError first)) st1
      end
  end.
Proof.
  intros Hend Hex Hok. unfold step, chosen. rewrite Hex, Hok. simpl.
  destruct (node_type current); try done;
    match goal with |- context [match ?l with [] => _ | _ :: _ => _ end] =>
      destruct l as [|first ?]; [done|] end;
    by destruct (nodes !! first).
Qed.

(** No executor reads a successor list. *)
Lemma execute_node_prune (w : World) (node : Node) (st : state) :
  execute_node w (prune node) st = execute_node w node st.
Proof.
  unfold execute_node, node_executors. simpl.
  by destruct (node_type node).
Qed.

Lemma step_prune (w : World) nodes (current : Node) results (st : state) :
  step w (prune <$> nodes) (prune current) results st =
  match step w nodes current results st with
  | Stop r st1 => Stop r st1
  | Next node results1 st1 => Next (prune node) results1 st1
  end.
Proof.
  unfold step. rewrite execute_node_prune. simpl.
  destruct (execute_node w current st) as [result st1].
  change (outcome_of (prune current) result) with (outcome_of current result).
  destruct (node_type current); try done;
    (destruct (negb (success result)); [done|]);
    try destruct (truthy (result_value result));
    match goal with |- context [take 1 ?l] => destruct l as [|first ?]; [done|] end;
    simpl; rewrite lookup_fmap; by destruct (nodes !! first).
Qed.

Lemma walk_prune fuel (w : World) nodes (current : Node) results (st : state) :
  walk fuel w (prune <$> nodes) (prune current) results st =
  walk fuel w nodes current results st.
Proof.
  revert current results st. induction fuel as [|fuel IH]; intros current results st; [done|].
  rewrite !walk_S, step_prune.
  destruct (step w nodes current results st) as [r st1 | node results1 st1]; [done|].
  apply IH.
Qed.

(** C5: after a node that is not END has run with success, the loop reads
    one successor list (next_true or next_false for a COMPARE node, by the
    truth of its result; next for every other type); an empty list ends
    the run with the trace, otherwise the loop goes on at the node its
    first id names (a first id that names no node raises KeyError). No
    other id of a list is ever read: cutting every successor list down to
    its first id changes no run. *)
Theorem walk_follows_first :
  (∀ fuel (w : World) nodes (current : Node) results (st st1 : state) (result : NodeResult),
     node_type current ≠ END →
     execute_node w current st = (result, st1) →
     success result = true →
     walk (S fuel) w nodes current results st =
     match chosen current result with
     | [] => Some (Ok (results ++ [outcome_of current result]), st1)
     | first :: _ =>
         match nodes !! first with
         | Some node => walk fuel w nodes node (results ++ [outcome_of current result]) st1
         | None => Some (Raise (KeyError first), st1)
         end
     end) ∧
  (∀ fuel (w : World) nodes (current : Node) results (st : state),
     walk fuel w (prune <$> nodes) (prune current) results st =
     walk fuel w nodes current results st).
Proof.
  split.
  - intros fuel w nodes current results st st1 result Hend Hex Hok.
    rewrite walk_S, (step_success _ _ _ _ _ _ _ Hend Hex Hok).
    destruct (chosen current result) as [|first rest]; [done|].
    by destruct (nodes !! first).
  - apply walk_prune.
Qed.

(** The first node of [Samples.threshold_rule] succeeds, its next list is
    ["cmp"], and the loop goes on at the node "cmp". *)
Lemma walk_follows_first_witness :
  let nodes := Samples.table Samples.threshold_rule in
  let current := Samples.node_at Samples.threshold_rule "get" in
  let out := execute_node Samples.world current Samples.start_state in
  node_type current ≠ END ∧ success out.1 = true ∧ chosen current out.1 = ["cmp"] ∧
  walk 4 Samples.world nodes current [] Samples.start_state =
  walk 3 Samples.world nodes (Samples.node_at Samples.threshold_rule "cmp")
    ([] ++ [outcome_of current out.1]) out.2.
Proof.
  intros nodes current out.
  assert (node_type current ≠ END) as Hend by (vm_compute; discriminate).
  assert (success out.1 = true) as Hok by reflexivity.
  split; [exact Hend|]. split; [exact Hok|]. split; [reflexivity|].
  exact (proj1 walk_follows_first 3 Samples.world nodes current [] Samples.start_state
           out.2 out.1 Hend (surjective_pairing out) Hok).
Defined.

(** *** Failed nodes *)

(** A failed node has the value None. *)
Lemma compare_failed_value context (node : Node) :
  success (execute_compare_node context node) = false →
  result_value (execute_compare_node context node) = VNone.
Proof.
  unfold execute_compare_node.
  repeat (match goal with
          | |- context [mbind _ ?c] => destruct c; simpl
          | |- context [match ops ?o with _ => _ end] => destruct (ops o); simpl
          end; try done).
Qed.

Lemma logical_failed_value context (node : Node) :
  success (execute_logical_node context node) = false →
  result_value (execute_logical_node context node) = VNone.
Proof.
  unfold execute_logical_node.
  repeat (match goal with
          | |- context [mbind _ ?c] => destruct c; simpl
          end; try done).
Qed.

Lemma node_effect_failed (w : World) (node : Node) context :
  success (node_effect w node context).1.1 = false →
  result_value (node_effect w node context).1.1 = VNone.
Proof.
  unfold node_effect.
  destruct (node_type node); simpl;
    auto using compare_failed_value, logical_failed_value.
  - unfold execute_get_data_node.
    destruct (negb (truthy _)); simpl; [done|].
    by destruct (get_latest_value w _).
  - by destruct (accepts w _ _).
Qed.

Lemma execute_node_failed (w : World) (node : Node) (st st1 : state) (result : NodeResult) :
  execute_node w node st = (result, st1) →
  success result = false →
  result_value result = VNone.
Proof.
  rewrite execute_node_effect.
  pose proof (node_effect_failed w node (execution_context st)) as H.
  destruct (node_effect w node (execution_context st)) as [[r c] sent].
  intros [= <- _]. apply H.
Qed.

(** C6, as the code has it: a node that fails ends the loop at once, its
    entry being the last of the trace; the verdict is then the one the
    earlier entries give (false when no PUBLISH before it succeeded). A
    GET_DATA node whose topic has no stored value fails. *)
Theorem failure_stops_walk :
  (∀ fuel (w : World) nodes (current : Node) results (st st1 : state) (result : NodeResult),
     node_type current ≠ END →
     execute_node w current st = (result, st1) →
     success result = false →
     walk (S fuel) w nodes current results st
       = Some (Ok (results ++ [outcome_of current result]), st1) ∧
     existsb reports_published (results ++ [outcome_of current result])
       = existsb reports_published results) ∧
  (∀ (w : World) (current : Node) (st : state),
     node_type current = GET_DATA →
     get_latest_value w (default VNone (properties current !! "topic")) = VNone →
     success (execute_node w current st).1 = false).
Proof.
  split.
  - intros fuel w nodes current results st st1 result Hend Hex Hfail. split.
    + rewrite walk_S. unfold step. rewrite Hex, Hfail. simpl.
      by destruct (node_type current).
    + rewrite existsb_app. simpl.
      unfold reports_published at 2. simpl.
      rewrite (execute_node_failed _ _ _ _ _ Hex Hfail). simpl.
      by rewrite andb_false_r, !orb_false_r.
  - intros w current st Ht Hv.
    unfold execute_node, node_executors. rewrite Ht. simpl.
    unfold execute_get_data_node.
    destruct (negb (truthy _)); simpl; [done|]. by rewrite Hv.
Qed.

(** The GET_DATA node of [Samples.publish_then_fail_rule] reads a topic
    with no value: it fails, and the loop ends at it. *)
Lemma failure_stops_walk_witness :
  let nodes := Samples.table Samples.publish_then_fail_rule in
  let current := Samples.node_at Samples.publish_then_fail_rule "get" in
  let out := execute_node Samples.world current Samples.start_state in
  success out.1 = false ∧
  walk 1 Samples.world nodes current [] Samples.start_state
    = Some (Ok ([] ++ [outcome_of current out.1]), out.2) ∧
  existsb reports_published ([] ++ [outcome_of current out.1]) = existsb reports_published [].
Proof.
  intros nodes current out.
  assert (node_type current ≠ END) as Hend by (vm_compute; discriminate).
  assert (success out.1 = false) as Hfail.
  { apply (proj2 failure_stops_walk Samples.world current Samples.start_state); reflexivity. }
  split; [exact Hfail|].
  exact (proj1 failure_stops_walk 0 Samples.world nodes current [] Samples.start_state
           out.2 out.1 Hend (surjective_pairing out) Hfail).
Defined.

(** C6, refuted as stated: in the run of [Samples.publish_then_fail_rule]
    the GET_DATA node fails (no value is stored for its topic) and the run
    stops there, yet the verdict is triggered = true. *)
Lemma failed_run_triggered :
  ∃ res st',
    execute_rule 3 Samples.world Samples.publish_then_fail_rule Samples.start_state
      = Some (res, st') ∧
    (λ r, (out_node_id r, out_details r)) <$> default [] (node_results res)
      = [("pub", DPublish (VStr "email") (VDict [("to", VStr "ops"); ("body", VStr "hot")]));
         ("get", DGetData (VStr "sensors/none") VNone)] ∧
    error res = None ∧
    triggered res = true.
Proof. eexists _, _. split; [vm_compute; reflexivity | by vm_compute]. Qed.

End WalkFacts.

(** ** Single nodes *)

Module NodeFacts.
Import Py Engine.

(** *** AND and OR *)

Lemma mapM_context_get (context : gmap string value) (ids : list string) :
  mapM (context_get context) (VStr <$> ids) = Ok ((λ i, default VNone (context !! i)) <$> ids).
Proof.
  induction ids as [|i ids IH]; [done|].
  rewrite !fmap_cons.
  change (mapM (context_get context) (VStr i :: (VStr <$> ids)))
    with (y ← context_get context (VStr i);
          k ← mapM (context_get context) (VStr <$> ids); mret (y :: k)).
  by rewrite IH.
Qed.

Lemma truthy_lookup (context : gmap string value) (i : string) :
  truthy (default VNone (context !! i)) = true ↔ ∃ v, context !! i = Some v ∧ truthy v = true.
Proof.
  destruct (context !! i) as [v|]; simpl.
  - split; [by exists v | by intros (? & [= <-] & ?)].
  - split; [done | by intros (? & [=] & _)].
Qed.

(** C7: an AND or OR node whose inputs property lists node ids never
    fails. Each id is looked up in the context, an id with no entry
    giving None; the result is True for AND exactly when every id has a
    truthy entry, for OR exactly when some id has one. *)
Theorem logical_node_all_any (context : gmap string value) (node : Node) (ids : list string) :
  properties node !! "inputs" = Some (VList (VStr <$> ids)) →
  ∃ b : bool,
    execute_logical_node context node =
      {| success := true; result_value := VBool b;
         details := DLogical ((λ i, default VNone (context !! i)) <$> ids)
                      (NodeType_value (node_type node)) (VBool b) |} ∧
    (node_type node = AND →
       b = true ↔ ∀ i, i ∈ ids → ∃ v, context !! i = Some v ∧ truthy v = true) ∧
    (node_type node = OR →
       b = true ↔ ∃ i v, i ∈ ids ∧ context !! i = Some v ∧ truthy v = true).
Proof.
  intros Hin. unfold execute_logical_node, item. rewrite Hin.
  cbn [mbind res_bind py_iter]. rewrite mapM_context_get. cbn [mbind res_bind].
  eexists. split; [reflexivity|]. split; intros ->.
  - rewrite forallb_forall. setoid_rewrite <- list_elem_of_In.
    setoid_rewrite list_elem_of_fmap. split.
    + intros H i Hi. apply truthy_lookup. apply H. by exists i.
    + intros H v (i & -> & Hi). apply truthy_lookup. by apply H.
  - rewrite existsb_exists. setoid_rewrite <- list_elem_of_In.
    setoid_rewrite list_elem_of_fmap. split.
    + intros (v & (i & -> & Hi) & Hv). apply truthy_lookup in Hv as (v & Hl & Hv).
      by exists i, v.
    + intros (i & v & Hi & Hl & Hv). exists (default VNone (context !! i)). split.
      * by exists i.
      * apply truthy_lookup. by exists v.
Qed.

(** Inputs [True, False]: AND gives False, OR gives True; an id with no
    entry in the context makes AND False and leaves OR to the others. *)
Lemma logical_node_all_any_witness :
  result_value (execute_logical_node Samples.true_false (Samples.logical_node AND ["a"; "b"]))
    = VBool false ∧
  result_value (execute_logical_node Samples.true_false (Samples.logical_node OR ["a"; "b"]))
    = VBool true ∧
  execute_logical_node Samples.true_false (Samples.logical_node AND ["a"; "missing"])
    = {| success := true; result_value := VBool false;
         details := DLogical [VBool true; VNone] "and" (VBool false) |} ∧
  execute_logical_node Samples.true_false (Samples.logical_node OR ["missing"; "a"])
    = {| success := true; result_value := VBool true;
         details := DLogical [VNone; VBool true] "or" (VBool true) |} ∧
  ∃ b : bool,
    execute_logical_node Samples.true_false (Samples.logical_node AND ["a"; "b"]) =
      {| success := true; result_value := VBool b;
         details := DLogical ((λ i, default VNone (Samples.true_false !! i)) <$> ["a"; "b"])
                      "and" (VBool b) |} ∧
    (AND = AND →
       b = true ↔ ∀ i, i ∈ ["a"; "b"] →
                    ∃ v, Samples.true_false !! i = Some v ∧ truthy v = true) ∧
    (AND = OR →
       b = true ↔ ∃ i v, i ∈ ["a"; "b"] ∧ Samples.true_false !! i = Some v ∧ truthy v = true).
Proof.
  split; [by vm_compute|]. split; [by vm_compute|].
  split; [by vm_compute|]. split; [by vm_compute|].
  apply (logical_node_all_any Samples.true_false (Samples.logical_node AND ["a"; "b"]) ["a"; "b"]).
  reflexivity.
Defined.

(** *** COMPARE *)

(** A text that is no context key, compared in order with a number:
    Python raises TypeError, the node fails, and its details hold the
    message only. *)
Lemma compare_text_with_number (context : gmap string value) (node : Node) (s : string) (n : Z)
    (op : value) (o : Operation) :
  properties node !! "input1" = Some (VStr s) →
  properties node !! "input2" = Some (VInt n) →
  properties node !! "operator" = Some op →
  context !! s = None →
  Operation_of op = Ok o →
  o = GREATER_THAN ∨ o = GREATER_EQUAL ∨ o = LESS_THAN ∨ o = LESS_EQUAL →
  execute_compare_node context node = failed (Exception (TypeError "unorderable")).
Proof.
  intros H1 H2 Hop Hs Ho Hord.
  unfold execute_compare_node, item. rewrite H1, H2, Hop. simpl. rewrite Hs, Ho. simpl.
  by destruct Hord as [-> | [-> | [-> | ->]]].
Qed.

(** The same operands under == are compared as they are, and differ. *)
Lemma compare_text_with_number_eq (context : gmap string value) (node : Node) (s : string)
    (n : Z) :
  properties node !! "input1" = Some (VStr s) →
  properties node !! "input2" = Some (VInt n) →
  properties node !! "operator" = Some (VStr "==") →
  context !! s = None →
  execute_compare_node context node =
    {| success := true; result_value := VBool false;
       details := DCompare (VStr s) (VInt n) "==" (VBool false) |}.
Proof.
  intros H1 H2 Hop Hs.
  unfold execute_compare_node, item. rewrite H1, H2, Hop. simpl. by rewrite Hs.
Qed.

(** The tree engine converts a stored text to the type of a numeric
    target, and a stored value that is no text to text when the target is
    one. *)
Lemma convert_text_to_number (s : string) (n : Z) :
  Tree.convert (VStr s) (VInt n) = (m ← py_int_of_str s; Ok (VInt m)).
Proof. reflexivity. Qed.

Lemma convert_value_to_text (v : value) (t : string) :
  Tree.is_str v = false → Tree.convert v (VStr t) = Ok (VStr (py_str v)).
Proof. by destruct v. Qed.

(** C2 on the code: over the operands (10, 5, >) the COMPARE node gives
    True; over ("5", 10, <) and ("abc", 5, <) it fails with the TypeError
    of the comparison, without converting and without the operands in its
    details. The condition evaluator of the tree engine converts: its
    answers are True, True, and a conversion failure that reports both
    values. *)
Lemma compare_node_does_not_coerce :
  execute_compare_node ∅ (Samples.compare_node (VInt 10) (VInt 5) ">")
    = {| success := true; result_value := VBool true;
         details := DCompare (VInt 10) (VInt 5) ">" (VBool true) |} ∧
  execute_compare_node ∅ (Samples.compare_node (VStr "5") (VInt 10) "<")
    = failed (Exception (TypeError "unorderable")) ∧
  execute_compare_node ∅ (Samples.compare_node (VStr "abc") (VInt 5) "<")
    = failed (Exception (TypeError "unorderable")) ∧
  Tree.evaluate_condition (Samples.world_with (VInt 10))
      (Samples.condition Tree.GREATER_THAN (VInt 5))
    = {| Tree.result := VBool true; Tree.details := Tree.Compared "t" ">" (VInt 5) (VInt 10) |} ∧
  Tree.evaluate_condition (Samples.world_with (VStr "5"))
      (Samples.condition Tree.LESS_THAN (VInt 10))
    = {| Tree.result := VBool true; Tree.details := Tree.Compared "t" "<" (VInt 10) (VInt 5) |} ∧
  Tree.evaluate_condition (Samples.world_with (VStr "abc"))
      (Samples.condition Tree.LESS_THAN (VInt 5))
    = {| Tree.result := VBool false;
         Tree.details := Tree.ConversionFailed "t" "<" (VInt 5) (VStr "abc") |}.
Proof. repeat split; by vm_compute. Qed.

End NodeFacts.

(** ** The scheduler *)

Module TimeFacts.
Import Py Engine.

(** *** The float of total_seconds *)

Lemma nearest_bounds (n d : Z) :
  (0 < d)%Z → (n / d ≤ nearest n d ≤ n / d + 1)%Z.
Proof.
  intros Hd. unfold nearest.
  destruct (2 * (n mod d) ?= d)%Z; [destruct (Z.even (n / d))| |]; lia.
Qed.

Lemma nearest_ge (n d k : Z) : (0 < d)%Z → (k * d ≤ n)%Z → (k ≤ nearest n d)%Z.
Proof.
  intros Hd Hk. pose proof (nearest_bounds n d Hd).
  assert (k ≤ n / d)%Z by (apply Z.div_le_lower_bound; lia). lia.
Qed.

Lemma nearest_le (n d k : Z) : (0 < d)%Z → (n ≤ k * d)%Z → (nearest n d ≤ k)%Z.
Proof.
  intros Hd Hk. unfold nearest.
  pose proof (Z.div_mod n d ltac:(lia)) as Hn.
  pose proof (Z.mod_pos_bound n d Hd) as Hr.
  assert (n / d ≤ k)%Z as Hq by (apply Z.div_le_upper_bound; lia).
  destruct (Z.compare_spec (2 * (n mod d)) d) as [H|H|H]; [destruct (Z.even (n / d))| |]; nia.
Qed.

Lemma nearest_lt (n d k s : Z) :
  (0 < d)%Z → (d < 2 * s)%Z → (n + s ≤ k * d)%Z → (nearest n d < k)%Z.
Proof.
  intros Hd Hs Hk. unfold nearest.
  pose proof (Z.div_mod n d ltac:(lia)) as Hn.
  pose proof (Z.mod_pos_bound n d Hd) as Hr.
  destruct (Z.compare_spec (2 * (n mod d)) d) as [H|H|H]; [destruct (Z.even (n / d))| |]; nia.
Qed.

Lemma nearest_gt (n d k s : Z) :
  (0 < d)%Z → (d < 2 * s)%Z → (k * d + s ≤ n)%Z → (k < nearest n d)%Z.
Proof.
  intros Hd Hs Hk. unfold nearest.
  pose proof (Z.div_mod n d ltac:(lia)) as Hn.
  pose proof (Z.mod_pos_bound n d Hd) as Hr.
  destruct (Z.compare_spec (2 * (n mod d)) d) as [H|H|H]; [destruct (Z.even (n / d))| |]; nia.
Qed.

Lemma binade_le (n d : Z) : (binade n d ≤ Z.log2 n - Z.log2 d)%Z.
Proof. unfold binade. destruct (if (0 <=? _)%Z then _ else _); lia. Qed.

(** The exponent of total_seconds for a span below 2^53 microseconds. *)
Lemma seconds_exponent (n : Z) :
  (0 < n < 2 ^ 53)%Z → (binade n 1000000 - 52 ≤ -19)%Z.
Proof.
  intros [Hp Hn]. pose proof (binade_le n 1000000) as Hb.
  assert (Z.log2 n < 53)%Z by (by apply Z.log2_lt_pow2).
  change (Z.log2 1000000) with 19%Z in Hb. lia.
Qed.

Lemma seconds_ge (n iv : Z) :
  (0 < n < 2 ^ 53)%Z →
  float_ge_int (nearest_double n 1000000) iv = (iv * 1000000 <=? n)%Z.
Proof.
  intros Hn. unfold nearest_double, float_ge_int.
  destruct (Z.eqb_spec n 0) as [?|_]; [lia|]. cbn [mantissa exponent].
  pose proof (seconds_exponent n Hn) as He.
  set (e := (binade n 1000000 - 52)%Z) in *.
  destruct (Z.leb_spec 0 e) as [?|_]; [lia|].
  assert (2 ^ 19 ≤ 2 ^ (- e))%Z as Hp by (apply Z.pow_le_mono_r; lia).
  change (2 ^ 19)%Z with 524288%Z in Hp.
  set (p := (2 ^ (- e))%Z) in *.
  destruct (Z.leb_spec (iv * 1000000) n) as [Hle|Hlt].
  - apply Z.leb_le. apply nearest_ge; [lia|]. nia.
  - apply Z.leb_gt. apply (nearest_lt _ _ _ p); [lia | lia | nia].
Qed.

Lemma seconds_le (n iv : Z) :
  (0 < n < 2 ^ 53)%Z →
  (iv * 2 ^ (- exponent (nearest_double n 1000000)) <=? - mantissa (nearest_double n 1000000))%Z
    = (iv * 1000000 <=? - n)%Z.
Proof.
  intros Hn. unfold nearest_double.
  destruct (Z.eqb_spec n 0) as [?|_]; [lia|]. cbn [mantissa exponent].
  pose proof (seconds_exponent n Hn) as He.
  set (e := (binade n 1000000 - 52)%Z) in *.
  destruct (Z.leb_spec 0 e) as [?|_]; [lia|].
  assert (2 ^ 19 ≤ 2 ^ (- e))%Z as Hp by (apply Z.pow_le_mono_r; lia).
  change (2 ^ 19)%Z with 524288%Z in Hp.
  set (p := (2 ^ (- e))%Z) in *.
  destruct (Z.leb_spec (iv * 1000000) (- n)) as [Hle|Hlt].
  - apply Z.leb_le.
    assert (nearest (n * p) 1000000 ≤ - (iv * p))%Z; [|lia].
    apply nearest_le; [lia|]. nia.
  - apply Z.leb_gt.
    assert (- (iv * p) < nearest (n * p) 1000000)%Z; [|lia].
    apply (nearest_gt _ _ _ p); [lia | lia | nia].
Qed.

(** Below 2^53 microseconds (some 285 years) either way, the float
    comparison of get_rules is the exact one. *)
Lemma interval_passed_exact (passed iv : Z) :
  (- 2 ^ 53 < passed < 2 ^ 53)%Z →
  interval_passed passed iv = (iv * 1000000 <=? passed)%Z.
Proof.
  intros Hp. unfold interval_passed, total_seconds, true_divide.
  destruct (Z.leb_spec 0 passed) as [Hpos|Hneg].
  - destruct (Z.eq_dec passed 0) as [->|Hne].
    + unfold nearest_double, float_ge_int. simpl.
      destruct (Z.leb_spec iv 0), (Z.leb_spec (iv * 1000000) 0); lia.
    + apply seconds_ge. lia.
  - unfold float_ge_int. cbn [mantissa exponent].
    pose proof (seconds_exponent (- passed) ltac:(lia)) as He.
    assert (exponent (nearest_double (- passed) 1000000) = binade (- passed) 1000000 - 52)%Z
      as Hex.
    { unfold nearest_double. destruct (Z.eqb_spec (- passed) 0); [lia | done]. }
    destruct (Z.leb_spec 0 (exponent (nearest_double (- passed) 1000000))) as [?|_]; [lia|].
    rewrite seconds_le by lia. by rewrite Z.opp_involutive.
Qed.

(** The double nearest to one microsecond short of 2^35 seconds is 2^35
    seconds. *)
Example seconds_round_up :
  total_seconds (2 ^ 35 * 1000000 - 1) = {| mantissa := 2 ^ 53; exponent := -18 |} ∧
  interval_passed (2 ^ 35 * 1000000 - 1) (2 ^ 35) = true.
Proof. by vm_compute. Qed.

End TimeFacts.

(** ** The scheduler: get_rules and evaluate_all_rules *)

Module SchedulerFacts.
Import Py Engine Reading.

(** What the loop body of get_rules adds to the selected rules. *)
Lemma get_rules_body_selected (w : World) (sel : list rule_doc) (st : state)
    (doc_id : string) (d : rule_doc) :
  (get_rules_body w (sel, st) (doc_id, d)).1 =
  match last_run d with
  | Some (Naive last) =>
      if default true (enabled d) &&
         interval_passed (clock w (tick st) - last) (default 3600%Z (interval d))
      then sel ++ [set_id doc_id d]
      else sel
  | _ => sel
  end.
Proof.
  unfold get_rules_body, now. destruct (last_run d) as [[last|last]|]; [| |done].
  - destruct (default true (enabled d)); [|done]. simpl.
    destruct (interval_passed _ _); [|done]. simpl.
    by destruct (update_last_run _ _ _ _).
  - by destruct (default true (enabled d)).
Qed.

Lemma app_singleton_ne {A : Type} (l : list A) (x : A) : l ++ [x] ≠ l.
Proof.
  intros H. apply (f_equal length) in H. rewrite length_app in H. simpl in H. lia.
Qed.

(** C4, as the code has it: for a rule document with its three
    scheduling fields, last_run a naive timestamp, read at the instant
    now = clock w (tick st) less than 2^53 microseconds away from
    last_run, the loop body of get_rules selects the rule exactly when
    enabled is true and now - last_run, in microseconds, is at least
    interval seconds; otherwise the selection is left as it was. One
    microsecond short of the interval is too early; the interval to the
    microsecond is enough. A disabled rule is never selected, whatever
    its last_run and its interval. *)
Theorem scheduler_selects_due (w : World) (sel : list rule_doc) (st : state)
    (doc_id : string) (d : rule_doc) (b : bool) (iv last : Z) :
  enabled d = Some b → interval d = Some iv → last_run d = Some (Naive last) →
  let elapsed := (clock w (tick st) - last)%Z in
  (- 2 ^ 53 < elapsed < 2 ^ 53)%Z →
  let selected := (get_rules_body w (sel, st) (doc_id, d)).1 in
  (selected = sel ++ [set_id doc_id d] ↔ b = true ∧ (iv * 1000000 ≤ elapsed)%Z) ∧
  (selected = sel ↔ ¬ (b = true ∧ (iv * 1000000 ≤ elapsed)%Z)) ∧
  (b = false → selected = sel) ∧
  (elapsed = (iv * 1000000 - 1)%Z → selected = sel) ∧
  (b = true → elapsed = (iv * 1000000)%Z → selected = sel ++ [set_id doc_id d]) ∧
  (∀ d', enabled d' = Some false → (get_rules_body w (sel, st) (doc_id, d')).1 = sel).
Proof.
  intros He Hi Hl elapsed Hrange selected.
  assert (∀ d', enabled d' = Some false → (get_rules_body w (sel, st) (doc_id, d')).1 = sel)
    as Hoff.
  { intros d' Hd'. rewrite get_rules_body_selected, Hd'. by destruct (last_run d') as [[?|?]|]. }
  assert (selected = if b && (iv * 1000000 <=? elapsed)%Z
                     then sel ++ [set_id doc_id d] else sel) as Hsel.
  { unfold selected. rewrite get_rules_body_selected, Hl, He, Hi. simpl.
    by rewrite TimeFacts.interval_passed_exact. }
  pose proof (app_singleton_ne sel (set_id doc_id d)) as Hne.
  clearbody selected elapsed.
  destruct b; simpl in Hsel;
    [destruct (Z.leb_spec (iv * 1000000) elapsed) as [Hle|Hlt]|]; subst selected;
    repeat split; intros; try done; try lia; try (by apply Hoff);
    try (exfalso; by apply Hne); try tauto.
  all: intros [? ?]; try done; lia.
Qed.

(** A rule with interval 60 s, last run at 0: selected at 60 s sharp. *)
Lemma scheduler_selects_due_witness :
  let w := Probes.world_at 60000000 in
  let d := Samples.threshold_rule in
  let elapsed := (clock w (tick Samples.start_state) - 0)%Z in
  let selected := (get_rules_body w ([], Samples.start_state) ("hot", d)).1 in
  (selected = [] ++ [set_id "hot" d] ↔ true = true ∧ (60 * 1000000 ≤ elapsed)%Z) ∧
  (selected = [] ↔ ¬ (true = true ∧ (60 * 1000000 ≤ elapsed)%Z)) ∧
  (true = false → selected = []) ∧
  (elapsed = (60 * 1000000 - 1)%Z → selected = []) ∧
  (true = true → elapsed = (60 * 1000000)%Z → selected = [] ++ [set_id "hot" d]) ∧
  (∀ d', enabled d' = Some false → (get_rules_body w ([], Samples.start_state) ("hot", d')).1 = []).
Proof.
  apply (scheduler_selects_due (Probes.world_at 60000000)
           [] Samples.start_state "hot" Samples.threshold_rule true 60 0);
    [reflexivity | reflexivity | reflexivity | simpl; lia].
Defined.

(** C4, refuted as stated: [Probes.far_rule] is enabled, its last run was
    one microsecond less than its interval of 2^35 seconds ago, and the
    rule is selected: the elapsed seconds, as a float, round up to the
    interval. *)
Lemma far_interval_selected_early :
  enabled Probes.far_rule = Some true ∧
  interval Probes.far_rule = Some (2 ^ 35)%Z ∧
  last_run Probes.far_rule = Some (Naive 0) ∧
  (clock (Probes.world_at (2 ^ 35 * 1000000 - 1)) (tick Samples.start_state) - 0
   < 2 ^ 35 * 1000000)%Z ∧
  (get_rules_body (Probes.world_at (2 ^ 35 * 1000000 - 1)) ([], Samples.start_state)
     ("far", Probes.far_rule)).1 = [set_id "far" Probes.far_rule].
Proof. by vm_compute. Qed.

(** A disabled rule is never selected, whatever its other fields. *)
Lemma disabled_never_selected (w : World) (sel : list rule_doc) (st : state)
    (doc_id : string) (d : rule_doc) :
  enabled d = Some false → (get_rules_body w (sel, st) (doc_id, d)).1 = sel.
Proof.
  intros He. rewrite get_rules_body_selected, He. by destruct (last_run d) as [[?|?]|].
Qed.

(** A document whose last_run is absent or does not parse is skipped. *)
Lemma no_last_run_never_selected (w : World) (sel : list rule_doc) (st : state)
    (doc_id : string) (d : rule_doc) :
  last_run d = None → get_rules_body w (sel, st) (doc_id, d) = (sel, st).
Proof. intros H. unfold get_rules_body. by rewrite H. Qed.

(** A document whose last_run carries a UTC offset is never selected:
    the subtraction from datetime.now() raises, and the loop goes on. The
    rules collection is left as it was. *)
Lemma aware_last_run_skipped (w : World) (sel : list rule_doc) (st : state)
    (doc_id : string) (d : rule_doc) (t : Z) :
  last_run d = Some (Aware t) →
  (get_rules_body w (sel, st) (doc_id, d)).1 = sel ∧
  rules (get_rules_body w (sel, st) (doc_id, d)).2 = rules st.
Proof.
  intros H. unfold get_rules_body. rewrite H. by destruct (default true (enabled d)).
Qed.

(** The default last_run of the backend's model, 1970-01-01T00:00:00+00:00,
    on an enabled rule with an interval of 60 s, read in 2001. *)
Example backend_default_skipped :
  (get_rules_body Samples.world ([], Samples.start_state)
     ("hot", Probes.aware_rule)).1 = [].
Proof. reflexivity. Qed.


(** The get_rules of the tree engine has the same default for enabled:
    a document without the field is kept when it parses, and the rule
    built from it is enabled; a disabled one is left out. *)
Lemma tree_get_rules_default (rules : list Tree.Rule) (doc_id : string)
    (data : Tree.tree_rule_doc) (rule : Tree.Rule) :
  Tree.doc_enabled data = None →
  Tree.Rule_from_dict doc_id data = Ok rule →
  Tree.get_rules_body rules (doc_id, data) = rules ++ [rule] ∧ Tree.enabled rule = true.
Proof.
  intros He Hp. unfold Tree.get_rules_body. simpl. rewrite He, Hp. simpl. split; [done|].
  unfold Tree.Rule_from_dict in Hp. rewrite He in Hp.
  destruct (Tree.key "name" (Tree.doc_name data)); simpl in Hp; [|done].
  destruct (Tree.key "logic" (Tree.doc_logic data)); simpl in Hp; [|done].
  destruct (Tree.LogicalExpression_from_dict _); simpl in Hp; [|done].
  by injection Hp as <-.
Qed.

Lemma tree_get_rules_disabled (rules : list Tree.Rule) (doc_id : string)
    (data : Tree.tree_rule_doc) :
  Tree.doc_enabled data = Some false → Tree.get_rules_body rules (doc_id, data) = rules.
Proof. intros He. unfold Tree.get_rules_body. simpl. by rewrite He. Qed.

Example tree_get_rules_bare :
  (λ r, (Tree.id r, Tree.enabled r)) <$> Tree.get_rules [("bare", Samples.bare_tree_rule)]
    = [("bare", true)].
Proof. by vm_compute. Qed.

(** *** The whole pass *)

Lemma foldl_step {A B : Type} (f : A → B → A) (a : A) (x : B) (l : list B) :
  foldl f a (x :: l) = foldl f (f a x) l.
Proof. reflexivity. Qed.

Lemma get_rules_fold_due (w : World) (now : Z) (docs : list (string * rule_doc)) :
  (∀ n, clock w n = now) →
  Forall (λ doc, is_Some (enabled doc.2) ∧ is_Some (interval doc.2) ∧
                 ∃ last, last_run doc.2 = Some (Naive last) ∧
                         (- 2 ^ 53 < now - last < 2 ^ 53)%Z)
    docs →
  ∀ (sel : list rule_doc) (s : state),
    (foldl (get_rules_body w) (sel, s) docs).1 =
    sel ++ ((λ doc, set_id doc.1 doc.2) <$> dueRules docs now).
Proof.
  intros Hclock Hall. unfold dueRules.
  induction Hall as [|[i d] docs ([e He] & [iv Hi] & (last & Hl & Hrange)) _ IH]; intros sel s.
  - simpl. by rewrite app_nil_r.
  - rewrite foldl_step. simpl in He, Hi, Hl, Hrange.
    pose proof (get_rules_body_selected w sel s i d) as Hsel.
    destruct (get_rules_body w (sel, s) (i, d)) as [sel1 s1]. simpl in Hsel.
    rewrite IH, Hsel, Hl, He, Hi, Hclock. simpl.
    rewrite TimeFacts.interval_passed_exact by done.
    destruct (decide (due now d = true)) as [Hd|Hd].
    + rewrite filter_cons_True by done. unfold due in Hd. rewrite He, Hi, Hl in Hd.
      rewrite Hd. simpl. by rewrite <- app_assoc.
    + rewrite filter_cons_False by done. unfold due in Hd. rewrite He, Hi, Hl in Hd.
      by apply not_true_is_false in Hd as ->.
Qed.

(** With a clock that stands still at [now], on documents with the three
    fields whose last_run is a naive timestamp less than 2^53
    microseconds away, get_rules returns the specification's dueRules,
    each with its document id written in. *)
Lemma get_rules_is_dueRules (w : World) (st : state) (now : Z) :
  (∀ n, clock w n = now) →
  Forall (λ doc, is_Some (enabled doc.2) ∧ is_Some (interval doc.2) ∧
                 ∃ last, last_run doc.2 = Some (Naive last) ∧
                         (- 2 ^ 53 < now - last < 2 ^ 53)%Z)
    (rules st) →
  (get_rules w st).1 = (λ doc, set_id doc.1 doc.2) <$> dueRules (rules st) now.
Proof.
  intros Hclock Hall. unfold get_rules.
  by rewrite (get_rules_fold_due w now (rules st) Hclock Hall).
Qed.

(** *** What a pass writes *)

Lemma same_but_last_run_refl (d : rule_doc) : same_but_last_run d d.
Proof. by repeat split. Qed.

Lemma same_but_last_run_set (t : Z) (a b : rule_doc) :
  same_but_last_run a b → same_but_last_run a (set_last_run t b).
Proof. by intros (? & ? & ? & ? & ? & ? & ?). Qed.

Lemma write_last_run_frame (i : string) (t : Z) (docs l : list (string * rule_doc)) :
  Forall2 doc_frame l docs →
  Forall2 doc_frame l (write_last_run i t docs).
Proof.
  unfold write_last_run. intros H. apply Forall2_fmap_r.
  eapply Forall2_impl; [exact H|].
  intros [j a] [j' b] [Hj Hs]. simpl in *.
  destruct (String.eqb j' i); split; simpl; auto using same_but_last_run_set.
Qed.

Lemma write_last_run_hit (i : string) (t : Z) (docs : list (string * rule_doc))
    (d : rule_doc) :
  (i, d) ∈ docs → (i, set_last_run t d) ∈ write_last_run i t docs.
Proof.
  unfold write_last_run. intros H.
  apply list_elem_of_fmap. exists (i, d). simpl. by rewrite String.eqb_refl.
Qed.

Lemma write_last_run_miss (i j : string) (t : Z) (docs : list (string * rule_doc))
    (d : rule_doc) :
  j ≠ i → (j, d) ∈ docs → (j, d) ∈ write_last_run i t docs.
Proof.
  unfold write_last_run. intros Hne H.
  apply list_elem_of_fmap. exists (j, d). simpl.
  destruct (String.eqb_spec j i); [done | by split].
Qed.

Lemma write_last_run_ids (i : string) (t : Z) (docs : list (string * rule_doc)) :
  (write_last_run i t docs).*1 = docs.*1.
Proof.
  unfold write_last_run. rewrite <- list_fmap_compose.
  apply list_fmap_ext. intros _ [j d] _. simpl. by destruct (String.eqb j i).
Qed.

(** The two ways the loop body of get_rules ends: the document is not
    selected and the collection stays as it is, or it is selected, after
    two clock readings, and the collection has taken the stamp or, when
    the store refuses the write, stays as it is. *)
Lemma get_rules_body_cases (w : World) (sel : list rule_doc) (s : state) (i : string)
    (d : rule_doc) :
  let out := get_rules_body w (sel, s) (i, d) in
  (out.1 = sel ∧ rules out.2 = rules s ∧ tick s ≤ tick out.2 ∧
   execution_context out.2 = execution_context s ∧ outbox out.2 = outbox s) ∨
  (∃ last,
     last_run d = Some (Naive last) ∧ default true (enabled d) = true ∧
     interval_passed (clock w (tick s) - last) (default 3600%Z (interval d)) = true ∧
     out.1 = sel ++ [set_id i d] ∧
     rules out.2 = (if stores w (S (S (tick s))) i
                    then write_last_run i (clock w (S (tick s))) (rules s)
                    else rules s) ∧
     tick out.2 = S (S (tick s)) ∧
     execution_context out.2 = execution_context s ∧ outbox out.2 = outbox s).
Proof.
  unfold get_rules_body, now. simpl.
  destruct (last_run d) as [[last|last]|]; [| |left; auto].
  - destruct (default true (enabled d)); [|left; simpl; auto with lia]. simpl.
    destruct (interval_passed _ _) eqn:Hp; [|left; simpl; auto with lia].
    right. exists last. unfold update_last_run. simpl.
    destruct (stores w (S (S (tick s))) i); simpl; repeat split; done.
  - destruct (default true (enabled d)); left; simpl; auto with lia.
Qed.

(** The invariant of the for loop of get_rules, over the documents still
    to come: every rule it selects was found due at a clock reading [k],
    and the collection holds its document with the stamp read at [S k],
    or unchanged when the store refused that write. *)
Lemma get_rules_fold (w : World) (todo : list (string * rule_doc)) :
  ∀ (sel : list rule_doc) (s : state),
    NoDup todo.*1 →
    let out := foldl (get_rules_body w) (sel, s) todo in
    tick s ≤ tick out.2 ∧
    execution_context out.2 = execution_context s ∧ outbox out.2 = outbox s ∧
    (rules out.2).*1 = (rules s).*1 ∧
    (∀ l, Forall2 doc_frame l (rules s) → Forall2 doc_frame l (rules out.2)) ∧
    (∀ j d0, j ∉ todo.*1 → (j, d0) ∈ rules s → (j, d0) ∈ rules out.2) ∧
    ∃ new_sel,
      out.1 = sel ++ new_sel ∧
      ∀ rule, rule ∈ new_sel →
        ∃ i d k last,
          (i, d) ∈ todo ∧ rule = set_id i d ∧ last_run d = Some (Naive last) ∧
          default true (enabled d) = true ∧
          interval_passed (clock w k - last) (default 3600%Z (interval d)) = true ∧
          tick s ≤ k ∧ S k < tick out.2 ∧
          ∀ d0, (i, d0) ∈ rules s →
                (i, if stores w (S (S k)) i then set_last_run (clock w (S k)) d0 else d0)
                  ∈ rules out.2.
Proof.
  induction todo as [|[i d] todo IH]; intros sel s Hnd out.
  - subst out. simpl. repeat split; auto.
    exists []. split; [by rewrite app_nil_r|]. intros rule Hin. by apply elem_of_nil in Hin.
  - subst out. rewrite foldl_step. rewrite fmap_cons in Hnd. simpl in Hnd.
    apply NoDup_cons in Hnd as [Hi Hnd].
    pose proof (get_rules_body_cases w sel s i d) as Hbody.
    destruct (get_rules_body w (sel, s) (i, d)) as [sel1 s1]. simpl in Hbody.
    specialize (IH sel1 s1 Hnd). simpl in IH.
    destruct IH as (Ht & Hc & Ho & Hids & Hframe & Hkeep & new_sel & Hsel & Hnew).
    destruct Hbody as [(-> & Hr & Ht1 & Hc1 & Ho1) |
                       (last & Hl & He & Hp & -> & Hr2 & Ht2 & Hc2 & Ho2)].
    + split; [lia|]. split; [congruence|]. split; [congruence|].
      split; [congruence|].
      split; [intros l Hl; apply Hframe; by rewrite Hr|].
      split.
      { intros j d0 Hj Hin. apply Hkeep; [|by rewrite Hr].
        intros Hjt. apply Hj. simpl. by right. }
      exists new_sel. split; [done|].
      intros rule Hin.
      destruct (Hnew rule Hin) as (i' & d' & k & last & H1 & H2 & H3 & H4 & H5 & H6 & H7 & H8).
      exists i', d', k, last. repeat split; try done; [by right | lia |].
      intros d0 Hd0. apply H8. by rewrite Hr.
    + assert (Hmiss : ∀ j d0, j ≠ i → (j, d0) ∈ rules s → (j, d0) ∈ rules s1).
      { intros j d0 Hne Hin. rewrite Hr2.
        destruct (stores w (S (S (tick s))) i); [|done].
        by apply write_last_run_miss. }
      split; [lia|]. split; [congruence|]. split; [congruence|].
      split.
      { rewrite Hids, Hr2. destruct (stores w (S (S (tick s))) i); [|done].
        apply write_last_run_ids. }
      split.
      { intros l Hfr. apply Hframe. rewrite Hr2.
        destruct (stores w (S (S (tick s))) i); [|done].
        by apply write_last_run_frame. }
      split.
      { intros j d0 Hj Hin. apply Hkeep.
        - intros Hjt. apply Hj. by right.
        - apply Hmiss; [|done]. intros ->. apply Hj. by left. }
      exists (set_id i d :: new_sel). split; [by rewrite Hsel, <- app_assoc|].
      intros rule Hin. apply elem_of_cons in Hin as [-> | Hin].
      * exists i, d, (tick s), last. repeat split; try done; [by left | lia |].
        intros d0 Hd0. apply Hkeep; [done|]. rewrite Hr2.
        destruct (stores w (S (S (tick s))) i); [|done].
        by apply write_last_run_hit.
      * destruct (Hnew rule Hin)
          as (i' & d' & k & last' & H1 & H2 & H3 & H4 & H5 & H6 & H7 & H8).
        exists i', d', k, last'. repeat split; try done; [by right | lia |].
        intros d0 Hd0. apply H8. apply Hmiss; [|done].
        intros ->. apply Hi. apply list_elem_of_fmap. by exists (i, d').
Qed.

(** *** What the engine leaves alone *)

Lemma execute_rule_verdict (fuel : nat) (w : World) (rule : rule_doc) (st : state) :
  execute_rule fuel w rule st =
  match run fuel w rule with
  | None => None
  | Some (r, context, sent) =>
      Some (verdict rule r (clock w (tick st)),
            {| execution_context := context; tick := S (tick st); rules := rules st;
               outbox := outbox st ++ sent |})
  end.
Proof.
  rewrite WalkFacts.execute_rule_run.
  destruct (run fuel w rule) as [[[r c] sent]|]; [|done].
  unfold finish, now, verdict, with_effect. simpl. by destruct r.
Qed.

Lemma execute_rules_frame (fuel : nat) (w : World) (l : list rule_doc) :
  ∀ (acc : list rule_result) (st : state) results (st' : state),
    execute_rules fuel w l acc st = Some (results, st') →
    rules st' = rules st ∧
    ∃ new, results = acc ++ new ∧
           Forall2 (result_of_run fuel w) l new.
Proof.
  induction l as [|rule l IH]; intros acc st results st'; simpl.
  - intros [= <- <-]. split; [done|]. exists []. by rewrite app_nil_r.
  - rewrite execute_rule_verdict.
    destruct (run fuel w rule) as [[[r c] sent]|] eqn:Hrun; [|done].
    intros H. apply IH in H as [Hr (new & -> & Hall)]. simpl in Hr.
    split; [done|]. exists (verdict rule r (clock w (tick st)) :: new).
    split; [by rewrite <- app_assoc|].
    constructor; [|done]. by exists r, c, sent, (clock w (tick st)).
Qed.

(** C8, as the code has it: in a cycle over a collection with distinct
    document ids, every rule get_rules selects is run, and before any
    rule runs get_rules has issued the write of its last_run, the clock
    reading right after the reading that found the rule due. When the
    store takes the write, the document holds that stamp after the cycle;
    when it refuses, the document is as it was. The runs, whatever their
    results, leave the collection as get_rules left it. Between the start
    and the end of the cycle every document keeps its id and every field
    but last_run, and the list of documents keeps its length and order. *)
Theorem stamp_precedes_run (fuel : nat) (w : World) (st st' : state)
    (results : list rule_result) :
  NoDup (rules st).*1 →
  evaluate_all_rules fuel w st = Some (results, st') →
  let selected := (get_rules w st).1 in
  rules st' = rules (get_rules w st).2 ∧
  Forall2 (λ rule res, rule_id res = rule_id_field rule) selected results ∧
  (∀ rule, rule ∈ selected →
     ∃ i d k last,
       (i, d) ∈ rules st ∧ rule = set_id i d ∧ last_run d = Some (Naive last) ∧
       interval_passed (clock w k - last) (default 3600%Z (interval d)) = true ∧
       (i, if stores w (S (S k)) i then set_last_run (clock w (S k)) d else d) ∈ rules st') ∧
  Forall2 doc_frame (rules st) (rules st').
Proof.
  intros Hnd Hev selected. unfold evaluate_all_rules in Hev.
  pose proof (get_rules_fold w (rules st) [] st Hnd) as Hfold.
  unfold selected, get_rules. fold (get_rules w st) in *.
  change (foldl (get_rules_body w) ([], st) (rules st)) with (get_rules w st) in *.
  destruct (get_rules w st) as [sel st1]. simpl in *.
  destruct Hfold as (_ & _ & _ & _ & Hframe & _ & new_sel & -> & Hnew).
  apply execute_rules_frame in Hev as [Hr (new & -> & Hall)]. simpl in *.
  rewrite Hr. split; [done|]. split; [|split].
  - eapply Forall2_impl; [exact Hall|].
    intros rule res (r & c & sent & t & _ & ->). by destruct r.
  - intros rule Hin.
    destruct (Hnew rule Hin) as (i & d & k & last & H1 & H2 & H3 & H4 & H5 & H6 & H7 & H8).
    exists i, d, k, last. repeat split; try done. by apply H8.
  - apply Hframe. apply Forall_Forall2_diag, Forall_forall.
    intros [i d] _. split; [done | apply same_but_last_run_refl].
Qed.

(** A cycle over [Samples.store_state]: two rules are due, one of them
    fails with a KeyError, and both carry the new last_run afterwards. *)
Lemma stamp_precedes_run_witness :
  ∃ results st',
    NoDup (rules Samples.store_state).*1 ∧
    evaluate_all_rules 5 Samples.world Samples.store_state = Some (results, st') ∧
    error <$> results = [None; Some (KeyError "ghost")] ∧
    (λ doc, (doc.1, last_run doc.2)) <$> rules st'
      = [("hot", Some (Naive 1000000001)); ("broken", Some (Naive 1000000003));
         ("bare", Some (Naive 0))] ∧
    Forall2 doc_frame (rules Samples.store_state) (rules st').
Proof.
  eexists _, _.
  assert (NoDup (rules Samples.store_state).*1) as Hnd
    by (apply (bool_decide_unpack _); by vm_compute).
  split; [exact Hnd|]. split; [vm_compute; reflexivity|].
  split; [by vm_compute|]. split; [by vm_compute|].
  eapply (stamp_precedes_run 5 Samples.world Samples.store_state _ _ Hnd).
  vm_compute; reflexivity.
Defined.

(** C8, refuted as stated: in [Probes.refusing_world] the update of
    last_run raises. The two due rules of [Samples.store_state] are
    dispatched and run all the same, and their documents keep the
    last_run they had. *)
Lemma dispatched_without_stamp :
  ∃ results st',
    evaluate_all_rules 5 Probes.refusing_world Samples.store_state = Some (results, st') ∧
    rule_id <$> results = [Some "hot"; Some "broken"] ∧
    triggered <$> results = [true; false] ∧
    (λ doc, (doc.1, last_run doc.2)) <$> rules st'
      = [("hot", Some (Naive 0)); ("broken", Some (Naive 0)); ("bare", Some (Naive 0))].
Proof. eexists _, _. split; [vm_compute; reflexivity | by vm_compute]. Qed.

End SchedulerFacts.

(** ** Rules that fail *)

Module ContainmentFacts.
Import Py Engine Reading.







(** A KeyError raised in the loop becomes the error of the result. *)
Lemma walk_error_result (fuel : nat) (w : World) (rule : rule_doc) (st st1 : state) nodes
    (current : Node) (e : exn) :
  load rule = Ok (nodes, current) →
  walk fuel w nodes current [] (set_context ∅ st) = Some (Raise e, st1) →
  ∃ st', execute_rule fuel w rule st = Some (errored rule e (clock w (tick st1)), st') ∧
         outbox st' = outbox st1.
Proof.
  intros Hl Hw. unfold execute_rule. rewrite Hl, Hw. unfold finish, now. simpl.
  by eexists.
Qed.


(** [Samples.no_start_rule] names a start node its list does not hold. *)
Example no_start_rule_fails :
  ∃ st',
    execute_rule 0 Samples.world Samples.no_start_rule Samples.start_state
      = Some (errored Samples.no_start_rule (KeyError "nowhere") 1000000000, st') ∧
    outbox st' = [].
Proof. eexists. split; [vm_compute; reflexivity | by vm_compute]. Qed.


End ContainmentFacts.

(** ** Topics and the message store *)

Module TopicFacts.
Import Py Probes.

Lemma append_cons (x : ascii) (a b : string) : String x a +:+ b = String x (a +:+ b).
Proof. reflexivity. Qed.

Lemma append_assoc (a b c : string) : (a +:+ b) +:+ c = a +:+ (b +:+ c).
Proof. induction a as [|x a IH]; [done|]. by rewrite !append_cons, IH. Qed.

Lemma occurs_append (c : ascii) (a b : string) :
  occurs c (a +:+ b) = occurs c a || occurs c b.
Proof.
  induction a as [|x a IH]; [done|].
  change (occurs c (String x a +:+ b)) with (Ascii.eqb c x || occurs c (a +:+ b)).
  by rewrite IH, orb_assoc.
Qed.

Lemma safe_cons (c : ascii) (rest : string) :
  Engine._safe_topic_id (String c rest) = piece c +:+ Engine._safe_topic_id rest.
Proof. reflexivity. Qed.

Lemma safe_append (a b : string) :
  Engine._safe_topic_id (a +:+ b) = Engine._safe_topic_id a +:+ Engine._safe_topic_id b.
Proof.
  induction a as [|x a IH]; [done|].
  change (String x a +:+ b) with (String x (a +:+ b)).
  by rewrite !safe_cons, IH, append_assoc.
Qed.

Lemma piece_clean (c : ascii) :
  occurs "/" (piece c) = false ∧ occurs "." (piece c) = false ∧
  occurs "#" (piece c) = false ∧ occurs "+" (piece c) = false ∧
  Engine._safe_topic_id (piece c) = piece c.
Proof.
  unfold piece.
  destruct (Ascii.eqb_spec c "/") as [->|H1]; [by vm_compute|].
  destruct (Ascii.eqb_spec c ".") as [->|H2]; [by vm_compute|].
  destruct (Ascii.eqb_spec c "#") as [->|H3]; [by vm_compute|].
  destruct (Ascii.eqb_spec c "+") as [->|H4]; [by vm_compute|].
  assert (∀ d, c ≠ d → Ascii.eqb c d = false ∧ Ascii.eqb d c = false) as E.
  { intros d H. split; apply Ascii.eqb_neq; congruence. }
  destruct (E _ H1) as [A1 B1]. destruct (E _ H2) as [A2 B2].
  destruct (E _ H3) as [A3 B3]. destruct (E _ H4) as [A4 B4].
  cbn [occurs]. rewrite B1, B2, B3, B4, safe_cons. unfold piece.
  by rewrite A1, A2, A3, A4.
Qed.

Lemma safe_without (c : ascii) (topic : string) :
  (∀ d, occurs c (piece d) = false) →
  occurs c (Engine._safe_topic_id topic) = false.
Proof.
  intros H. induction topic as [|d topic IH]; [done|].
  by rewrite safe_cons, occurs_append, H, IH.
Qed.

(** X1: the collection name the engine derives from a topic holds none of
    the characters / . # +, and deriving it twice changes nothing. *)
Theorem safe_topic_id_clean (topic : string) :
  occurs "/" (Engine._safe_topic_id topic) = false ∧
  occurs "." (Engine._safe_topic_id topic) = false ∧
  occurs "#" (Engine._safe_topic_id topic) = false ∧
  occurs "+" (Engine._safe_topic_id topic) = false ∧
  Engine._safe_topic_id (Engine._safe_topic_id topic) = Engine._safe_topic_id topic.
Proof.
  repeat split; try (apply safe_without; intros d; apply piece_clean).
  induction topic as [|d topic IH]; [done|].
  rewrite safe_cons, safe_append, IH. f_equal. apply piece_clean.
Qed.

(** X2: topics that differ only in a /, a . or a _ at one place have one
    collection, so the engine reads the same value for each of them. *)
Theorem separators_collide (w : Engine.World) (a b : string) :
  Engine.get_latest_value w (VStr (a +:+ "/" +:+ b))
    = Engine.get_latest_value w (VStr (a +:+ "." +:+ b)) ∧
  Engine.get_latest_value w (VStr (a +:+ "/" +:+ b))
    = Engine.get_latest_value w (VStr (a +:+ "_" +:+ b)).
Proof.
  assert (∀ sep, Engine._safe_topic_id sep = "_" →
                 Engine._safe_topic_id (a +:+ sep +:+ b)
                 = Engine._safe_topic_id a +:+ "_" +:+ Engine._safe_topic_id b) as H.
  { intros sep Hs. by rewrite !safe_append, Hs. }
  unfold Engine.get_latest_value.
  by rewrite (H "/" eq_refl), (H "." eq_refl), (H "_" eq_refl).
Qed.

(** *** The ingestor's document id *)

Lemma ingest_keeps (c : ascii) (topic : string) :
  c ≠ "/"%char → c ≠ "."%char → c ≠ "_"%char →
  occurs c (Ingest._safe_topic_id topic) = occurs c topic.
Proof.
  intros H1 H2 H3. induction topic as [|d topic IH]; [done|].
  cbn [Ingest._safe_topic_id occurs]. rewrite IH. f_equal.
  destruct (Ascii.eqb_spec d "/") as [->|?];
    [by rewrite !(proj2 (Ascii.eqb_neq _ _))|].
  destruct (Ascii.eqb_spec d ".") as [->|?];
    [by rewrite !(proj2 (Ascii.eqb_neq _ _))|].
  done.
Qed.

Lemma ingest_id_same (topic : string) :
  occurs "#" topic = false → occurs "+" topic = false →
  Ingest._safe_topic_id topic = Engine._safe_topic_id topic.
Proof.
  induction topic as [|d topic IH]; [done|].
  cbn [occurs]. intros [H1 Ht1]%orb_false_elim [H2 Ht2]%orb_false_elim.
  rewrite safe_cons. cbn [Ingest._safe_topic_id]. rewrite (IH Ht1 Ht2).
  unfold piece. rewrite Ascii.eqb_sym in H1. rewrite Ascii.eqb_sym in H2.
  rewrite H1, H2.
  by destruct (Ascii.eqb d "/"), (Ascii.eqb d ".").
Qed.

(** X3: the ingestor and the engine derive the same name from a topic
    exactly when the topic holds no # and no +. *)
Theorem ingest_id_agrees (topic : string) :
  Ingest._safe_topic_id topic = Engine._safe_topic_id topic ↔
  occurs "#" topic = false ∧ occurs "+" topic = false.
Proof.
  split; [|intros [H1 H2]; by apply ingest_id_same].
  intros H. split.
  - rewrite <- (ingest_keeps "#" topic) by done. rewrite H.
    apply safe_without. intros d. apply piece_clean.
  - rewrite <- (ingest_keeps "+" topic) by done. rewrite H.
    apply safe_without. intros d. apply piece_clean.
Qed.

(** *** From a message to a reading *)

Lemma latest_snoc (c : string) (msgs : list (string * Ingest.doc_data)) (doc : Ingest.doc_data) :
  Ingest.latest c (msgs ++ [(c, doc)]) = Some (Ingest.d_value doc).
Proof.
  unfold Ingest.latest. rewrite filter_app, filter_cons_True by done.
  rewrite filter_nil. by rewrite last_snoc.
Qed.

Lemma latest_other (c c' : string) (msgs : list (string * Ingest.doc_data))
    (doc : Ingest.doc_data) :
  c ≠ c' → Ingest.latest c (msgs ++ [(c', doc)]) = Ingest.latest c msgs.
Proof.
  intros Hne. unfold Ingest.latest. rewrite filter_app, filter_cons_False.
  - rewrite filter_nil. by rewrite app_nil_r.
  - simpl. congruence.
Qed.

(** The messages after a message with a payload of the expected shape. *)
Lemma on_message_messages (collection_name : string) (clock : nat → Z) (msg : Ingest.message)
    (st : Ingest.state) d v immediate :
  Ingest.payload msg = Some (VDict d) →
  assoc "value" d = Some v → assoc "immediate" d = Some immediate →
  ∃ doc,
    Ingest.d_value doc = v ∧
    Ingest.messages (Ingest._on_message collection_name clock msg st) =
    Ingest.messages st ++
      [((collection_name +:+ "/" +:+ Ingest._safe_topic_id (Ingest.topic msg)) +:+ "/messages",
        doc)].
Proof.
  intros Hp Hv Hi. unfold Ingest._on_message. rewrite Hp, Hv, Hi.
  eexists. split; [|by destruct (truthy immediate)]. done.
Qed.

(** X4: a message with a value and an immediate field, stored by the
    ingestor under mqtt_values, is what the engine reads for its topic
    afterwards (the topic of a message is a topic name: it holds no
    wildcard # or +). *)
Theorem ingested_value_is_read (clock : nat → Z) (accepts : value → value → bool)
    (msg : Ingest.message) (st : Ingest.state) d v immediate :
  Ingest.payload msg = Some (VDict d) →
  assoc "value" d = Some v → assoc "immediate" d = Some immediate →
  occurs "#" (Ingest.topic msg) = false → occurs "+" (Ingest.topic msg) = false →
  Engine.get_latest_value
    (Ingest.world_of (Ingest._on_message "mqtt_values" clock msg st) accepts clock)
    (VStr (Ingest.topic msg)) = v.
Proof.
  intros Hp Hv Hi H1 H2.
  destruct (on_message_messages "mqtt_values" clock msg st d v immediate Hp Hv Hi)
    as (doc & Hd & Hm).
  unfold Engine.get_latest_value, Ingest.world_of. simpl. rewrite Hm.
  rewrite (ingest_id_same _ H1 H2).
  replace (("mqtt_values" +:+ "/" +:+ Engine._safe_topic_id (Ingest.topic msg)) +:+ "/messages")
    with ("mqtt_values/" +:+ Engine._safe_topic_id (Ingest.topic msg) +:+ "/messages")
    by (by rewrite !append_assoc).
  by rewrite latest_snoc, Hd.
Qed.

Lemma ingested_value_is_read_witness :
  Engine.get_latest_value
    (Ingest.world_of
       (Ingest._on_message "mqtt_values" (λ n, Z.of_nat n) reading empty_store)
       (λ _ _, true) (λ n, Z.of_nat n))
    (VStr "sensors/t.1") = VInt 31.
Proof.
  exact (ingested_value_is_read (λ n, Z.of_nat n) (λ _ _, true) reading empty_store
           [("value", VInt 31); ("immediate", VBool true)] (VInt 31) (VBool true)
           eq_refl eq_refl eq_refl eq_refl eq_refl).
Defined.

(** X5: a message changes the reading of no topic with another
    collection, and a message whose payload is no JSON object with the
    keys value and immediate changes nothing at all. *)
Theorem on_message_frame (collection_name : string) (clock : nat → Z) (msg : Ingest.message)
    (st : Ingest.state) :
  (∀ c, c ≠ (collection_name +:+ "/" +:+ Ingest._safe_topic_id (Ingest.topic msg))
            +:+ "/messages" →
        Ingest.latest c (Ingest.messages (Ingest._on_message collection_name clock msg st))
        = Ingest.latest c (Ingest.messages st)) ∧
  ((∀ d, Ingest.payload msg = Some (VDict d) →
         assoc "value" d = None ∨ assoc "immediate" d = None) →
   Ingest._on_message collection_name clock msg st = st).
Proof.
  split.
  - intros c Hc. unfold Ingest._on_message.
    destruct (Ingest.payload msg) as [[| | | | |d]|]; try done.
    destruct (assoc "value" d) as [v|]; [|done].
    destruct (assoc "immediate" d) as [immediate|]; [|done].
    destruct (truthy immediate); simpl; by apply latest_other.
  - intros H. unfold Ingest._on_message.
    destruct (Ingest.payload msg) as [[| | | | |d]|]; try done.
    destruct (H d eq_refl) as [-> | Hi]; [done|].
    rewrite Hi. by destruct (assoc "value" d).
Qed.

End TopicFacts.

(** ** Whole runs of the node engine *)

Module RunFacts.
Import Py Engine Reading Probes.

(** *** Enumerations *)

(** X6: NodeType and Operation are read back from their values: the
    member built from a text has that text as its value, and the member
    built from a member's value is that member. A text that is no value
    of a member is refused. *)
Theorem enum_round_trip :
  (∀ t, NodeType_of (NodeType_value t) = Ok t) ∧
  (∀ s t, NodeType_of s = Ok t ↔ NodeType_value t = s) ∧
  (∀ o, Operation_of (VStr (Operation_value o)) = Ok o) ∧
  (∀ v o, Operation_of v = Ok o ↔ v = VStr (Operation_value o)).
Proof.
  assert (∀ t, NodeType_of (NodeType_value t) = Ok t) as H1 by (by intros []).
  assert (∀ o, Operation_of (VStr (Operation_value o)) = Ok o) as H2 by (by intros []).
  split; [done|]. split; [|split; [done|]].
  - intros s t. split; [|by intros <-].
    unfold NodeType_of.
    repeat match goal with
           | |- context [String.eqb s ?x] =>
               destruct (String.eqb_spec s x) as [->|_]; [by intros [= <-]|]
           end.
    done.
  - intros v o. split; [|by intros ->].
    destruct v as [| | |s| |]; try done. unfold Operation_of.
    repeat match goal with
           | |- context [String.eqb s ?x] =>
               destruct (String.eqb_spec s x) as [->|_]; [by intros [= <-]|]
           end.
    done.
Qed.

Lemma NodeType_of_value (s : string) (t : NodeType) :
  NodeType_of s = Ok t → NodeType_value t = s.
Proof.
  unfold NodeType_of.
  repeat match goal with
         | |- context [String.eqb s ?x] =>
             destruct (String.eqb_spec s x) as [->|_]; [by intros [= <-]|]
         end.
  done.
Qed.

(** *** What a run sends *)

Lemma compare_sends_nothing context (node : Node) :
  requests_of [outcome_of node (execute_compare_node context node)] = [].
Proof.
  unfold execute_compare_node, requests_of.
  repeat (match goal with
          | |- context [mbind _ ?c] => destruct c; simpl
          | |- context [match ops ?o with _ => _ end] => destruct (ops o); simpl
          end; try done).
Qed.

Lemma logical_sends_nothing context (node : Node) :
  requests_of [outcome_of node (execute_logical_node context node)] = [].
Proof.
  unfold execute_logical_node, requests_of.
  repeat (match goal with
          | |- context [mbind _ ?c] => destruct c; simpl
          end; try done).
Qed.

Lemma node_effect_requests (w : World) (node : Node) context :
  (node_effect w node context).2 = requests_of [outcome_of node (node_effect w node context).1.1] ∧
  consistent (outcome_of node (node_effect w node context).1.1).
Proof.
  unfold node_effect, consistent.
  destruct (node_type node) eqn:Ht; cbn [fst snd].
  - unfold execute_get_data_node, reports_published, outcome_of. rewrite Ht.
    destruct (negb (truthy _)); simpl; by split.
  - rewrite compare_sends_nothing. split; [done|].
    unfold reports_published, outcome_of. rewrite Ht. simpl. by split.
  - rewrite logical_sends_nothing. split; [done|].
    unfold reports_published, outcome_of. rewrite Ht. simpl. by split.
  - rewrite logical_sends_nothing. split; [done|].
    unfold reports_published, outcome_of. rewrite Ht. simpl. by split.
  - unfold reports_published, outcome_of. rewrite Ht.
    destruct (accepts w _ _); simpl; by split.
  - unfold reports_published, outcome_of. rewrite Ht. simpl. by split.
Qed.

Lemma requests_of_app (a b : list NodeOutcome) :
  requests_of (a ++ b) = requests_of a ++ requests_of b.
Proof. apply omap_app. Qed.

Lemma pass_requests (w : World) nodes (current : Node) context :
  (pass w nodes current context).1.2 = requests_of (pass w nodes current context).1.1.1 ∧
  Forall consistent (pass w nodes current context).1.1.1.
Proof.
  unfold pass.
  pose proof (node_effect_requests w current context) as [Hs Hc].
  destruct (node_effect w current context) as [[result context1] sent]. simpl in Hs, Hc.
  destruct (node_type current); try (by split);
    (destruct (negb (success result)); [by split; [|constructor]|]);
    try destruct (truthy (result_value result));
    match goal with |- context [match ?l with [] => _ | _ :: _ => _ end] =>
      destruct l as [|first ?]; [by split; [|constructor]|] end;
    destruct (nodes !! first); by split; [|constructor].
Qed.

Lemma trail_requests (fuel : nat) (w : World) nodes :
  ∀ (current : Node) context trace context' sent,
    trail fuel w nodes current context = Some (Ok trace, context', sent) →
    sent = requests_of trace ∧ Forall consistent trace.
Proof.
  induction fuel as [|fuel IH]; intros current context trace context' sent; [done|].
  rewrite WalkFacts.trail_S.
  pose proof (pass_requests w nodes current context) as [Hs Hc].
  destruct (pass w nodes current context) as [[[emitted context1] sent1] k].
  simpl in Hs, Hc. destruct k as [| e | node].
  - by intros [= <- _ <-].
  - done.
  - destruct (trail fuel w nodes node context1) as [[[r c2] sent2]|] eqn:Ht; [|done].
    destruct r as [t|e]; simpl; [|done].
    intros [= <- _ <-]. destruct (IH _ _ _ _ _ Ht) as [-> Hc2].
    split; [by rewrite requests_of_app, Hs | by apply Forall_app].
Qed.

Lemma consistent_trace (trace : list NodeOutcome) :
  Forall consistent trace →
  existsb reports_published trace = true ↔ requests_of trace ≠ [].
Proof.
  induction 1 as [|o trace Ho _ IH]; [done|]. unfold consistent in Ho.
  change (o :: trace) with ([o] ++ trace).
  rewrite existsb_app, requests_of_app, orb_true_iff. simpl existsb.
  rewrite orb_false_r, IH, Ho.
  destruct (requests_of [o]), (requests_of trace); simpl; intuition congruence.
Qed.

(** X7: on a run that returns its trace, the requests put on the action
    queue are exactly those of the trace entries with publish details, in
    the order of the trace, and triggered is true exactly when there is
    one. *)
Theorem run_sends_what_it_reports (fuel : nat) (w : World) (rule : rule_doc) (st st' : state)
    (res : rule_result) trace :
  execute_rule fuel w rule st = Some (res, st') →
  node_results res = Some trace →
  outbox st' = outbox st ++ requests_of trace ∧
  (triggered res = true ↔ requests_of trace ≠ []).
Proof.
  rewrite SchedulerFacts.execute_rule_verdict. unfold run.
  destruct (load rule) as [[nodes current]|e]; [|by intros [= <- _]].
  destruct (trail fuel w nodes current ∅) as [[[r c] sent]|] eqn:Ht; [|done].
  intros [= <- <-]. destruct r as [t|e]; simpl; [|done].
  intros [= ->]. destruct (trail_requests _ _ _ _ _ _ _ _ Ht) as [-> Hc].
  split; [done | by apply consistent_trace].
Qed.

Lemma run_sends_what_it_reports_witness :
  ∃ res st',
    execute_rule 4 Samples.world Samples.threshold_rule Samples.start_state = Some (res, st') ∧
    outbox st' = [] ++ [(VStr "email", VDict [("to", VStr "ops"); ("body", VStr "hot")])] ∧
    triggered res = true.
Proof.
  eexists _, _. split; [vm_compute; reflexivity|].
  destruct (run_sends_what_it_reports 4 Samples.world Samples.threshold_rule
              Samples.start_state _ _ _ ltac:(vm_compute; reflexivity) eq_refl) as [H1 H2].
  split; [exact H1|]. apply H2. vm_compute. discriminate.
Defined.

(** *** What a trace names *)

Lemma from_dict_sound (d : node_doc) (n : Node) :
  from_dict d = Ok n → node_id n = nd_id d ∧ NodeType_value (node_type n) = nd_type d.
Proof.
  unfold from_dict. destruct (NodeType_of (nd_type d)) as [t|e] eqn:Ht; simpl; [|done].
  intros [= <-]. simpl. split; [done | by apply NodeType_of_value].
Qed.

Lemma nodes_of_good (all docs : list node_doc) :
  (∀ d, d ∈ docs → d ∈ all) →
  ∀ acc table,
    (∀ k n, acc !! k = Some n → good all n) →
    nodes_of docs acc = Ok table →
    ∀ k n, table !! k = Some n → good all n.
Proof.
  induction docs as [|d docs IH]; intros Hsub acc table Hacc; simpl.
  - by intros [= <-].
  - destruct (from_dict d) as [node|e] eqn:Hd; simpl; [|done].
    apply IH.
    + intros d' Hin. apply Hsub. by right.
    + intros k n. rewrite lookup_insert. case_decide as Hk; [|by apply Hacc].
      intros [= <-]. destruct (from_dict_sound _ _ Hd) as [Hi Ht].
      exists d. split; [apply Hsub; by left | by rewrite Hi, Ht].
Qed.

Lemma pass_shape (w : World) nodes (current : Node) context :
  ((pass w nodes current context).1.1.1 = [] ∨
   (node_type current ≠ END ∧
    ∃ r, (pass w nodes current context).1.1.1 = [outcome_of current r])) ∧
  (∀ node, (pass w nodes current context).2 = Goto node → ∃ first, nodes !! first = Some node).
Proof.
  unfold pass.
  destruct (node_effect w current context) as [[result context1] sent].
  destruct (node_type current) eqn:Ht; try (split; [by left | done]);
    (split; [right; split; [done | by eexists; destruct (negb (success result));
                                     [|try destruct (truthy (result_value result));
                                       match goal with
                                       | |- context [match ?l with [] => _ | _ :: _ => _ end] =>
                                           destruct l as [|first ?]; [|destruct (nodes !! first)]
                                       end]] |]);
    (destruct (negb (success result)); [done|]);
    try destruct (truthy (result_value result));
    match goal with |- context [match ?l with [] => _ | _ :: _ => _ end] =>
      destruct l as [|first ?]; [done|] end;
    (destruct (nodes !! first) as [node0|] eqn:Hn; [|done]);
    intros node [= <-]; by exists first.
Qed.

Lemma trail_declared (w : World) nodes (docs : list node_doc) :
  (∀ k n, nodes !! k = Some n → good docs n) →
  ∀ fuel (current : Node) context trace context' sent,
    good docs current →
    trail fuel w nodes current context = Some (Ok trace, context', sent) →
    Forall (λ o, declared docs o ∧ out_type o ≠ "end") trace.
Proof.
  intros Htable fuel.
  induction fuel as [|fuel IH]; intros current context trace context' sent Hcur; [done|].
  rewrite WalkFacts.trail_S.
  pose proof (pass_shape w nodes current context) as [Hem Hgo].
  destruct (pass w nodes current context) as [[[emitted context1] sent1] k].
  simpl in Hem, Hgo.
  assert (Forall (λ o, declared docs o ∧ out_type o ≠ "end") emitted) as Hemitted.
  { destruct Hem as [-> | (Hend & r & ->)]; [constructor|].
    constructor; [|constructor]. split.
    - destruct Hcur as (d & Hin & Hi & Ht). by exists d.
    - simpl. by destruct (node_type current). }
  destruct k as [| e | node].
  - by intros [= <- _ _].
  - done.
  - destruct (trail fuel w nodes node context1) as [[[r c2] sent2]|] eqn:Ht; [|done].
    destruct r as [t|e]; simpl; [|done].
    intros [= <- _ _]. apply Forall_app. split; [done|].
    destruct (Hgo node eq_refl) as [first Hfirst].
    eapply IH; [|exact Ht]. by eapply Htable.
Qed.

(** X8: every entry of a returned trace has the id and the type of a node
    document of the rule, and none has the type end: an END node is
    never executed and never recorded. *)
Theorem trace_names_nodes (fuel : nat) (w : World) (rule : rule_doc) (st st' : state)
    (res : rule_result) docs trace :
  execute_rule fuel w rule st = Some (res, st') →
  nodes rule = Some docs →
  node_results res = Some trace →
  Forall (λ o, declared docs o ∧ out_type o ≠ "end") trace.
Proof.
  rewrite SchedulerFacts.execute_rule_verdict. unfold run, load. intros Hex Hdocs.
  rewrite Hdocs in Hex. simpl in Hex.
  destruct (nodes_of docs ∅) as [table|e] eqn:Htable; simpl in Hex;
    [|injection Hex as <- _; done].
  assert (∀ k n, table !! k = Some n → good docs n) as Hgood.
  { eapply nodes_of_good; [|by intros k n; rewrite lookup_empty|exact Htable]. done. }
  destruct (start_node rule) as [start|]; simpl in Hex; [|injection Hex as <- _; done].
  destruct (table !! start) as [current|] eqn:Hs; simpl in Hex;
    [|injection Hex as <- _; done].
  destruct (trail fuel w table current ∅) as [[[r c] sent]|] eqn:Ht; [|done].
  injection Hex as <- _. destruct r as [t|e]; simpl; [|done].
  intros [= <-]. eapply trail_declared; [exact Hgood | by eapply Hgood | exact Ht].
Qed.

Lemma trace_names_nodes_witness :
  ∃ res st' docs trace,
    execute_rule 4 Samples.world Samples.threshold_rule Samples.start_state = Some (res, st') ∧
    nodes Samples.threshold_rule = Some docs ∧
    node_results res = Some trace ∧
    length trace = 3 ∧
    Forall (λ o, declared docs o ∧ out_type o ≠ "end") trace.
Proof.
  eexists _, _, _, _.
  split; [vm_compute; reflexivity|]. split; [reflexivity|].
  split; [reflexivity|]. split; [reflexivity|].
  eapply (trace_names_nodes 4 Samples.world Samples.threshold_rule Samples.start_state);
    [vm_compute; reflexivity | reflexivity | reflexivity].
Defined.

End RunFacts.

(** ** COMPARE nodes *)

Module CompareFacts.
Import Py Engine Probes.

Lemma Operation_of_value (o : Operation) : Operation_of (VStr (Operation_value o)) = Ok o.
Proof. by destruct o. Qed.

Lemma ops_boolean (o : Operation) f (x y v : value) :
  ops o = Some f → f x y = Ok v → ∃ b, v = VBool b.
Proof.
  destruct o; intros [= <-]; unfold py_gt, py_ge, py_lt, py_le;
    try (destruct (py_cmp x y); simpl; intros [= <-]; by eexists);
    try (intros [= <-]; by eexists);
    destruct (py_in y x); simpl; intros [= <-]; by eexists.
Qed.

Lemma ops_negation (o : Operation) f g (x y : value) :
  ops o = Some f → ops (negation o) = Some g →
  match f x y, g x y with
  | Ok (VBool p), Ok (VBool q) => q = negb p
  | Raise _, Raise _ => True
  | _, _ => False
  end.
Proof.
  destruct o; intros [= <-] [= <-]; unfold py_gt, py_ge, py_lt, py_le;
    try (destruct (py_cmp x y) as [[]|]; by simpl);
    try (by rewrite ?negb_involutive);
    destruct (py_in y x) as [[]|]; by simpl.
Qed.

(** X9: a COMPARE node either fails with the value None and an error in
    its details, or succeeds with a boolean that its details repeat. When
    input1, input2 or operator is missing, or the operator is no
    Operation, it fails, with the text of the exception as its error: it
    is never silently false then. *)
Theorem compare_node_outcomes (context : gmap string value) (node : Node) :
  ((success (execute_compare_node context node) = true ∧
    ∃ (b : bool) i1 i2 o,
      result_value (execute_compare_node context node) = VBool b ∧
      details (execute_compare_node context node)
        = DCompare i1 i2 (Operation_value o) (VBool b)) ∨
   (success (execute_compare_node context node) = false ∧
    result_value (execute_compare_node context node) = VNone ∧
    ∃ m, details (execute_compare_node context node) = DError m)) ∧
  ((properties node !! "input1" = None ∨ properties node !! "input2" = None ∨
    properties node !! "operator" = None ∨
    (∃ op, properties node !! "operator" = Some op ∧ ∀ o, Operation_of op ≠ Ok o)) →
   success (execute_compare_node context node) = false ∧
   result_value (execute_compare_node context node) = VNone ∧
   ∃ e, details (execute_compare_node context node) = DError (Exception e)).
Proof.
  unfold execute_compare_node, item.
  destruct (properties node !! "input1") as [r1|]; simpl;
    [|split; [right|intros _]; repeat split; by eexists].
  destruct (resolve context r1) as [i1|e1]; simpl;
    [|split; [right|intros _]; repeat split; by eexists].
  destruct (properties node !! "input2") as [r2|]; simpl;
    [|split; [right|intros _]; repeat split; by eexists].
  destruct (resolve context r2) as [i2|e2]; simpl;
    [|split; [right|intros _]; repeat split; by eexists].
  destruct (properties node !! "operator") as [op|]; simpl;
    [|split; [right|intros _]; repeat split; by eexists].
  destruct (Operation_of op) as [o|e] eqn:Ho; simpl;
    [|split; [right|intros _]; repeat split; by eexists].
  split.
  - destruct (ops o) as [f|] eqn:Hf; simpl; [|by destruct o].
    destruct (f i1 i2) as [v|e] eqn:Hv; simpl; [|right; repeat split; by eexists].
    destruct (ops_boolean o f i1 i2 v Hf Hv) as [b ->].
    left. split; [done|]. by exists b, i1, i2, o.
  - intros [H | [H | [H | (op' & [= <-] & Hno)]]]; try done. by destruct (Hno o).
Qed.

(** X10: on operands without floats (None, booleans, integers, text,
    lists and dictionaries of such, the values of this embedding), a
    COMPARE node and the same node with the opposite operator (> and <=,
    >= and <, == and !=, contains and not_contains) fail together or
    succeed with opposite booleans: the one goes to next_true exactly
    when the other goes to next_false. (A float NaN is below, above and
    equal to nothing, so > and <= both succeed with False on it.) *)
Theorem compare_negated (context : gmap string value) (node node' : Node) (o : Operation) :
  properties node !! "operator" = Some (VStr (Operation_value o)) →
  properties node' = <["operator" := VStr (Operation_value (negation o))]> (properties node) →
  opposite (execute_compare_node context node) (execute_compare_node context node').
Proof.
  intros Hop Hp. unfold execute_compare_node, item, opposite.
  rewrite Hp, Hop, lookup_insert_eq, !lookup_insert_ne by done.
  destruct (properties node !! "input1") as [r1|]; cbn [mbind res_bind]; [|by left].
  destruct (resolve context r1) as [i1|e1]; cbn [mbind res_bind]; [|by left].
  destruct (properties node !! "input2") as [r2|]; cbn [mbind res_bind]; [|by left].
  destruct (resolve context r2) as [i2|e2]; cbn [mbind res_bind]; [|by left].
  rewrite !Operation_of_value. cbn [mbind res_bind].
  destruct (ops o) as [f|] eqn:Hf; [|by destruct o].
  destruct (ops (negation o)) as [g|] eqn:Hg; [|by destruct o].
  pose proof (ops_negation o f g i1 i2 Hf Hg) as H.
  destruct (f i1 i2) as [[| p | | | |]|], (g i1 i2) as [[| q | | | |]|]; simpl; try done;
    [right; exists p; by subst | by left].
Qed.

Lemma compare_negated_witness :
  opposite
    (execute_compare_node ∅ (Samples.compare_node (VInt 10) (VInt 5) ">"))
    (execute_compare_node ∅ (Samples.compare_node (VInt 10) (VInt 5) "<=")).
Proof.
  apply (compare_negated ∅ (Samples.compare_node (VInt 10) (VInt 5) ">")
           (Samples.compare_node (VInt 10) (VInt 5) "<=") GREATER_THAN).
  - reflexivity.
  - vm_compute. reflexivity.
Defined.

End CompareFacts.

(** ** Passes of the scheduler *)

Module PassFacts.
Import Py Engine Reading Probes.

(** *** A pass under a standing clock *)

Lemma stamp_doc_id (now : Z) (doc : string * rule_doc) : (stamp_doc now doc).1 = doc.1.
Proof. unfold stamp_doc. by destruct (due_now now doc.2). Qed.

Lemma stamp_miss (i : string) (t : Z) (l : list (string * rule_doc)) :
  i ∉ l.*1 → write_last_run i t l = l.
Proof.
  unfold write_last_run. induction l as [|[j d] l IH]; [done|]. intros H.
  rewrite fmap_cons in H. apply not_elem_of_cons in H as [Hne Hl]. simpl in Hne.
  rewrite fmap_cons, IH by done. simpl.
  by destruct (String.eqb_spec j i).
Qed.

Lemma body_standing (w : World) (now : Z) (sel : list rule_doc) (s : state) (i : string)
    (d : rule_doc) :
  (∀ n, clock w n = now) →
  (∀ n j, stores w n j = true) →
  (get_rules_body w (sel, s) (i, d)).1
    = (if due_now now d then sel ++ [set_id i d] else sel) ∧
  rules (get_rules_body w (sel, s) (i, d)).2
    = (if due_now now d then write_last_run i now (rules s) else rules s).
Proof.
  intros Hc Hs. unfold get_rules_body, Engine.now, due_now, update_last_run.
  destruct (last_run d) as [[last|last]|]; [| |done].
  - destruct (default true (enabled d)); [|done]. simpl. rewrite !Hc, Hs.
    by destruct (interval_passed _ _).
  - by destruct (default true (enabled d)).
Qed.

Lemma fold_standing (w : World) (now : Z) (todo : list (string * rule_doc)) :
  (∀ n, clock w n = now) →
  (∀ n j, stores w n j = true) →
  ∀ (pre : list (string * rule_doc)) (sel : list rule_doc) (s : state),
    NoDup (pre ++ todo).*1 →
    rules s = pre ++ todo →
    (foldl (get_rules_body w) (sel, s) todo).1
      = sel ++ ((λ doc, set_id doc.1 doc.2) <$> filter (λ doc, due_now now doc.2 = true) todo) ∧
    rules (foldl (get_rules_body w) (sel, s) todo).2 = pre ++ (stamp_doc now <$> todo).
Proof.
  intros Hc Hs. induction todo as [|[i d] todo IH]; intros pre sel s Hnd Hr.
  - simpl. by rewrite !app_nil_r in *.
  - rewrite SchedulerFacts.foldl_step.
    destruct (body_standing w now sel s i d Hc Hs) as [Hsel Hrules].
    destruct (get_rules_body w (sel, s) (i, d)) as [sel1 s1]. simpl in Hsel, Hrules.
    assert (Hi : (i ∉ pre.*1) ∧ (i ∉ todo.*1)).
    { rewrite fmap_app, fmap_cons in Hnd. simpl in Hnd.
      apply NoDup_app in Hnd as (_ & Hmid & Hnd'). apply NoDup_cons in Hnd' as [Hi _].
      split; [|done]. intros Hp. apply (Hmid i Hp). by left. }
    destruct Hi as [Hip Hit].
    assert (Hr1 : rules s1 = (pre ++ [stamp_doc now (i, d)]) ++ todo).
    { rewrite Hrules, Hr. unfold stamp_doc. simpl. rewrite <- app_assoc. simpl.
      destruct (due_now now d); [|done].
      pose proof (stamp_miss i now pre Hip) as Hpre.
      pose proof (stamp_miss i now todo Hit) as Htodo.
      unfold write_last_run in *. rewrite fmap_app, fmap_cons, Hpre, Htodo. simpl.
      by rewrite String.eqb_refl. }
    assert (Hnd1 : NoDup ((pre ++ [stamp_doc now (i, d)]) ++ todo).*1).
    { rewrite <- app_assoc. simpl. rewrite fmap_app, fmap_cons, stamp_doc_id.
      by rewrite fmap_app, fmap_cons in Hnd. }
    destruct (IH (pre ++ [stamp_doc now (i, d)]) sel1 s1 Hnd1 Hr1) as [-> ->].
    rewrite Hsel. split.
    + destruct (due_now now d) eqn:Hd.
      * rewrite filter_cons_True by done. by rewrite <- app_assoc.
      * rewrite filter_cons_False by (simpl; congruence). done.
    + by rewrite <- app_assoc.
Qed.

Lemma stamped_not_due (now : Z) (doc : string * rule_doc) :
  (0 < default 3600 (interval doc.2))%Z → due_now now (stamp_doc now doc).2 = false.
Proof.
  intros Hiv. unfold stamp_doc. destruct (due_now now doc.2) eqn:Hd; [|done].
  unfold due_now. simpl. rewrite Z.sub_diag.
  apply andb_false_intro2. rewrite TimeFacts.interval_passed_exact by (simpl; lia).
  apply Z.leb_gt. lia.
Qed.

(** X11: a pass of get_rules during which the clock stands at one instant
    and the store takes every write selects exactly the documents that
    have a naive last_run, are not disabled and pass the interval test of
    the code (the elapsed seconds, as a float, against the interval), in
    the order of the collection and each under its document id; it stamps
    exactly these documents with that instant and leaves the others as
    they are. When every interval is positive, a second pass at the same
    instant selects nothing. Document ids are distinct. *)
Theorem standing_pass (w : World) (st : state) (now : Z) :
  (∀ n, clock w n = now) →
  (∀ n i, stores w n i = true) →
  NoDup (rules st).*1 →
  (get_rules w st).1
    = (λ doc, set_id doc.1 doc.2) <$> filter (λ doc, due_now now doc.2 = true) (rules st) ∧
  rules (get_rules w st).2 = stamp_doc now <$> rules st ∧
  (Forall (λ doc, 0 < default 3600 (interval doc.2))%Z (rules st) →
   (get_rules w (get_rules w st).2).1 = []).
Proof.
  intros Hc Hs Hnd.
  destruct (fold_standing w now (rules st) Hc Hs [] [] st Hnd eq_refl) as [Hsel Hrules].
  fold (get_rules w st) in Hsel, Hrules. simpl in Hsel, Hrules.
  split; [done|]. split; [done|]. intros Hiv.
  assert (Hnd' : NoDup (rules (get_rules w st).2).*1).
  { rewrite Hrules, <- list_fmap_compose.
    erewrite list_fmap_ext; [exact Hnd|]. intros _ doc _. apply stamp_doc_id. }
  destruct (fold_standing w now (rules (get_rules w st).2) Hc Hs [] [] _ Hnd' eq_refl)
    as [Hsel' _].
  fold (get_rules w (get_rules w st).2) in Hsel'. simpl in Hsel'.
  rewrite Hsel', Hrules.
  replace (filter _ _) with (@nil (string * rule_doc)); [done|]. symmetry.
  clear -Hiv. induction Hiv as [|doc l Hdoc _ IH]; [done|].
  rewrite fmap_cons, filter_cons_False; [done|].
  rewrite stamped_not_due by done. done.
Qed.

Lemma standing_pass_witness :
  (get_rules (world_at 60000000) two_rules).1
    = (λ doc, set_id doc.1 doc.2) <$>
      filter (λ doc, due_now 60000000 doc.2 = true) (rules two_rules) ∧
  rules (get_rules (world_at 60000000) two_rules).2
    = stamp_doc 60000000 <$> rules two_rules ∧
  (Forall (λ doc, 0 < default 3600 (interval doc.2))%Z (rules two_rules) →
   (get_rules (world_at 60000000) (get_rules (world_at 60000000) two_rules).2).1 = []).
Proof.
  apply (standing_pass (world_at 60000000) two_rules 60000000).
  - reflexivity.
  - reflexivity.
  - by apply (bool_decide_unpack _).
Defined.

(** *** What a pass selects *)

Lemma fold_selected (w : World) (docs : list (string * rule_doc)) :
  ∀ (sel : list rule_doc) (s : state),
    ∃ new,
      (foldl (get_rules_body w) (sel, s) docs).1 = sel ++ new ∧
      ∀ rule, rule ∈ new →
        ∃ i d, (i, d) ∈ docs ∧ rule = set_id i d ∧ is_Some (last_run d) ∧
               default true (enabled d) = true.
Proof.
  induction docs as [|[i d] docs IH]; intros sel s.
  - exists []. split; [by rewrite app_nil_r|]. intros rule Hin. by apply elem_of_nil in Hin.
  - rewrite SchedulerFacts.foldl_step.
    pose proof (SchedulerFacts.get_rules_body_selected w sel s i d) as Hsel.
    destruct (get_rules_body w (sel, s) (i, d)) as [sel1 s1]. simpl in Hsel.
    destruct (IH sel1 s1) as (new & Hnew & Hall). rewrite Hnew, Hsel.
    destruct (last_run d) as [[last|last]|] eqn:Hl.
    + destruct (default true (enabled d)) eqn:He; simpl.
      * destruct (interval_passed _ _).
        -- exists (set_id i d :: new). split; [by rewrite <- app_assoc|].
           intros rule [-> | Hin]%elem_of_cons.
           ++ exists i, d. rewrite Hl, He. repeat split; [by left | by eexists].
           ++ destruct (Hall rule Hin) as (i' & d' & H1 & H2).
              exists i', d'. split; [by right | done].
        -- exists new. split; [done|]. intros rule Hin.
           destruct (Hall rule Hin) as (i' & d' & H1 & H2).
           exists i', d'. split; [by right | done].
      * exists new. split; [done|]. intros rule Hin.
        destruct (Hall rule Hin) as (i' & d' & H1 & H2).
        exists i', d'. split; [by right | done].
    + exists new. split; [done|]. intros rule Hin.
      destruct (Hall rule Hin) as (i' & d' & H1 & H2).
      exists i', d'. split; [by right | done].
    + exists new. split; [done|]. intros rule Hin.
      destruct (Hall rule Hin) as (i' & d' & H1 & H2).
      exists i', d'. split; [by right | done].
Qed.

(** X12: every rule a pass of get_rules selects comes from a document of
    the collection that has a last_run and is not disabled, and carries
    that document's id as its id, whatever id field the document had. A
    document without a last_run is never selected. *)
Theorem selected_rules_are_stored (w : World) (st : state) (rule : rule_doc) :
  rule ∈ (get_rules w st).1 →
  ∃ i d, (i, d) ∈ rules st ∧ rule = set_id i d ∧ rule_id_field rule = Some i ∧
         is_Some (last_run rule) ∧ default true (enabled rule) = true.
Proof.
  unfold get_rules. destruct (fold_selected w (rules st) [] st) as (new & -> & Hall).
  simpl. intros Hin. destruct (Hall rule Hin) as (i & d & H1 & -> & H2 & H3).
  by exists i, d.
Qed.

Lemma selected_rules_are_stored_witness :
  ∃ i d, (i, d) ∈ rules Samples.store_state ∧
         set_id "hot" Samples.threshold_rule = set_id i d ∧
         rule_id_field (set_id "hot" Samples.threshold_rule) = Some i ∧
         is_Some (last_run (set_id "hot" Samples.threshold_rule)) ∧
         default true (enabled (set_id "hot" Samples.threshold_rule)) = true.
Proof.
  apply (selected_rules_are_stored Samples.world Samples.store_state).
  vm_compute. by left.
Defined.

(** *** Two passes *)

Lemma one_document_per_id {A : Type} (l : list (string * A)) (i : string) (a b : A) :
  NoDup l.*1 → (i, a) ∈ l → (i, b) ∈ l → a = b.
Proof.
  induction l as [|[j c] l IH]; intros Hnd Ha Hb; [by apply elem_of_nil in Ha|].
  rewrite fmap_cons in Hnd. apply NoDup_cons in Hnd as [Hj Hnd]. simpl in Hj.
  apply elem_of_cons in Ha as [Ha | Ha], Hb as [Hb | Hb].
  - congruence.
  - injection Ha as <- <-. exfalso. apply Hj. apply list_elem_of_fmap. by exists (i, b).
  - injection Hb as <- <-. exfalso. apply Hj. apply list_elem_of_fmap. by exists (i, a).
  - by apply IH.
Qed.

(** X13: a rule selected by one pass of get_rules, whose stamp the store
    has taken, is selected again by the next pass only if the interval
    test of the code passes between that stamp and a later clock reading;
    the stamp is the last_run the second selection carries. When the
    store refused the stamp, the next pass selects the rule as it was.
    Document ids are distinct. *)
Theorem reselection_needs_interval (w : World) (st : state) (rule rule' : rule_doc) :
  NoDup (rules st).*1 →
  rule ∈ (get_rules w st).1 →
  rule' ∈ (get_rules w (get_rules w st).2).1 →
  rule_id_field rule' = rule_id_field rule →
  ∃ i k k',
    rule_id_field rule = Some i ∧ k < k' ∧
    (stores w (S k) i = true →
     last_run rule' = Some (Naive (clock w k)) ∧
     interval_passed (clock w k' - clock w k) (default 3600%Z (interval rule)) = true) ∧
    (stores w (S k) i = false → rule' = rule).
Proof.
  intros Hnd Hin Hin' Hid.
  pose proof (SchedulerFacts.get_rules_fold w (rules st) [] st Hnd) as H1. cbv zeta in H1.
  change (foldl (get_rules_body w) ([], st) (rules st)) with (get_rules w st) in H1.
  destruct H1 as (_ & _ & _ & Hids & _ & _ & new & Hnew & Hall).
  rewrite Hnew in Hin.
  destruct (Hall rule Hin) as (i & d & k & last & Hd & -> & Hl & _ & Hp & Hk & Hk1 & Hst).
  assert (Hnd' : NoDup (rules (get_rules w st).2).*1) by (by rewrite Hids).
  pose proof (SchedulerFacts.get_rules_fold w (rules (get_rules w st).2) []
                (get_rules w st).2 Hnd') as H2.
  cbv zeta in H2.
  change (foldl (get_rules_body w) ([], (get_rules w st).2) (rules (get_rules w st).2))
    with (get_rules w (get_rules w st).2) in H2.
  destruct H2 as (_ & _ & _ & _ & _ & _ & new' & Hnew' & Hall').
  rewrite Hnew' in Hin'.
  destruct (Hall' rule' Hin')
    as (i' & d' & k' & last' & Hd' & -> & Hl' & _ & Hp' & Hk' & _ & _).
  injection Hid as ->.
  pose proof (one_document_per_id _ _ _ _ Hnd' Hd' (Hst d Hd)) as Hsame.
  exists i, (S k), k'. split; [done|]. split; [lia|].
  destruct (stores w (S (S k)) i); subst d'.
  - split; [|done]. intros _. injection Hl' as <-. by split.
  - split; [done|]. by intros _.
Qed.

Lemma reselection_needs_interval_witness :
  ∃ i k k',
    rule_id_field (set_id "hot" Samples.threshold_rule) = Some i ∧ k < k' ∧
    (stores striding_world (S k) i = true →
     last_run (set_id "hot" (set_last_run 200000000 Samples.threshold_rule))
       = Some (Naive (clock striding_world k)) ∧
     interval_passed (clock striding_world k' - clock striding_world k)
       (default 3600%Z (interval (set_id "hot" Samples.threshold_rule))) = true) ∧
    (stores striding_world (S k) i = false →
     set_id "hot" (set_last_run 200000000 Samples.threshold_rule)
       = set_id "hot" Samples.threshold_rule).
Proof.
  apply (reselection_needs_interval striding_world two_rules).
  - by apply (bool_decide_unpack _).
  - vm_compute. by left.
  - vm_compute. by left.
  - reflexivity.
Defined.

End PassFacts.

(** ** The tree engine (evaluate_rules/main copy.py) *)

Module TreeFacts.
Import Py Tree TreeRun Probes.

Lemma tree_ops_boolean (o : Operation) (f : value → value → res value) (x y r : value) :
  ops o = Some f → f x y = Ok r → ∃ b, r = VBool b.
Proof.
  destruct o; simpl; intros [= <-]; unfold py_gt, py_ge, py_lt, py_le; simpl;
    try (destruct (py_cmp x y); simpl; intros [= <-]; by eexists);
    try (destruct (py_in y x); simpl; intros [= <-]; by eexists);
    intros [= <-]; by eexists.
Qed.

Lemma condition_boolean (w : Engine.World) (c : Condition) :
  ∃ b, result (evaluate_condition w c) = VBool b.
Proof.
  unfold evaluate_condition.
  destruct (Engine.is_None _); [by eexists|].
  destruct (ops (operation c)) as [f|] eqn:Hf; [|by eexists].
  destruct (convert _ _) as [converted|]; [|by eexists].
  destruct (f converted (target c)) as [r|] eqn:Hr; [|by eexists].
  simpl. eapply tree_ops_boolean; eauto.
Qed.

(** evaluate_expression on an expression, with the loop over the operands
    read as a map. *)
Lemma expression_result (w : Engine.World) (o : Operation) (l : list operand) :
  (evaluate_expression w (Expr o l)).1 =
  match o with
  | AND => all ((λ x, (evaluate_expression w x).1) <$> l)
  | OR => any ((λ x, (evaluate_expression w x).1) <$> l)
  | _ => VBool false
  end.
Proof.
  simpl.
  set (each := fix each (l : list operand) : list (value * report) :=
                 match l with
                 | [] => []
                 | x :: rest => evaluate_expression w x :: each rest
                 end).
  assert (Heach : ∀ l, each l = evaluate_expression w <$> l).
  { intros l'. induction l' as [|x l' IH]; [done|]. simpl. by rewrite IH. }
  rewrite Heach, <- list_fmap_compose. by destruct o.
Qed.

Lemma expression_boolean (w : Engine.World) (e : operand) :
  ∃ b, (evaluate_expression w e).1 = VBool b.
Proof.
  destruct e as [c | o l]; [apply condition_boolean|].
  rewrite expression_result. destruct o; by eexists.
Qed.

(** X14: a stored reading that is falsy (0, False, empty text, an empty
    list) is no value for the tree engine: every condition on its topic is
    false with 'No value available', whatever the operation and the target,
    while the node engine reads that same value. *)
Theorem falsy_reading_is_no_value (w : Engine.World) (c : Condition) (v : value) :
  Engine.telemetry w ("mqtt_values/" +:+ Engine._safe_topic_id (topic c) +:+ "/messages")
    = Some v →
  truthy v = false →
  evaluate_condition w c =
    {| result := VBool false;
       details := NoValue (topic c) (Operation_value (operation c)) (target c) |} ∧
  Engine.get_latest_value w (VStr (topic c)) = v.
Proof.
  intros Hv Ht. unfold evaluate_condition, get_latest_value, Engine.get_latest_value.
  by rewrite Hv, Ht.
Qed.

Lemma falsy_reading_is_no_value_witness :
  evaluate_condition (Samples.world_with (VInt 0)) (Samples.condition EQUALS (VInt 0)) =
    {| result := VBool false; details := NoValue "t" "==" (VInt 0) |} ∧
  Engine.get_latest_value (Samples.world_with (VInt 0)) (VStr "t") = VInt 0.
Proof.
  apply (falsy_reading_is_no_value (Samples.world_with (VInt 0))
           (Samples.condition EQUALS (VInt 0)) (VInt 0)); reflexivity.
Defined.

(** X15: the tree engine's verdicts are booleans: a condition and an
    expression always evaluate to True or False, no exception escapes. An
    expression whose operator is a comparison is False, and so is a
    condition whose operation is AND or OR. *)
Theorem tree_results_boolean (w : Engine.World) :
  (∀ e, ∃ b, (evaluate_expression w e).1 = VBool b) ∧
  (∀ o l, o ≠ AND → o ≠ OR → (evaluate_expression w (Expr o l)).1 = VBool false) ∧
  (∀ c, operation c = AND ∨ operation c = OR →
        result (evaluate_condition w c) = VBool false).
Proof.
  split; [apply expression_boolean|]. split.
  - intros o l Ha Ho. rewrite expression_result. by destruct o.
  - intros c Hc. unfold evaluate_condition.
    destruct (Engine.is_None _); [done|].
    by destruct Hc as [-> | ->].
Qed.

(** X16: an AND directly inside an AND, or an OR inside an OR, can be
    flattened into its parent without changing the result, and an AND or
    OR of a single operand has the result of that operand. *)
Theorem nesting_is_flat (w : Engine.World) (o : Operation) (l1 l2 l3 : list operand)
    (e : operand) :
  o = AND ∨ o = OR →
  (evaluate_expression w (Expr o (l1 ++ Expr o l2 :: l3))).1
    = (evaluate_expression w (Expr o (l1 ++ l2 ++ l3))).1 ∧
  (evaluate_expression w (Expr o [e])).1 = (evaluate_expression w e).1.
Proof.
  intros Ho. split.
  - rewrite !expression_result, !fmap_app, fmap_cons, expression_result.
    destruct Ho as [-> | ->]; unfold all, any; f_equal.
    + rewrite !forallb_app. by cbn [forallb truthy].
    + rewrite !existsb_app. by cbn [existsb truthy].
  - rewrite expression_result. destruct (expression_boolean w e) as [b Hb].
    destruct Ho as [-> | ->]; unfold all, any; simpl; rewrite Hb; simpl; f_equal.
    + apply andb_true_r.
    + apply orb_false_r.
Qed.

Lemma nesting_is_flat_witness :
  (evaluate_expression (Samples.world_with (VInt 35))
     (Expr OR ([Cond (Samples.condition LESS_THAN (VInt 30))] ++
               Expr OR [Cond (Samples.condition GREATER_THAN (VInt 30))] :: []))).1
    = (evaluate_expression (Samples.world_with (VInt 35))
         (Expr OR ([Cond (Samples.condition LESS_THAN (VInt 30))] ++
                   [Cond (Samples.condition GREATER_THAN (VInt 30))] ++ []))).1 ∧
  (evaluate_expression (Samples.world_with (VInt 35))
     (Expr OR [Cond (Samples.condition GREATER_THAN (VInt 30))])).1
    = (evaluate_expression (Samples.world_with (VInt 35))
         (Cond (Samples.condition GREATER_THAN (VInt 30)))).1.
Proof.
  apply (nesting_is_flat (Samples.world_with (VInt 35)) OR). by right.
Defined.

(** *** A cycle of the tree engine *)

Lemma each_accepted (w : Engine.World) (accepts : string → bool) (rules : list Rule) :
  ∀ (results : list rule_result) (st : state),
    (∀ rule, rule ∈ rules → fires w rule = true → accepts (id rule) = true) →
    ∃ new,
      evaluate_each w accepts rules results st =
        (Ok (results ++ new),
         {| published := published st ++ (id <$> filter (λ r, fires w r = true) rules);
            tick := tick st + length rules |}) ∧
      Forall2 (λ r rule, rule_id r = id rule ∧ rule_name r = name rule ∧
                         triggered r = (evaluate_expression w (logic rule)).1) new rules.
Proof.
  induction rules as [|rule rest IH]; intros results st Hacc.
  - exists []. simpl. rewrite !app_nil_r, Nat.add_0_r. by destruct st.
  - cbn [evaluate_each evaluate_rule triggered published tick].
    set (r := {| rule_id := id rule |}).
    assert (Hrest : ∀ x, x ∈ rest → fires w x = true → accepts (id x) = true)
      by (intros x Hx; apply Hacc; by right).
    destruct (truthy (evaluate_expression w (logic rule)).1) eqn:Hf.
    + rewrite (Hacc rule) by (done || by left).
      destruct (IH (results ++ [r]) {| published := published st ++ [id rule];
                                       tick := S (tick st) |} Hrest) as (new & -> & Hall).
      exists (r :: new). split; [|by constructor].
      rewrite filter_cons_True by done. simpl.
      by rewrite <- (app_assoc results), <- (app_assoc (published st)), Nat.add_succ_r.
    + destruct (IH (results ++ [r]) {| published := published st; tick := S (tick st) |}
                  Hrest) as (new & -> & Hall).
      exists (r :: new). split; [|by constructor].
      rewrite filter_cons_False by (unfold fires; congruence). simpl.
      by rewrite <- (app_assoc results), Nat.add_succ_r.
Qed.

Lemma each_rejected (w : Engine.World) (accepts : string → bool) (pre : list Rule) :
  ∀ (results : list rule_result) (st : state) (rule : Rule) (post : list Rule),
    (∀ r, r ∈ pre → fires w r = true → accepts (id r) = true) →
    fires w rule = true → accepts (id rule) = false →
    evaluate_each w accepts (pre ++ rule :: post) results st =
      (Raise TransportError,
       {| published := published st ++ (id <$> filter (λ r, fires w r = true) pre);
          tick := tick st + length pre + 1 |}).
Proof.
  induction pre as [|x pre IH]; intros results st rule post Hacc Hf Hrej.
  - cbn [app evaluate_each evaluate_rule triggered published tick]. unfold fires in Hf. rewrite Hf, Hrej.
    simpl. by rewrite app_nil_r, Nat.add_0_r, Nat.add_1_r.
  - cbn [app evaluate_each evaluate_rule triggered published tick].
    assert (Hpre : ∀ r, r ∈ pre → fires w r = true → accepts (id r) = true)
      by (intros r Hr; apply Hacc; by right).
    destruct (truthy (evaluate_expression w (logic x)).1) eqn:Hx.
    + rewrite (Hacc x) by (done || by left).
      rewrite IH by done. rewrite filter_cons_True by done. simpl.
      by rewrite <- (app_assoc (published st)), (Nat.add_succ_r (tick st)).
    + rewrite IH by done. rewrite filter_cons_False by (unfold fires; congruence).
      simpl. by rewrite (Nat.add_succ_r (tick st)).
Qed.

(** X17: when the queue accepts the message of every rule that fires, a
    cycle of the tree engine answers 'success' with one result per enabled
    rule that parses, in the order of the collection, each with the
    verdict of its logic, and it has published the ids of exactly the
    rules that fire, in that order. *)
Theorem tree_cycle_publishes_fired (w : Engine.World) (accepts : string → bool)
    (docs : list (string * tree_rule_doc)) (st : state) :
  (∀ rule, rule ∈ get_rules docs → fires w rule = true → accepts (id rule) = true) →
  ∃ results,
    status (evaluate_rules w accepts docs st).1 = "success" ∧
    rule_results (evaluate_rules w accepts docs st).1 = Some results ∧
    error (evaluate_rules w accepts docs st).1 = None ∧
    Forall2 (λ r rule, rule_id r = id rule ∧ rule_name r = name rule ∧
                       triggered r = (evaluate_expression w (logic rule)).1)
      results (get_rules docs) ∧
    published (evaluate_rules w accepts docs st).2
      = published st ++ (id <$> filter (λ r, fires w r = true) (get_rules docs)).
Proof.
  intros Hacc. unfold evaluate_rules, evaluate_all_rules.
  destruct (each_accepted w accepts (get_rules docs) [] st Hacc) as (new & -> & Hall).
  by exists new.
Qed.

Lemma tree_cycle_publishes_fired_witness :
  ∃ results,
    status (evaluate_rules (Samples.world_with (VInt 20)) (λ _, true) tree_docs idle).1
      = "success" ∧
    rule_results (evaluate_rules (Samples.world_with (VInt 20)) (λ _, true) tree_docs idle).1
      = Some results ∧
    error (evaluate_rules (Samples.world_with (VInt 20)) (λ _, true) tree_docs idle).1 = None ∧
    Forall2 (λ r rule, rule_id r = id rule ∧ rule_name r = name rule ∧
                       triggered r
                         = (evaluate_expression (Samples.world_with (VInt 20)) (logic rule)).1)
      results (get_rules tree_docs) ∧
    published (evaluate_rules (Samples.world_with (VInt 20)) (λ _, true) tree_docs idle).2
      = published idle ++
        (id <$> filter (λ r, fires (Samples.world_with (VInt 20)) r = true)
                  (get_rules tree_docs)).
Proof.
  apply (tree_cycle_publishes_fired (Samples.world_with (VInt 20)) (λ _, true) tree_docs idle).
  reflexivity.
Defined.

(** X18: when the queue rejects the message of a rule that fires, the
    cycle of the tree engine answers 'error' without any result: the
    results of the rules before it are lost although the ids of those that
    fire have been published, and the rules after it are not evaluated
    (the clock is read once per rule evaluated and once for the answer). *)
Theorem tree_cycle_rejected (w : Engine.World) (accepts : string → bool)
    (docs : list (string * tree_rule_doc)) (st : state) (pre post : list Rule) (rule : Rule) :
  get_rules docs = pre ++ rule :: post →
  (∀ r, r ∈ pre → fires w r = true → accepts (id r) = true) →
  fires w rule = true →
  accepts (id rule) = false →
  status (evaluate_rules w accepts docs st).1 = "error" ∧
  rule_results (evaluate_rules w accepts docs st).1 = None ∧
  error (evaluate_rules w accepts docs st).1 = Some TransportError ∧
  published (evaluate_rules w accepts docs st).2
    = published st ++ (id <$> filter (λ r, fires w r = true) pre) ∧
  tick (evaluate_rules w accepts docs st).2 = tick st + length pre + 2.
Proof.
  intros Hdocs Hacc Hf Hrej. unfold evaluate_rules, evaluate_all_rules.
  rewrite Hdocs, (each_rejected w accepts pre [] st rule post Hacc Hf Hrej). simpl.
  repeat split. lia.
Qed.

Lemma tree_cycle_rejected_witness :
  status (evaluate_rules (Samples.world_with (VInt 35)) picky tree_docs idle).1 = "error" ∧
  rule_results (evaluate_rules (Samples.world_with (VInt 35)) picky tree_docs idle).1 = None ∧
  error (evaluate_rules (Samples.world_with (VInt 35)) picky tree_docs idle).1
    = Some TransportError ∧
  published (evaluate_rules (Samples.world_with (VInt 35)) picky tree_docs idle).2
    = published idle ++
      (id <$> filter (λ r, fires (Samples.world_with (VInt 35)) r = true)
                (take 1 (get_rules tree_docs))) ∧
  tick (evaluate_rules (Samples.world_with (VInt 35)) picky tree_docs idle).2
    = tick idle + length (take 1 (get_rules tree_docs)) + 2.
Proof.
  apply (tree_cycle_rejected (Samples.world_with (VInt 35)) picky tree_docs idle
           (take 1 (get_rules tree_docs)) [] always); try reflexivity.
  intros r Hr _. vm_compute in Hr. apply list_elem_of_singleton in Hr. by subst r.
Defined.

(** *** The rules of a cycle *)

Lemma tree_get_rules_kept (docs : list (string * tree_rule_doc)) :
  ∀ acc, foldl get_rules_body acc docs = acc ++ omap kept docs.
Proof.
  induction docs as [|doc docs IH]; intros acc; [by rewrite app_nil_r|].
  rewrite SchedulerFacts.foldl_step, IH. unfold get_rules_body, kept. simpl.
  destruct (default true (doc_enabled doc.2)); [|done].
  destruct (Rule_from_dict doc.1 doc.2); [|done]. by rewrite <- app_assoc.
Qed.

Lemma kept_rule (doc : string * tree_rule_doc) (rule : Rule) :
  kept doc = Some rule → id rule = doc.1 ∧ enabled rule = true.
Proof.
  unfold kept. destruct (default true (doc_enabled doc.2)) eqn:He; [|done].
  unfold Rule_from_dict.
  destruct (key "name" _); simpl; [|done].
  destruct (key "logic" _); simpl; [|done].
  destruct (LogicalExpression_from_dict _); simpl; [|done].
  by intros [= <-].
Qed.

(** X19: the rules a cycle of the tree engine evaluates are exactly the
    rules parsed from the documents that are not disabled and that parse,
    each under the id of its document; they come in the order of the
    collection and every one of them is enabled. *)
Theorem tree_rules_from_documents (docs : list (string * tree_rule_doc)) :
  (id <$> get_rules docs) `sublist_of` docs.*1 ∧
  Forall (λ rule, enabled rule = true) (get_rules docs) ∧
  ∀ rule, rule ∈ get_rules docs ↔
          ∃ d, (id rule, d) ∈ docs ∧ doc_enabled d ≠ Some false ∧
               Rule_from_dict (id rule) d = Ok rule.
Proof.
  unfold get_rules. rewrite tree_get_rules_kept. simpl. split; [|split].
  - induction docs as [|doc docs IH]; [done|]. simpl.
    destruct (kept doc) as [rule|] eqn:Hk.
    + destruct (kept_rule _ _ Hk) as [Hid _]. rewrite fmap_cons, Hid.
      by apply sublist_skip.
    + by apply sublist_cons.
  - induction docs as [|doc docs IH]; [done|]. simpl.
    destruct (kept doc) as [rule|] eqn:Hk; [|done].
    destruct (kept_rule _ _ Hk) as [_ He]. by constructor.
  - intros rule. rewrite list_elem_of_omap. split.
    + intros ([i d] & Hin & Hk). destruct (kept_rule _ _ Hk) as [Hid _]. simpl in Hid.
      subst i. exists d. split; [done|]. unfold kept in Hk. simpl in Hk.
      destruct (doc_enabled d) as [[|]|]; simpl in Hk; try done;
        (split; [done|]); by destruct (Rule_from_dict (id rule) d) as [r|]; [injection Hk as ->|].
    + intros (d & Hin & He & Hp). exists (id rule, d). split; [done|].
      unfold kept. simpl. rewrite Hp. by destruct (doc_enabled d) as [[|]|].
Qed.

End TreeFacts.

(** ** The action handler (action_handler/main.py) *)

Module HandlerFacts.
Import Py Handler Probes.

(** X20: whatever the request, the handler does at most one thing. When
    it answers 200 the action is 'email' and one mail went to the 'to' of
    action_data with its 'body', or the action is 'add_todo' and one todo
    with the 'body' was added. When it answers 400 nothing was done. When
    it answers 500 nothing was done either, but for one case: the mail
    transport took the mail and failed when the session was closed; then
    that one mail is sent. *)
Theorem handler_does_one_thing (smtp : value → value → delivery) (body : option value)
    (eff : effects) :
  match (action_handler smtp body eff).1 with
  | Processed action action_data =>
      (action = VStr "email" ∧
       ∃ to_address text,
         getitem action_data "to" = Ok to_address ∧ getitem action_data "body" = Ok text ∧
         smtp to_address text = Sent ∧
         (action_handler smtp body eff).2
           = {| mails := mails eff ++ [(to_address, text)]; todos := todos eff |}) ∨
      (action = VStr "add_todo" ∧
       ∃ text,
         getitem action_data "body" = Ok text ∧
         (action_handler smtp body eff).2
           = {| mails := mails eff; todos := todos eff ++ [text] |})
  | InvalidFormat => (action_handler smtp body eff).2 = eff
  | Failed e =>
      (action_handler smtp body eff).2 = eff ∨
      (e = MailError ∧
       ∃ to_address text,
         smtp to_address text = SentThenFailed ∧
         (action_handler smtp body eff).2
           = {| mails := mails eff ++ [(to_address, text)]; todos := todos eff |})
  end.
Proof.
  unfold action_handler.
  destruct body as [[| | | | |data]|]; try by left.
  set (action := default VNone (assoc "action" data)).
  set (action_data := default (VDict []) (assoc "action_data" data)).
  destruct (negb (truthy action) || negb (truthy action_data)); [done|].
  unfold process_rule.
  destruct (py_eq action (VStr "email")) eqn:He.
  - apply WalkFacts.py_eq_text in He.
    destruct (py_in (VStr "to") action_data) as [has_to|]; [|by left].
    destruct (if has_to then py_in (VStr "body") action_data else Ok false) as [[|]|];
      try by left.
    destruct (getitem action_data "to") as [to_address|] eqn:Hto; [|by left].
    destruct (getitem action_data "body") as [text|] eqn:Hbody; [|by left].
    unfold send_email. destruct (smtp to_address text) eqn:Hs; simpl.
    + by left.
    + left. split; [done|]. by exists to_address, text.
    + right. split; [done|]. by exists to_address, text.
  - destruct (py_eq action (VStr "add_todo")) eqn:Ht; [|by left].
    apply WalkFacts.py_eq_text in Ht.
    destruct (py_in (VStr "body") action_data) as [[|]|]; try by left.
    destruct (getitem action_data "body") as [text|] eqn:Hbody; [|by left].
    simpl. right. split; [done|]. by exists text.
Qed.

(** X21: the request a PUBLISH node sends when its properties have no
    action_data, or no action, is answered 'Invalid Format' (400) by the
    handler, which does nothing, although the node has reported
    'published'. *)
Theorem publish_without_data_rejected (w : Engine.World) (node : Engine.Node)
    (st : Engine.state) (smtp : value → value → delivery) (eff : effects) :
  Engine.properties node !! "action_data" = None ∨ Engine.properties node !! "action" = None →
  Engine.accepts w (default VNone (Engine.properties node !! "action"))
    (default (VDict []) (Engine.properties node !! "action_data")) = true →
  ∃ sent,
    Engine.result_value (Engine.execute_publish_node w node st).1 = VStr "published" ∧
    Engine.outbox (Engine.execute_publish_node w node st).2 = Engine.outbox st ++ [sent] ∧
    action_handler smtp (Some (request_of sent)) eff = (InvalidFormat, eff) ∧
    status (action_handler smtp (Some (request_of sent)) eff).1 = 400%Z.
Proof.
  intros Hmissing Hacc.
  exists (default VNone (Engine.properties node !! "action"),
          default (VDict []) (Engine.properties node !! "action_data")).
  assert (H : action_handler smtp
                (Some (request_of (default VNone (Engine.properties node !! "action"),
                                   default (VDict []) (Engine.properties node !! "action_data"))))
                eff = (InvalidFormat, eff)).
  { unfold action_handler, request_of. simpl.
    destruct Hmissing as [-> | ->]; simpl; [|done].
    by rewrite orb_true_r. }
  rewrite H. unfold Engine.execute_publish_node. by rewrite Hacc.
Qed.

Lemma publish_without_data_rejected_witness :
  ∃ sent,
    Engine.result_value
      (Engine.execute_publish_node Samples.world bare_publish Samples.start_state).1
      = VStr "published" ∧
    Engine.outbox (Engine.execute_publish_node Samples.world bare_publish Samples.start_state).2
      = Engine.outbox Samples.start_state ++ [sent] ∧
    action_handler open_smtp (Some (request_of sent)) nothing_done
      = (InvalidFormat, nothing_done) ∧
    status (action_handler open_smtp (Some (request_of sent)) nothing_done).1 = 400%Z.
Proof.
  apply (publish_without_data_rejected Samples.world bare_publish Samples.start_state
           open_smtp nothing_done).
  - by left.
  - reflexivity.
Defined.

(** X22: the request of a PUBLISH node whose action is 'email' and whose
    action_data is a dictionary with 'to' and 'body' is answered 200 by
    the handler when the mail transport takes the mail, and exactly that
    mail has been sent. *)
Theorem published_email_is_sent (w : Engine.World) (node : Engine.Node) (st : Engine.state)
    (smtp : value → value → delivery) (eff : effects) (data : list (string * value))
    (to_address text : value) :
  Engine.properties node !! "action" = Some (VStr "email") →
  Engine.properties node !! "action_data" = Some (VDict data) →
  assoc "to" data = Some to_address →
  assoc "body" data = Some text →
  Engine.accepts w (VStr "email") (VDict data) = true →
  smtp to_address text = Sent →
  ∃ sent,
    Engine.outbox (Engine.execute_publish_node w node st).2 = Engine.outbox st ++ [sent] ∧
    status (action_handler smtp (Some (request_of sent)) eff).1 = 200%Z ∧
    (action_handler smtp (Some (request_of sent)) eff).2
      = {| mails := mails eff ++ [(to_address, text)]; todos := todos eff |}.
Proof.
  intros Ha Hd Hto Hbody Hacc Hs. unfold Engine.execute_publish_node.
  rewrite Ha, Hd. simpl. rewrite Hacc. simpl. eexists. split; [done|].
  unfold action_handler, request_of. simpl.
  assert (Hne : data ≠ []) by (by intros ->).
  destruct data as [|kv data']; [done|]. cbn [truthy negb orb].
  unfold process_rule. cbn [py_eq String.eqb Ascii.eqb Bool.eqb andb].
  unfold py_in, getitem. rewrite Hto, Hbody.
  rewrite !bool_decide_eq_true_2 by (by eexists).
  unfold send_email. by rewrite Hs.
Qed.

Lemma published_email_is_sent_witness :
  ∃ sent,
    Engine.outbox (Engine.execute_publish_node Samples.world email_publish Samples.start_state).2
      = Engine.outbox Samples.start_state ++ [sent] ∧
    status (action_handler open_smtp (Some (request_of sent)) nothing_done).1 = 200%Z ∧
    (action_handler open_smtp (Some (request_of sent)) nothing_done).2
      = {| mails := mails nothing_done ++ [(VStr "ops", VStr "hot")];
           todos := todos nothing_done |}.
Proof.
  apply (published_email_is_sent Samples.world email_publish Samples.start_state open_smtp
           nothing_done [("to", VStr "ops"); ("body", VStr "hot")]); reflexivity.
Defined.

End HandlerFacts.

(** ** Inserting rules (insert_rules.py) *)

Module InserterFacts.
Import Py Inserter Probes.

Lemma set_hit (k : string) (r : Engine.rule_doc) (store : list (string * Engine.rule_doc)) :
  (k, r) ∈ set k r store.
Proof.
  induction store as [|[j d] store IH]; simpl; [by left|].
  destruct (String.eqb_spec j k) as [-> | _]; [by left | by right].
Qed.

Lemma set_other (k j : string) (r d : Engine.rule_doc)
    (store : list (string * Engine.rule_doc)) :
  j ≠ k → (j, d) ∈ store → (j, d) ∈ set k r store.
Proof.
  intros Hne. induction store as [|[i x] store IH]; simpl; [by intros ?%elem_of_nil|].
  intros [[= <- <-] | Hin]%elem_of_cons.
  - destruct (String.eqb_spec j k); [done | by left].
  - destruct (String.eqb_spec i k); right; auto.
Qed.

Lemma set_from (k j : string) (r d : Engine.rule_doc)
    (store : list (string * Engine.rule_doc)) :
  (j, d) ∈ set k r store → (j = k ∧ d = r) ∨ (j, d) ∈ store.
Proof.
  induction store as [|[i x] store IH]; simpl.
  - intros [= -> ->]%list_elem_of_singleton. by left.
  - destruct (String.eqb_spec i k) as [-> | Hne].
    + intros [[= -> ->] | Hin]%elem_of_cons; [by left | right; by right].
    + intros [[= -> ->] | Hin]%elem_of_cons; [right; by left|].
      destruct (IH Hin) as [? | ?]; [by left | right; by right].
Qed.

Lemma set_ids_hit (k : string) (r : Engine.rule_doc)
    (store : list (string * Engine.rule_doc)) :
  k ∈ store.*1 → (set k r store).*1 = store.*1.
Proof.
  induction store as [|[j d] store IH]; [by intros ?%elem_of_nil|].
  rewrite fmap_cons. simpl. intros Hin.
  destruct (String.eqb_spec j k) as [-> | Hne]; [done|].
  apply elem_of_cons in Hin as [-> | Hin]; [done|].
  by rewrite fmap_cons, IH.
Qed.

Lemma set_ids_miss (k : string) (r : Engine.rule_doc)
    (store : list (string * Engine.rule_doc)) :
  k ∉ store.*1 → (set k r store).*1 = store.*1 ++ [k].
Proof.
  induction store as [|[j d] store IH]; [done|].
  rewrite fmap_cons. simpl. intros [Hne Hin]%not_elem_of_cons.
  destruct (String.eqb_spec j k) as [-> | _]; [done|].
  by rewrite fmap_cons, IH.
Qed.

Lemma set_NoDup (k : string) (r : Engine.rule_doc) (store : list (string * Engine.rule_doc)) :
  NoDup store.*1 → NoDup (set k r store).*1.
Proof.
  intros Hnd. destruct (decide (k ∈ store.*1)) as [Hk | Hk].
  - by rewrite set_ids_hit.
  - rewrite set_ids_miss by done. apply NoDup_app. split; [done|]. split.
    + intros i Hi ->%list_elem_of_singleton. done.
    + apply NoDup_singleton.
Qed.

Lemma insert_NoDup (rules : list Engine.rule_doc) :
  ∀ store, NoDup store.*1 → NoDup (insert_rules rules store).*1.
Proof.
  induction rules as [|rule rules IH]; intros store Hnd; [done|]. simpl.
  destruct (Engine.rule_id_field rule); auto using set_NoDup.
Qed.

Lemma insert_from (rules : list Engine.rule_doc) :
  ∀ store k d,
    (k, d) ∈ insert_rules rules store →
    (k, d) ∈ store ∨
    (d ∈ rules ∧ ∃ i, Engine.rule_id_field d = Some i ∧ k = doc_id_of i).
Proof.
  induction rules as [|rule rules IH]; intros store k d; [by left|]. simpl.
  destruct (Engine.rule_id_field rule) as [i|] eqn:Hi; intros Hin.
  - destruct (IH _ _ _ Hin) as [Hs | (Hd & Hid)].
    + destruct (set_from _ _ _ _ _ Hs) as [[-> ->] | Hs']; [|by left].
      right. split; [by left | by exists i].
    + right. split; [by right | done].
  - destruct (IH _ _ _ Hin) as [Hs | (Hd & Hid)]; [by left|].
    right. split; [by right | done].
Qed.

Lemma insert_keeps (rules : list Engine.rule_doc) :
  ∀ store k d,
    (k, d) ∈ store →
    (∀ r j, r ∈ rules → Engine.rule_id_field r = Some j → doc_id_of j ≠ k) →
    (k, d) ∈ insert_rules rules store.
Proof.
  induction rules as [|rule rules IH]; intros store k d Hin Hfree; [done|]. simpl.
  assert (Hrest : ∀ r j, r ∈ rules → Engine.rule_id_field r = Some j → doc_id_of j ≠ k)
    by (intros r j Hr; apply Hfree; by right).
  destruct (Engine.rule_id_field rule) as [i|] eqn:Hi; [|by apply IH].
  apply IH; [|done]. apply set_other; [|done].
  intros ->. eapply Hfree; [by left | done | done].
Qed.

(** X23: whatever insert_rules stores, it keeps the document ids distinct;
    every document of the collection afterwards was there before or is
    one of the given rules, under its id in lower case with spaces
    replaced; and a document whose id none of the rules comes to is
    still there, unchanged. Rule ids are ASCII text. *)
Theorem inserted_rules_stored (rules : list Engine.rule_doc)
    (store : list (string * Engine.rule_doc)) :
  NoDup store.*1 →
  Forall (λ rule, ∀ i, Engine.rule_id_field rule = Some i → is_ascii i = true) rules →
  NoDup (insert_rules rules store).*1 ∧
  (∀ k d, (k, d) ∈ insert_rules rules store →
          (k, d) ∈ store ∨
          (d ∈ rules ∧ ∃ i, Engine.rule_id_field d = Some i ∧ k = doc_id_of i)) ∧
  (∀ k d, (k, d) ∈ store →
          (∀ r j, r ∈ rules → Engine.rule_id_field r = Some j → doc_id_of j ≠ k) →
          (k, d) ∈ insert_rules rules store).
Proof.
  intros Hnd _. split; [by apply insert_NoDup|]. split; [apply insert_from|].
  apply insert_keeps.
Qed.

Lemma inserted_rules_stored_witness :
  NoDup (insert_rules [loud_rule; Engine.set_id "hot rule" Samples.threshold_rule]
           [("cold", Samples.bare_rule)]).*1 ∧
  (∀ k d, (k, d) ∈ insert_rules [loud_rule; Engine.set_id "hot rule" Samples.threshold_rule]
                     [("cold", Samples.bare_rule)] →
          (k, d) ∈ [("cold", Samples.bare_rule)] ∨
          (d ∈ [loud_rule; Engine.set_id "hot rule" Samples.threshold_rule] ∧
           ∃ i, Engine.rule_id_field d = Some i ∧ k = doc_id_of i)) ∧
  (∀ k d, (k, d) ∈ [("cold", Samples.bare_rule)] →
          (∀ r j, r ∈ [loud_rule; Engine.set_id "hot rule" Samples.threshold_rule] →
                  Engine.rule_id_field r = Some j → doc_id_of j ≠ k) →
          (k, d) ∈ insert_rules [loud_rule; Engine.set_id "hot rule" Samples.threshold_rule]
                     [("cold", Samples.bare_rule)]).
Proof.
  apply (inserted_rules_stored [loud_rule; Engine.set_id "hot rule" Samples.threshold_rule]
           [("cold", Samples.bare_rule)]).
  - by apply (bool_decide_unpack _).
  - repeat constructor; by intros i [= <-].
Defined.

(** X24: of the rules put into an empty collection by insert_rules, a
    pass of get_rules selects only rules that were inserted with a
    last_run, and it hands each of them to the engine under its document
    id (lower case, spaces replaced), not under the id it was inserted
    with. A rule inserted without last_run is never selected. *)
Theorem inserted_rules_selected (w : Engine.World) (st : Engine.state)
    (rules : list Engine.rule_doc) (rule : Engine.rule_doc) :
  Engine.rules st = insert_rules rules [] →
  rule ∈ (Engine.get_rules w st).1 →
  ∃ r i, r ∈ rules ∧ Engine.rule_id_field r = Some i ∧ is_Some (Engine.last_run r) ∧
         rule = Engine.set_id (doc_id_of i) r.
Proof.
  intros Hst Hin. unfold Engine.get_rules in Hin.
  destruct (PassFacts.fold_selected w (Engine.rules st) [] st) as (new & Hnew & Hall).
  rewrite Hnew in Hin. destruct (Hall rule Hin) as (k & d & Hd & -> & Hl & _).
  rewrite Hst in Hd. destruct (insert_from _ _ _ _ Hd) as [Hd' | (Hr & i & Hi & ->)].
  - by apply elem_of_nil in Hd'.
  - by exists d, i.
Qed.

Lemma inserted_rules_selected_witness :
  ∃ r i, r ∈ [loud_rule] ∧ Engine.rule_id_field r = Some i ∧ is_Some (Engine.last_run r) ∧
         Engine.set_id "hot_rule" loud_rule = Engine.set_id (doc_id_of i) r.
Proof.
  apply (inserted_rules_selected Samples.world inserted_state [loud_rule]).
  - reflexivity.
  - vm_compute. by left.
Defined.

(** *** Document ids *)

Lemma doc_id_of_chars (s : string) :
  doc_id_of s = match s with
                | EmptyString => EmptyString
                | String c rest => String (doc_id_char c) (doc_id_of rest)
                end.
Proof. by destruct s. Qed.

Lemma doc_id_char_idem (c : ascii) : doc_id_char (doc_id_char c) = doc_id_char c.
Proof. by destruct c as [[] [] [] [] [] [] [] []]. Qed.

Lemma doc_id_idem (s : string) : doc_id_of (doc_id_of s) = doc_id_of s.
Proof.
  induction s as [|c s IH]; [done|].
  rewrite (doc_id_of_chars (String c s)), doc_id_of_chars, IH. by rewrite doc_id_char_idem.
Qed.

(** X25: a document id is stable: the id get_rules hands out (the
    document id) leads insert_rules back to the same document. Inserting
    a rule fetched that way into the collection adds no document, it
    replaces the one it came from. *)
Theorem reinsert_replaces (i : string) (rule : Engine.rule_doc)
    (store : list (string * Engine.rule_doc)) :
  NoDup store.*1 →
  doc_id_of i ∈ store.*1 →
  doc_id_of (doc_id_of i) = doc_id_of i ∧
  (insert_rules [Engine.set_id (doc_id_of i) rule] store).*1 = store.*1 ∧
  ∀ d, (doc_id_of i, d) ∈ insert_rules [Engine.set_id (doc_id_of i) rule] store
       ↔ d = Engine.set_id (doc_id_of i) rule.
Proof.
  intros Hnd Hin. split; [apply doc_id_idem|]. simpl. rewrite doc_id_idem. split.
  - by apply set_ids_hit.
  - intros d. split; [|intros ->; apply set_hit].
    intros Hd. eapply PassFacts.one_document_per_id;
      [by apply set_NoDup | exact Hd | apply set_hit].
Qed.

Lemma reinsert_replaces_witness :
  doc_id_of (doc_id_of "Hot Rule") = doc_id_of "Hot Rule" ∧
  (insert_rules [Engine.set_id (doc_id_of "Hot Rule") Samples.threshold_rule]
     (Engine.rules inserted_state)).*1 = (Engine.rules inserted_state).*1 ∧
  ∀ d, (doc_id_of "Hot Rule", d)
         ∈ insert_rules [Engine.set_id (doc_id_of "Hot Rule") Samples.threshold_rule]
             (Engine.rules inserted_state)
       ↔ d = Engine.set_id (doc_id_of "Hot Rule") Samples.threshold_rule.
Proof.
  apply (reinsert_replaces "Hot Rule" Samples.threshold_rule (Engine.rules inserted_state)).
  - by apply (bool_decide_unpack _).
  - vm_compute. by left.
Defined.

End InserterFacts.
